(** * StrokeEngine patterns (Software/lib/StrokeEngine/src/pattern.h)

    A shallow embedding of the motion patterns of the StrokeEngine and the
    properties of their [nextTarget] functions.

    Conventions of the embedding.
    - C++ [int], [long] (32 bits on the ESP32) and [unsigned int] values are
      integers of [Z]; where an operation can leave the range of its type the
      wrap-around is written out with [wrap_int] and [wrap_uint].
    - C++ [float] and [double] values are modelled by rationals extended
      with the IEEE 754 special values (+inf, -inf, NaN); the sign of zero is
      not modelled (a zero divisor is +0).  Division by zero, the propagation
      of infinities and NaN and the comparisons with NaN follow IEEE 754.
    - The classes are embedded with exact arithmetic (modules [Pattern] to
      [Insist]): this is the model of the properties that do not depend on
      the rounding of a result to 24 or 53 bits (integer targets, counters,
      frames, comparisons, undefined conversions).  The functions whose
      rounded results a property is about are embedded again in the module
      [Binary32], every operation rounded to the nearest value of binary32
      or binary64, ties to even, as its C++ operand types have it.
    - A conversion of a floating value to [int] or [long] truncates toward
      zero; it has no defined result in C++ for NaN, for an infinity or for a
      value outside of the range of the integer type: the model returns [None]
      there, and every function that converts runs in the option monad.
    - [millis()] is an input of the functions that read the clock. *)

From Stdlib Require Import ZArith QArith Qabs Qround Qpower.
From Stdlib Require Import Bool List Lia Lqa.

Set Implicit Arguments.

Local Open Scope Z_scope.

(* ================================================================== *)
(** ** Machine integers *)

Definition INT_MIN : Z := - 2 ^ 31.
Definition INT_MAX : Z := 2 ^ 31 - 1.
Definition UINT_MAX : Z := 2 ^ 32 - 1.

(** Conversion to a 32-bit [int] (two's complement wrap-around). *)
Definition wrap_int (z : Z) : Z := (z + 2 ^ 31) mod 2 ^ 32 - 2 ^ 31.

(** Conversion to a 32-bit [unsigned int] / [unsigned long]. *)
Definition wrap_uint (z : Z) : Z := z mod 2 ^ 32.

Definition in_int (z : Z) : Prop := INT_MIN <= z <= INT_MAX.
Definition in_uint (z : Z) : Prop := 0 <= z <= UINT_MAX.

(** [abs] of Arduino.h on an [int]. *)
Definition abs_int (x : Z) : Z := wrap_int (Z.abs x).

(** The macro [constrain(amt, low, high)] of Arduino.h,
    [((amt)<(low)?(low):((amt)>(high)?(high):(amt)))], on integers.  Where
    [high] is an [unsigned int] limit the second comparison is unsigned in
    C++; it is only reached with [amt >= low >= 0], where it agrees with the
    comparison of [Z], and its result is then at most [amt] or the limit
    that [amt] exceeds, so that it fits the [int] it is stored in. *)
Definition constrain (amt low high : Z) : Z :=
  if amt <? low then low else if amt >? high then high else amt.

(** [long map(long x, long in_min, long in_max, long out_min, long out_max)]
    of the Arduino core:
    [(x - in_min) * (out_max - out_min) / (in_max - in_min) + out_min],
    the division truncating toward zero; the ESP32 core returns -1 for an
    empty input range. *)
Definition map (x in_min in_max out_min out_max : Z) : Z :=
  let run := wrap_int (in_max - in_min) in
  if run =? 0 then -1
  else
    let rise := wrap_int (out_max - out_min) in
    let delta := wrap_int (x - in_min) in
    wrap_int (wrap_int (wrap_int (delta * rise) ÷ run) + out_min).

(* ================================================================== *)
(** ** Floating-point values *)

Inductive float : Type :=
| Fin (q : Q)
| PInf
| NInf
| NaN.

Definition of_int (z : Z) : float := Fin (inject_Z z).

Definition is_finite (x : float) : bool :=
  match x with Fin _ => true | _ => false end.

Definition fopp (x : float) : float :=
  match x with
  | Fin q => Fin (- q)
  | PInf => NInf
  | NInf => PInf
  | NaN => NaN
  end.

Definition fadd (x y : float) : float :=
  match x, y with
  | NaN, _ | _, NaN => NaN
  | Fin a, Fin b => Fin (a + b)
  | PInf, NInf | NInf, PInf => NaN
  | PInf, _ | _, PInf => PInf
  | NInf, _ | _, NInf => NInf
  end.

Definition fsub (x y : float) : float := fadd x (fopp y).

(** The infinity with the sign of [s] (NaN for [Eq], the product 0 * inf). *)
Definition inf_of_sign (s : comparison) : float :=
  match s with Eq => NaN | Gt => PInf | Lt => NInf end.

Definition fmul (x y : float) : float :=
  match x, y with
  | NaN, _ | _, NaN => NaN
  | Fin a, Fin b => Fin (a * b)
  | Fin a, PInf | PInf, Fin a => inf_of_sign (a ?= 0)%Q
  | Fin a, NInf | NInf, Fin a => inf_of_sign (0 ?= a)%Q
  | PInf, PInf | NInf, NInf => PInf
  | PInf, NInf | NInf, PInf => NInf
  end.

Definition fdiv (x y : float) : float :=
  match x, y with
  | NaN, _ | _, NaN => NaN
  | Fin a, Fin b =>
      match (b ?= 0)%Q with
      | Eq => inf_of_sign (a ?= 0)%Q
      | _ => Fin (a / b)
      end
  | Fin _, PInf | Fin _, NInf => Fin 0
  | PInf, Fin b => match (b ?= 0)%Q with Lt => NInf | _ => PInf end
  | NInf, Fin b => match (b ?= 0)%Q with Lt => PInf | _ => NInf end
  | _, _ => NaN
  end.

(** [x < y]; false as soon as an operand is NaN. *)
Definition flt (x y : float) : bool :=
  match x, y with
  | NaN, _ | _, NaN => false
  | Fin a, Fin b => match (a ?= b)%Q with Lt => true | _ => false end
  | NInf, NInf | PInf, _ | _, NInf => false
  | _, _ => true
  end.

Definition fgt (x y : float) : bool := flt y x.

(** [x >= y]; false as soon as an operand is NaN. *)
Definition fge (x y : float) : bool :=
  match x, y with
  | NaN, _ | _, NaN => false
  | Fin a, Fin b => match (a ?= b)%Q with Lt => false | _ => true end
  | PInf, _ | _, NInf => true
  | _, _ => false
  end.

(** [x == y] of C++ on floating values. *)
Definition feqb (x y : float) : bool :=
  match x, y with
  | Fin a, Fin b => Qeq_bool a b
  | PInf, PInf | NInf, NInf => true
  | _, _ => false
  end.

(** [abs] of Arduino.h, [((x)>0?(x):-(x))], on a floating value. *)
Definition fabs (x : float) : float :=
  if fgt x (Fin 0) then x else fopp x.

(** [constrain] on a floating value ([low] and [high] converted). *)
Definition fconstrain (amt low high : float) : float :=
  if flt amt low then low else if fgt amt high then high else amt.

(** Truncation toward zero. *)
Definition Qtrunc (q : Q) : Z := Qnum q ÷ Z.pos (Qden q).

(** Conversion to [int] (and to [long], which has the same size). *)
Definition to_int (x : float) : option Z :=
  match x with
  | Fin q =>
      let z := Qtrunc q in
      if (INT_MIN <=? z) && (z <=? INT_MAX) then Some z else None
  | _ => None
  end.

Definition to_long : float -> option Z := to_int.

(** The option monad of the conversions. *)
Definition bind {A B : Type} (c : option A) (k : A -> option B) : option B :=
  match c with Some a => k a | None => None end.

Notation "x <- c ;; k" := (bind c (fun x => k))
  (at level 61, c at next level, right associativity).

(** Modelled from the spec: [fscale] of PatternMath.h, which is not part of
    the sources at hand.  The range-mapping primitive "clamps [value] into
    [[inMin, inMax]], normalizes to [[0,1]], linearly interpolates into
    [[outMin, outMax]] (outMin may exceed outMax to express inversion)".  Its
    last argument is a curvature; every call of pattern.h passes 0.0, for
    which the exponent is 1 and the primitive is the linear interpolation
    below. *)
Definition fscale (originalMin originalMax newBegin newEnd inputValue : float)
  : float :=
  let clamped := fconstrain inputValue originalMin originalMax in
  let normalized := fdiv (fsub clamped originalMin)
                         (fsub originalMax originalMin) in
  fadd newBegin (fmul normalized (fsub newEnd newBegin)).

(* ================================================================== *)
(** ** The motion command and the base class *)

(** [motionParameter]: all the parameters FastAccelStepper needs to calculate
    the trapezoidal profile. *)
Record motionParameter : Type := {
  stroke : Z;        (* absolute target position of a move in steps *)
  speed : Z;         (* speed of a move *)
  acceleration : Z;  (* acceleration to get to speed or halt *)
  skip : bool        (* no valid stroke, skip this set and query the next *)
}.

Module Pattern.

(** The data members of [class Pattern] ([_name] has no effect on the
    motion and is left out). *)
Record t : Type := {
  _stroke : Z;
  _depth : Z;
  _speed : Z;
  _sensation : float;
  _index : Z;
  _nextMove : motionParameter;
  _startDelayMillis : Z;
  _delayInMillis : Z;
  _maxSpeed : Z;
  _maxAcceleration : Z;
  _stepsPerMM : Z
}.

(** The member initialisers; [_stroke], [_depth] and [_speed] have none
    and are given here. *)
Definition init (stroke0 depth0 speed0 : Z) : t := {|
  _stroke := stroke0; _depth := depth0; _speed := speed0;
  _sensation := Fin 0; _index := -1;
  _nextMove := {| stroke := 0; speed := 0; acceleration := 0;
                  skip := false |};
  _startDelayMillis := 0; _delayInMillis := 0;
  _maxSpeed := 0; _maxAcceleration := 0; _stepsPerMM := 0 |}.

Definition setSpeed (v : Z) (p : t) : t := {|
  _stroke := _stroke p; _depth := _depth p; _speed := v;
  _sensation := _sensation p; _index := _index p;
  _nextMove := _nextMove p;
  _startDelayMillis := _startDelayMillis p;
  _delayInMillis := _delayInMillis p;
  _maxSpeed := _maxSpeed p; _maxAcceleration := _maxAcceleration p;
  _stepsPerMM := _stepsPerMM p |}.

Definition setStroke (v : Z) (p : t) : t := {|
  _stroke := v; _depth := _depth p; _speed := _speed p;
  _sensation := _sensation p; _index := _index p;
  _nextMove := _nextMove p;
  _startDelayMillis := _startDelayMillis p;
  _delayInMillis := _delayInMillis p;
  _maxSpeed := _maxSpeed p; _maxAcceleration := _maxAcceleration p;
  _stepsPerMM := _stepsPerMM p |}.

Definition setDepth (v : Z) (p : t) : t := {|
  _stroke := _stroke p; _depth := v; _speed := _speed p;
  _sensation := _sensation p; _index := _index p;
  _nextMove := _nextMove p;
  _startDelayMillis := _startDelayMillis p;
  _delayInMillis := _delayInMillis p;
  _maxSpeed := _maxSpeed p; _maxAcceleration := _maxAcceleration p;
  _stepsPerMM := _stepsPerMM p |}.

Definition setSensation (v : float) (p : t) : t := {|
  _stroke := _stroke p; _depth := _depth p; _speed := _speed p;
  _sensation := v; _index := _index p;
  _nextMove := _nextMove p;
  _startDelayMillis := _startDelayMillis p;
  _delayInMillis := _delayInMillis p;
  _maxSpeed := _maxSpeed p; _maxAcceleration := _maxAcceleration p;
  _stepsPerMM := _stepsPerMM p |}.

Definition setSpeedLimit (maxSpeed maxAcceleration stepsPerMM : Z) (p : t)
  : t := {|
  _stroke := _stroke p; _depth := _depth p; _speed := _speed p;
  _sensation := _sensation p; _index := _index p;
  _nextMove := _nextMove p;
  _startDelayMillis := _startDelayMillis p;
  _delayInMillis := _delayInMillis p;
  _maxSpeed := maxSpeed; _maxAcceleration := maxAcceleration;
  _stepsPerMM := stepsPerMM |}.

(** [_nextMove = m] (the assignments to the fields of [_nextMove]). *)
Definition set_nextMove (m : motionParameter) (p : t) : t := {|
  _stroke := _stroke p; _depth := _depth p; _speed := _speed p;
  _sensation := _sensation p; _index := _index p;
  _nextMove := m;
  _startDelayMillis := _startDelayMillis p;
  _delayInMillis := _delayInMillis p;
  _maxSpeed := _maxSpeed p; _maxAcceleration := _maxAcceleration p;
  _stepsPerMM := _stepsPerMM p |}.

(** [_index = index], an [unsigned int] stored in an [int]. *)
Definition set_index (index : Z) (p : t) : t := {|
  _stroke := _stroke p; _depth := _depth p; _speed := _speed p;
  _sensation := _sensation p; _index := wrap_int index;
  _nextMove := _nextMove p;
  _startDelayMillis := _startDelayMillis p;
  _delayInMillis := _delayInMillis p;
  _maxSpeed := _maxSpeed p; _maxAcceleration := _maxAcceleration p;
  _stepsPerMM := _stepsPerMM p |}.

(** [_startDelay()]: [_startDelayMillis = millis()]. *)
Definition _startDelay (millis : Z) (p : t) : t := {|
  _stroke := _stroke p; _depth := _depth p; _speed := _speed p;
  _sensation := _sensation p; _index := _index p;
  _nextMove := _nextMove p;
  _startDelayMillis := wrap_int millis;
  _delayInMillis := _delayInMillis p;
  _maxSpeed := _maxSpeed p; _maxAcceleration := _maxAcceleration p;
  _stepsPerMM := _stepsPerMM p |}.

Definition _updateDelay (delayInMillis : Z) (p : t) : t := {|
  _stroke := _stroke p; _depth := _depth p; _speed := _speed p;
  _sensation := _sensation p; _index := _index p;
  _nextMove := _nextMove p;
  _startDelayMillis := _startDelayMillis p;
  _delayInMillis := delayInMillis;
  _maxSpeed := _maxSpeed p; _maxAcceleration := _maxAcceleration p;
  _stepsPerMM := _stepsPerMM p |}.

(** [(millis() > (_startDelayMillis + _delayInMillis)) ? false : true];
    the [int] sum is converted to [unsigned long] by the comparison. *)
Definition _isStillDelayed (millis : Z) (p : t) : bool :=
  if millis >? wrap_uint (wrap_int (_startDelayMillis p + _delayInMillis p))
  then false else true.

(** Range of stroke in steps: [min(abs(_depth), abs(_stroke))]. *)
Definition _calRangeOfStroke (p : t) : float :=
  of_int (Z.min (abs_int (_depth p)) (abs_int (_stroke p))).

(** The divisor of the stroke time, [constrain(_speed, 1, _maxSpeed)]. *)
Definition speedDivisor (p : t) : Z :=
  constrain (_speed p) 1 (_maxSpeed p).

(** Time of stroke:
    [float(_calRangeOfStroke() / constrain(_speed, 1, _maxSpeed))]. *)
Definition _calTimeOfStroke (p : t) : float :=
  fdiv (_calRangeOfStroke p) (of_int (speedDivisor p)).

(** [_setIdleState()]: the stepper in a secure position. *)
Definition _setIdleState (p : t) : option (motionParameter * t) :=
  v <- to_int (fmul (Fin 0.05) (of_int (_maxSpeed p))) ;;
  a <- to_int (fmul (Fin 0.5) (of_int (_maxAcceleration p))) ;;
  let m := {| stroke := constrain (wrap_int (_depth p - _stroke p)) 0
                                  (_depth p);
              speed := v; acceleration := a; skip := false |} in
  Some (m, set_nextMove m p).

(** [Pattern::nextTarget], for a pattern that does not override it. *)
Definition nextTarget (index : Z) (p : t) : motionParameter * t :=
  (_nextMove p, set_index index p).

End Pattern.

(** [index % 2], the test of "odd stroke is moving out". *)
Definition odd_stroke (index : Z) : bool := negb (index mod 2 =? 0).

(* ================================================================== *)
(** ** SimplePenetration *)

Module SimplePenetration.

Record t : Type := {
  base : Pattern.t;
  _timeOfStroke : float
}.

Definition init (stroke0 depth0 speed0 : Z) : t :=
  {| base := Pattern.init stroke0 depth0 speed0; _timeOfStroke := Fin 1 |}.

(** A member function of the base class applied to the object. *)
Definition upd_base (f : Pattern.t -> Pattern.t) (p : t) : t :=
  {| base := f (base p); _timeOfStroke := _timeOfStroke p |}.

(** The override of [_setIdleState]: the target position is 0. *)
Definition _setIdleState (p : t) : option (motionParameter * t) :=
  let b := base p in
  v <- to_int (fmul (Fin 0.05) (of_int (Pattern._maxSpeed b))) ;;
  a <- to_int (fmul (Fin 0.5) (of_int (Pattern._maxAcceleration b))) ;;
  let m := {| stroke := 0; speed := v; acceleration := a; skip := false |} in
  Some (m, upd_base (Pattern.set_nextMove m) p).

Definition nextTarget (index : Z) (p : t) : option (motionParameter * t) :=
  let b := base p in
  if Pattern._speed b =? 0 then _setIdleState p
  else
    let timeOfStroke := Pattern._calTimeOfStroke b in
    (* constrain(1.5 * _speed, 0, _maxSpeed), a double stored in an int *)
    v <- to_int (fconstrain (fmul (Fin 1.5) (of_int (Pattern._speed b)))
                            (of_int 0) (of_int (Pattern._maxSpeed b))) ;;
    (* constrain((3.0 * _nextMove.speed) / _timeOfStroke, 0,
                 _maxAcceleration), a double stored in an int *)
    a <- to_int (fconstrain (fdiv (fmul (Fin 3) (of_int v)) timeOfStroke)
                            (of_int 0)
                            (of_int (Pattern._maxAcceleration b))) ;;
    let s := if odd_stroke index then Pattern._depth b else 0 in
    let m := {| stroke := s; speed := v; acceleration := a; skip := false |} in
    Some (m, {| base := Pattern.set_index index (Pattern.set_nextMove m b);
                _timeOfStroke := timeOfStroke |}).

End SimplePenetration.

(* ================================================================== *)
(** ** TeasingPounding *)

Module TeasingPounding.

Record t : Type := {
  base : Pattern.t;
  _timeOfStroke : float;
  _timeOfFastStroke : float;
  _timeOfInStroke : float;
  _timeOfOutStroke : float
}.

Definition init (stroke0 depth0 speed0 : Z) : t :=
  {| base := Pattern.init stroke0 depth0 speed0;
     _timeOfStroke := Fin 1; _timeOfFastStroke := Fin 1;
     _timeOfInStroke := Fin 1; _timeOfOutStroke := Fin 1 |}.

Definition upd_base (f : Pattern.t -> Pattern.t) (p : t) : t :=
  {| base := f (base p);
     _timeOfStroke := _timeOfStroke p;
     _timeOfFastStroke := _timeOfFastStroke p;
     _timeOfInStroke := _timeOfInStroke p;
     _timeOfOutStroke := _timeOfOutStroke p |}.

Definition set_timeOfStroke (v : float) (p : t) : t :=
  {| base := base p;
     _timeOfStroke := v;
     _timeOfFastStroke := _timeOfFastStroke p;
     _timeOfInStroke := _timeOfInStroke p;
     _timeOfOutStroke := _timeOfOutStroke p |}.

(** The override:
    [float(2.0 * _calRangeOfStroke() / constrain(_speed, 1, _maxSpeed))]. *)
Definition _calTimeOfStroke (p : t) : float :=
  fdiv (fmul (Fin 2) (Pattern._calRangeOfStroke (base p)))
       (of_int (Pattern.speedDivisor (base p))).

Definition _setIdleState (p : t) : option (motionParameter * t) :=
  r <- Pattern._setIdleState (base p) ;;
  Some (fst r, upd_base (fun _ => snd r) p).

Definition _updateStrokeTiming (p : t) : t :=
  let sensation := Pattern._sensation (base p) in
  (* the time it takes to complete the faster stroke *)
  let timeOfFastStroke :=
    fdiv (fmul (Fin 0.5) (_timeOfStroke p))
         (fscale (Fin 0) (Fin 100) (Fin 1) (Fin 5) (fabs sensation)) in
  if fgt sensation (Fin 0) then
    (* positive sensation, in is faster *)
    {| base := base p;
       _timeOfStroke := _timeOfStroke p;
       _timeOfFastStroke := timeOfFastStroke;
       _timeOfInStroke := timeOfFastStroke;
       _timeOfOutStroke := fsub (_timeOfStroke p) timeOfFastStroke |}
  else
    (* negative sensation, out is faster *)
    {| base := base p;
       _timeOfStroke := _timeOfStroke p;
       _timeOfFastStroke := timeOfFastStroke;
       _timeOfInStroke := fsub (_timeOfStroke p) timeOfFastStroke;
       _timeOfOutStroke := timeOfFastStroke |}.

Definition nextTarget (index : Z) (p : t) : option (motionParameter * t) :=
  if Pattern._speed (base p) =? 0 then _setIdleState p
  else
    let p := set_timeOfStroke (_calTimeOfStroke p) p in
    let p := _updateStrokeTiming p in
    let b := base p in
    m <- (if odd_stroke index then
            (* constrain(int(1.5 * _stroke / _timeOfOutStroke), 0, _maxSpeed) *)
            i <- to_int (fdiv (fmul (Fin 1.5) (of_int (Pattern._stroke b)))
                              (_timeOfOutStroke p)) ;;
            let v := constrain i 0 (Pattern._maxSpeed b) in
            (* int(constrain((3.0 * _nextMove.speed) / _timeOfOutStroke, 0,
                             _maxAcceleration)) *)
            a <- to_int (fconstrain
                           (fdiv (fmul (Fin 3) (of_int v)) (_timeOfOutStroke p))
                           (of_int 0) (of_int (Pattern._maxAcceleration b))) ;;
            Some {| stroke :=
                      constrain
                        (wrap_int (Pattern._depth b - Pattern._stroke b))
                        0 (Pattern._depth b);
                    speed := v; acceleration := a; skip := false |}
          else
            i <- to_int (fdiv (fmul (Fin 1.5) (of_int (Pattern._stroke b)))
                              (_timeOfInStroke p)) ;;
            let v := constrain i 0 (Pattern._maxSpeed b) in
            a <- to_int (fconstrain
                           (fdiv (fmul (Fin 3) (of_int v)) (_timeOfInStroke p))
                           (of_int 0) (of_int (Pattern._maxAcceleration b))) ;;
            Some {| stroke := Pattern._depth b;
                    speed := v; acceleration := a; skip := false |}) ;;
    Some (m, upd_base (fun b => Pattern.set_index index
                                  (Pattern.set_nextMove m b)) p).

End TeasingPounding.

(* ================================================================== *)
(** ** RoboStroke *)

Module RoboStroke.

Record t : Type := {
  base : Pattern.t;
  _timeOfStroke : float;
  _x : float
}.

Definition init (stroke0 depth0 speed0 : Z) : t :=
  {| base := Pattern.init stroke0 depth0 speed0;
     _timeOfStroke := Fin 1; _x := fdiv (Fin 1) (Fin 3) |}.

Definition upd_base (f : Pattern.t -> Pattern.t) (p : t) : t :=
  {| base := f (base p); _timeOfStroke := _timeOfStroke p; _x := _x p |}.

Definition _setIdleState (p : t) : option (motionParameter * t) :=
  r <- Pattern._setIdleState (base p) ;;
  Some (fst r, upd_base (fun _ => snd r) p).

(** The split fraction a sensation is scaled to: the range [0.05, 0.5]
    where 0 = 1/3. *)
Definition scaled_x (sensation : float) : float :=
  if fge sensation (of_int 0) then
    fscale (Fin 0) (Fin 100) (fdiv (Fin 1) (Fin 3)) (Fin 0.5) sensation
  else
    fscale (Fin 0) (Fin 100) (fdiv (Fin 1) (Fin 3)) (Fin 0.05)
           (fopp sensation).

Definition nextTarget (index : Z) (p : t) : option (motionParameter * t) :=
  let b := base p in
  if Pattern._speed b =? 0 then _setIdleState p
  else
    let timeOfStroke := Pattern._calTimeOfStroke b in
    (* constrain(int(_speed / (1 - _x)), 0, _maxSpeed) *)
    i <- to_int (fdiv (of_int (Pattern._speed b)) (fsub (of_int 1) (_x p))) ;;
    let v := constrain i 0 (Pattern._maxSpeed b) in
    (* constrain(int(_speed / _x), 0, _maxAcceleration) *)
    j <- to_int (fdiv (of_int (Pattern._speed b)) (_x p)) ;;
    let a := constrain j 0 (Pattern._maxAcceleration b) in
    (* only now is _x scaled from the sensation *)
    let x := scaled_x (Pattern._sensation b) in
    let s := if odd_stroke index then
               constrain (wrap_int (Pattern._depth b - Pattern._stroke b))
                         0 (Pattern._depth b)
             else Pattern._depth b in
    let m := {| stroke := s; speed := v; acceleration := a; skip := false |} in
    Some (m, {| base := Pattern.set_index index (Pattern.set_nextMove m b);
                _timeOfStroke := timeOfStroke; _x := x |}).

End RoboStroke.

(* ================================================================== *)
(** ** HalfnHalf *)

Module HalfnHalf.

Record t : Type := {
  base : Pattern.t;
  _timeOfStroke : float;
  _timeOfFastStroke : float;
  _timeOfInStroke : float;
  _timeOfOutStroke : float;
  _half : bool
}.

Definition init (stroke0 depth0 speed0 : Z) : t :=
  {| base := Pattern.init stroke0 depth0 speed0;
     _timeOfStroke := Fin 1; _timeOfFastStroke := Fin 1;
     _timeOfInStroke := Fin 1; _timeOfOutStroke := Fin 1;
     _half := true |}.

Definition upd_base (f : Pattern.t -> Pattern.t) (p : t) : t :=
  {| base := f (base p);
     _timeOfStroke := _timeOfStroke p;
     _timeOfFastStroke := _timeOfFastStroke p;
     _timeOfInStroke := _timeOfInStroke p;
     _timeOfOutStroke := _timeOfOutStroke p;
     _half := _half p |}.

Definition set_timeOfStroke (v : float) (p : t) : t :=
  {| base := base p;
     _timeOfStroke := v;
     _timeOfFastStroke := _timeOfFastStroke p;
     _timeOfInStroke := _timeOfInStroke p;
     _timeOfOutStroke := _timeOfOutStroke p;
     _half := _half p |}.

Definition set_half (v : bool) (p : t) : t :=
  {| base := base p;
     _timeOfStroke := _timeOfStroke p;
     _timeOfFastStroke := _timeOfFastStroke p;
     _timeOfInStroke := _timeOfInStroke p;
     _timeOfOutStroke := _timeOfOutStroke p;
     _half := v |}.

Definition _calTimeOfStroke (p : t) : float :=
  fdiv (fmul (Fin 2) (Pattern._calRangeOfStroke (base p)))
       (of_int (Pattern.speedDivisor (base p))).

Definition _setIdleState (p : t) : option (motionParameter * t) :=
  r <- Pattern._setIdleState (base p) ;;
  Some (fst r, upd_base (fun _ => snd r) p).

Definition _updateStrokeTiming (p : t) : t :=
  let sensation := Pattern._sensation (base p) in
  let timeOfFastStroke :=
    fdiv (fmul (Fin 0.5) (_timeOfStroke p))
         (fscale (Fin 0) (Fin 100) (Fin 1) (Fin 5) (fabs sensation)) in
  if fgt sensation (Fin 0) then
    {| base := base p;
       _timeOfStroke := _timeOfStroke p;
       _timeOfFastStroke := timeOfFastStroke;
       _timeOfInStroke := timeOfFastStroke;
       _timeOfOutStroke := fsub (_timeOfStroke p) timeOfFastStroke;
       _half := _half p |}
  else
    {| base := base p;
       _timeOfStroke := _timeOfStroke p;
       _timeOfFastStroke := timeOfFastStroke;
       _timeOfInStroke := fsub (_timeOfStroke p) timeOfFastStroke;
       _timeOfOutStroke := timeOfFastStroke;
       _half := _half p |}.

Definition nextTarget (index : Z) (p : t) : option (motionParameter * t) :=
  if Pattern._speed (base p) =? 0 then _setIdleState p
  else
    let p := set_timeOfStroke (_calTimeOfStroke p) p in
    let p := _updateStrokeTiming p in
    (* the very first stroke starts gentle with a half move *)
    let p := if index =? 0 then set_half true p else p in
    let b := base p in
    (* set-up the stroke length *)
    let stroke0 := if _half p then wrap_int (Pattern._stroke b ÷ 2)
                   else Pattern._stroke b in
    if odd_stroke index then
      (* constrain(int(1.5 * _stroke / _timeOfOutStroke), 0, _maxSpeed) *)
      i <- to_int (fdiv (fmul (Fin 1.5) (of_int (Pattern._stroke b)))
                        (_timeOfOutStroke p)) ;;
      let v := constrain i 0 (Pattern._maxSpeed b) in
      (* constrain(int(3.0 * float(_nextMove.speed) / _timeOfOutStroke), 0,
                   _maxAcceleration) *)
      j <- to_int (fdiv (fmul (Fin 3) (of_int v)) (_timeOfOutStroke p)) ;;
      let a := constrain j 0 (Pattern._maxAcceleration b) in
      let m := {| stroke := constrain
                              (wrap_int (Pattern._depth b - Pattern._stroke b))
                              0 (Pattern._depth b);
                  speed := v; acceleration := a; skip := false |} in
      (* every second move is half *)
      let p := set_half (negb (_half p)) p in
      Some (m, upd_base (fun b => Pattern.set_index index
                                    (Pattern.set_nextMove m b)) p)
    else
      i <- to_int (fdiv (fmul (Fin 1.5) (of_int (Pattern._stroke b)))
                        (_timeOfInStroke p)) ;;
      let v := constrain i 0 (Pattern._maxSpeed b) in
      j <- to_int (fdiv (fmul (Fin 3) (of_int v)) (_timeOfInStroke p)) ;;
      let a := constrain j 0 (Pattern._maxAcceleration b) in
      let m := {| stroke :=
                    constrain
                      (wrap_int
                         (wrap_int (Pattern._depth b - Pattern._stroke b)
                          + stroke0))
                      0 (Pattern._depth b);
                  speed := v; acceleration := a; skip := false |} in
      Some (m, upd_base (fun b => Pattern.set_index index
                                    (Pattern.set_nextMove m b)) p).

End HalfnHalf.

(* ================================================================== *)
(** ** Deeper *)

Module Deeper.

Record t : Type := {
  base : Pattern.t;
  _timeOfStroke : float;
  _countStrokesForRamp : Z
}.

Definition init (stroke0 depth0 speed0 : Z) : t :=
  {| base := Pattern.init stroke0 depth0 speed0;
     _timeOfStroke := Fin 1; _countStrokesForRamp := 2 |}.

Definition upd_base (f : Pattern.t -> Pattern.t) (p : t) : t :=
  {| base := f (base p); _timeOfStroke := _timeOfStroke p;
     _countStrokesForRamp := _countStrokesForRamp p |}.

Definition _setIdleState (p : t) : option (motionParameter * t) :=
  r <- Pattern._setIdleState (base p) ;;
  Some (fst r, upd_base (fun _ => snd r) p).

(** The number of strokes of a ramp a sensation is mapped to:
    [map(_sensation, -100, 0, 2, 11)] below 0, else
    [map(_sensation, 0, 100, 11, 32)]; the [float] argument is converted to
    [long]. *)
Definition countStrokesForRamp (sensation : float) : option Z :=
  if flt sensation (of_int 0) then
    x <- to_long sensation ;; Some (map x (-100) 0 2 11)
  else
    x <- to_long sensation ;; Some (map x 0 100 11 32).

(** [(index / 2) % _countStrokesForRamp + 1]: the arithmetic is unsigned, its
    result is stored in an [int]. *)
Definition cycleIndex (index ramp : Z) : Z :=
  wrap_int (wrap_uint ((index / 2) mod wrap_uint ramp + 1)).

Definition nextTarget (index : Z) (p : t) : option (motionParameter * t) :=
  let b := base p in
  if Pattern._speed b =? 0 then _setIdleState p
  else
    let timeOfStroke := Pattern._calTimeOfStroke b in
    ramp <- countStrokesForRamp (Pattern._sensation b) ;;
    (* an integer division or remainder by zero has no defined result *)
    if ramp =? 0 then None
    else
      (* how many steps is each stroke advancing *)
      let slope := wrap_int (Pattern._stroke b ÷ ramp) in
      let cycle := cycleIndex index ramp in
      let amplitude := wrap_int (slope * cycle) in
      (* constrain(int(1.5 * amplitude / _timeOfStroke), 0, _maxSpeed) *)
      i <- to_int (fdiv (fmul (Fin 1.5) (of_int amplitude)) timeOfStroke) ;;
      let v := constrain i 0 (Pattern._maxSpeed b) in
      (* constrain(int(3.0 * _nextMove.speed / _timeOfStroke), 0,
                   _maxAcceleration) *)
      j <- to_int (fdiv (fmul (Fin 3) (of_int v)) timeOfStroke) ;;
      let a := constrain j 0 (Pattern._maxAcceleration b) in
      let s := if odd_stroke index then
                 constrain (wrap_int (Pattern._depth b - Pattern._stroke b))
                           0 (Pattern._depth b)
               else
                 constrain (wrap_int
                              (wrap_int (Pattern._depth b - Pattern._stroke b)
                               + amplitude))
                           0 (Pattern._depth b) in
      let m := {| stroke := s; speed := v; acceleration := a;
                  skip := false |} in
      Some (m, {| base := Pattern.set_index index (Pattern.set_nextMove m b);
                  _timeOfStroke := timeOfStroke;
                  _countStrokesForRamp := ramp |}).

End Deeper.

(* ================================================================== *)
(** ** StopNGo *)

Module StopNGo.

Record t : Type := {
  base : Pattern.t;
  _timeOfStroke : float;
  _numberOfStrokes : Z;
  _strokeSeriesIndex : Z;
  _strokeIndex : Z;
  _countStrokesUp : bool
}.

Definition init (stroke0 depth0 speed0 : Z) : t :=
  {| base := Pattern.init stroke0 depth0 speed0;
     _timeOfStroke := Fin 1; _numberOfStrokes := 5;
     _strokeSeriesIndex := 1; _strokeIndex := 0; _countStrokesUp := true |}.

Definition upd_base (f : Pattern.t -> Pattern.t) (p : t) : t :=
  {| base := f (base p); _timeOfStroke := _timeOfStroke p;
     _numberOfStrokes := _numberOfStrokes p;
     _strokeSeriesIndex := _strokeSeriesIndex p;
     _strokeIndex := _strokeIndex p;
     _countStrokesUp := _countStrokesUp p |}.

Definition _setIdleState (p : t) : option (motionParameter * t) :=
  r <- Pattern._setIdleState (base p) ;;
  Some (fst r, upd_base (fun _ => snd r) p).

(** The delay a sensation is mapped to:
    [map(sensation, -100, 100, 100, 10000)], the [float] argument converted
    to [long]. *)
Definition delayOfSensation (sensation : float) : option Z :=
  x <- to_long sensation ;; Some (map x (-100) 100 100 10000).

(** The override of [setSensation]: it also updates the delay. *)
Definition setSensation (sensation : float) (p : t) : option t :=
  d <- delayOfSensation sensation ;;
  Some (upd_base (fun b => Pattern._updateDelay d
                             (Pattern.setSensation sensation b)) p).

(** The bookkeeping of an odd stroke that closes a series of strokes. *)
Definition endOfSeries (millis : Z) (p : t) : t :=
  (* change count direction once we reached the maximum number of strokes *)
  let up := if _strokeSeriesIndex p >=? _numberOfStrokes p then false
            else _countStrokesUp p in
  (* change count direction once we reached one stroke counting down *)
  let up := if _strokeSeriesIndex p <=? 1 then true else up in
  {| base := Pattern._startDelay millis (base p);
     _timeOfStroke := _timeOfStroke p;
     _numberOfStrokes := _numberOfStrokes p;
     (* increment or decrement strokes counter *)
     _strokeSeriesIndex := if up then wrap_int (_strokeSeriesIndex p + 1)
                           else wrap_int (_strokeSeriesIndex p - 1);
     (* reset stroke index *)
     _strokeIndex := 0;
     _countStrokesUp := up |}.

Definition incr_strokeIndex (p : t) : t :=
  {| base := base p; _timeOfStroke := _timeOfStroke p;
     _numberOfStrokes := _numberOfStrokes p;
     _strokeSeriesIndex := _strokeSeriesIndex p;
     _strokeIndex := wrap_int (_strokeIndex p + 1);
     _countStrokesUp := _countStrokesUp p |}.

Definition nextTarget (index millis : Z) (p : t)
  : option (motionParameter * t) :=
  let b := base p in
  if Pattern._speed b =? 0 then _setIdleState p
  else
    let timeOfStroke := Pattern._calTimeOfStroke b in
    (* adds a delay between each stroke: the target position and the skip
       flag, and the counters of the series *)
    let '(s, sk, p) :=
      if negb (Pattern._isStillDelayed millis b) then
        if odd_stroke index then
          (constrain (wrap_int (Pattern._depth b - Pattern._stroke b))
                     0 (Pattern._depth b),
           false,
           if _strokeIndex p >=? _strokeSeriesIndex p
           then endOfSeries millis p else p)
        else
          (Pattern._depth b, false, incr_strokeIndex p)
      else
        (* the target position of the last move is left as it is *)
        (stroke (Pattern._nextMove b), true, p) in
    (* constrain(int(1.5 * _speed), 0, _maxSpeed) *)
    i <- to_int (fmul (Fin 1.5) (of_int (Pattern._speed b))) ;;
    let v := constrain i 0 (Pattern._maxSpeed b) in
    (* constrain(int(3.0 * _nextMove.speed / _timeOfStroke), 0,
                 _maxAcceleration) *)
    j <- to_int (fdiv (fmul (Fin 3) (of_int v)) timeOfStroke) ;;
    let a := constrain j 0 (Pattern._maxAcceleration b) in
    let m := {| stroke := s; speed := v; acceleration := a; skip := sk |} in
    Some (m, {| base := Pattern.set_index index
                          (Pattern.set_nextMove m (base p));
                _timeOfStroke := timeOfStroke;
                _numberOfStrokes := _numberOfStrokes p;
                _strokeSeriesIndex := _strokeSeriesIndex p;
                _strokeIndex := _strokeIndex p;
                _countStrokesUp := _countStrokesUp p |}).

End StopNGo.

(* ================================================================== *)
(** ** Insist *)

Module Insist.

Record t : Type := {
  base : Pattern.t;
  _timeOfStroke : float;
  _realStroke : Z;
  _strokeFraction : float;
  _strokeInFront : bool
}.

Definition init (stroke0 depth0 speed0 : Z) : t :=
  {| base := Pattern.init stroke0 depth0 speed0;
     _timeOfStroke := Fin 1; _realStroke := 0;
     _strokeFraction := Fin 1; _strokeInFront := false |}.

Definition upd_base (f : Pattern.t -> Pattern.t) (p : t) : t :=
  {| base := f (base p); _timeOfStroke := _timeOfStroke p;
     _realStroke := _realStroke p;
     _strokeFraction := _strokeFraction p;
     _strokeInFront := _strokeInFront p |}.

Definition set_timeOfStroke (v : float) (p : t) : t :=
  {| base := base p; _timeOfStroke := v;
     _realStroke := _realStroke p;
     _strokeFraction := _strokeFraction p;
     _strokeInFront := _strokeInFront p |}.

Definition _updateRealStroke (p : t) : option t :=
  let sensation := Pattern._sensation (base p) in
  (* invert sensation and make into a fraction of the stroke distance:
     (100 - abs(_sensation)) / 100.0f *)
  let strokeFraction :=
    fdiv (fsub (of_int 100) (fabs sensation)) (Fin 100) in
  let strokeInFront := if fgt sensation (of_int 0) then true else false in
  (* fractional stroke length: int((float)_stroke * _strokeFraction) *)
  r <- to_int (fmul (of_int (Pattern._stroke (base p))) strokeFraction) ;;
  Some {| base := base p; _timeOfStroke := _timeOfStroke p;
          _realStroke := r;
          _strokeFraction := strokeFraction;
          _strokeInFront := strokeInFront |}.

(** The override of [_setIdleState]: it follows the real stroke. *)
Definition _setIdleState (p : t) : option (motionParameter * t) :=
  let b := base p in
  v <- to_int (fmul (Fin 0.05) (of_int (Pattern._maxSpeed b))) ;;
  a <- to_int (fmul (Fin 0.5) (of_int (Pattern._maxAcceleration b))) ;;
  p <- _updateRealStroke p ;;
  let s := if _strokeInFront p then
             constrain (wrap_int (Pattern._depth b - _realStroke p))
                       0 (Pattern._depth b)
           else
             constrain (wrap_int (Pattern._depth b - Pattern._stroke b))
                       0 (Pattern._depth b) in
  let m := {| stroke := s; speed := v; acceleration := a; skip := false |} in
  Some (m, upd_base (Pattern.set_nextMove m) p).

Definition nextTarget (index : Z) (p : t) : option (motionParameter * t) :=
  if Pattern._speed (base p) =? 0 then _setIdleState p
  else
    let p := set_timeOfStroke (Pattern._calTimeOfStroke (base p)) p in
    p <- _updateRealStroke p ;;
    let b := base p in
    (* constrain(int(1.5 * _speed), 0, _maxSpeed) *)
    i <- to_int (fmul (Fin 1.5) (of_int (Pattern._speed b))) ;;
    let v := constrain i 0 (Pattern._maxSpeed b) in
    (* constrain(int(3.0 * _nextMove.speed /
                     (_timeOfStroke * _strokeFraction)), 0, _maxAcceleration) *)
    j <- to_int (fdiv (fmul (Fin 3) (of_int v))
                      (fmul (_timeOfStroke p) (_strokeFraction p))) ;;
    let a := constrain j 0 (Pattern._maxAcceleration b) in
    let s :=
      if _strokeInFront p then
        if odd_stroke index then
          constrain (wrap_int (Pattern._depth b - _realStroke p))
                    0 (Pattern._depth b)
        else Pattern._depth b
      else
        if odd_stroke index then
          constrain (wrap_int (Pattern._depth b - Pattern._stroke b))
                    0 (Pattern._depth b)
        else
          constrain (wrap_int (wrap_int (Pattern._depth b - Pattern._stroke b)
                               + _realStroke p))
                    0 (Pattern._depth b) in
    let m := {| stroke := s; speed := v; acceleration := a; skip := false |} in
    Some (m, upd_base (fun b => Pattern.set_index index
                                  (Pattern.set_nextMove m b)) p).

End Insist.

(* ================================================================== *)
(** ** Binary floating point *)

(** The exponent of the binade of a rational that is not 0:
    [2 ^ binade q <= |q| < 2 ^ (binade q + 1)]. *)
Definition binade (q : Q) : Z :=
  let e := Z.log2 (Z.abs (Qnum q)) - Z.log2 (Z.pos (Qden q)) in
  if Qle_bool (2 ^ e) (Qabs q) then e else e - 1.

(** The nearest integer, a tie going to the even one. *)
Definition rne (q : Q) : Z :=
  let f := Qfloor q in
  match (q - inject_Z f ?= 1 # 2)%Q with
  | Lt => f
  | Gt => f + 1
  | Eq => if Z.even f then f else f + 1
  end.

(** The exponent of the unit in the last place of [q] in a format of
    [prec] bits whose smallest positive value is [2 ^ emin]. *)
Definition ulp_exp (prec emin : Z) (q : Q) : Z :=
  Z.max (binade q - prec + 1) emin.

(** The nearest multiple of the unit in the last place of a format of
    [prec] bits whose smallest positive value is [2 ^ emin]. *)
Definition rnd (prec emin : Z) (q : Q) : Q :=
  if Qeq_bool q 0 then 0
  else
    let e := Z.max (binade q - prec + 1) emin in
    Qred (inject_Z (rne (q / 2 ^ e)) * 2 ^ e).

(** Rounding to the binary format of [prec] bits and exponents below
    [emax]; a value that rounds to [2 ^ emax] or beyond overflows. *)
Definition round (prec emax : Z) (x : float) : float :=
  match x with
  | Fin q =>
      let r := rnd prec (3 - emax - prec) q in
      if Qle_bool (2 ^ emax) (Qabs r)
      then if Qle_bool 0 q then PInf else NInf
      else Fin r
  | _ => x
  end.

Definition round32 : float -> float := round 24 128.
Definition round64 : float -> float := round 53 1024.

(** A value of binary32. *)
Definition is_binary32 (x : float) : bool := feqb (round32 x) x.

(** The value a rational rounds to in binary32 and in binary64. *)
Definition r32 : Q -> Q := rnd 24 (-149).
Definition r64 : Q -> Q := rnd 53 (-1074).

(* ================================================================== *)
(** ** The computations in binary32 *)

(** The operations of C++ on [float] operands, and the conversion of an
    integer to [float]. *)
Definition of_int32 (z : Z) : float := round32 (of_int z).
Definition fsub32 (x y : float) : float := round32 (fsub x y).
Definition fmul32 (x y : float) : float := round32 (fmul x y).
Definition fdiv32 (x y : float) : float := round32 (fdiv x y).

(** The operations on [double] operands (an [int] or a [float] operand is
    converted exactly). *)
Definition fmul64 (x y : float) : float := round64 (fmul x y).
Definition fdiv64 (x y : float) : float := round64 (fdiv x y).

Module Binary32.

(** [Pattern::_calRangeOfStroke]: the [int] range is returned as
    [float]. *)
Definition Pattern_calRangeOfStroke (p : Pattern.t) : float :=
  of_int32 (Z.min (abs_int (Pattern._depth p)) (abs_int (Pattern._stroke p))).

(** [Pattern::_calTimeOfStroke]:
    [float(_calRangeOfStroke() / constrain(_speed, 1, _maxSpeed))], a
    division of [float] operands. *)
Definition Pattern_calTimeOfStroke (p : Pattern.t) : float :=
  fdiv32 (Pattern_calRangeOfStroke p) (of_int32 (Pattern.speedDivisor p)).

(** [TeasingPounding::_calTimeOfStroke]:
    [float(2.0 * _calRangeOfStroke() / constrain(_speed, 1, _maxSpeed))],
    computed in [double] and converted to [float]. *)
Definition TeasingPounding_calTimeOfStroke (p : TeasingPounding.t) : float :=
  round32
    (fdiv64 (fmul64 (Fin 2) (Pattern_calRangeOfStroke (TeasingPounding.base p)))
            (of_int (Pattern.speedDivisor (TeasingPounding.base p)))).

(** [TeasingPounding::_updateStrokeTiming]:
    [(0.5 * _timeOfStroke) / fscale(...)] is computed in [double] and stored
    in a [float]; [fscale] returns a [float]; the difference
    [_timeOfStroke - _timeOfFastStroke] is one of [float] operands. *)
Definition TeasingPounding_updateStrokeTiming (p : TeasingPounding.t)
  : TeasingPounding.t :=
  let sensation := Pattern._sensation (TeasingPounding.base p) in
  let timeOfStroke := TeasingPounding._timeOfStroke p in
  let timeOfFastStroke :=
    round32
      (fdiv64 (fmul64 (Fin 0.5) timeOfStroke)
              (round32 (fscale (Fin 0) (Fin 100) (Fin 1) (Fin 5)
                               (fabs sensation)))) in
  if fgt sensation (Fin 0) then
    {| TeasingPounding.base := TeasingPounding.base p;
       TeasingPounding._timeOfStroke := timeOfStroke;
       TeasingPounding._timeOfFastStroke := timeOfFastStroke;
       TeasingPounding._timeOfInStroke := timeOfFastStroke;
       TeasingPounding._timeOfOutStroke :=
         fsub32 timeOfStroke timeOfFastStroke |}
  else
    {| TeasingPounding.base := TeasingPounding.base p;
       TeasingPounding._timeOfStroke := timeOfStroke;
       TeasingPounding._timeOfFastStroke := timeOfFastStroke;
       TeasingPounding._timeOfInStroke :=
         fsub32 timeOfStroke timeOfFastStroke;
       TeasingPounding._timeOfOutStroke := timeOfFastStroke |}.

(** [HalfnHalf::_updateStrokeTiming], the same computation. *)
Definition HalfnHalf_updateStrokeTiming (p : HalfnHalf.t) : HalfnHalf.t :=
  let sensation := Pattern._sensation (HalfnHalf.base p) in
  let timeOfStroke := HalfnHalf._timeOfStroke p in
  let timeOfFastStroke :=
    round32
      (fdiv64 (fmul64 (Fin 0.5) timeOfStroke)
              (round32 (fscale (Fin 0) (Fin 100) (Fin 1) (Fin 5)
                               (fabs sensation)))) in
  if fgt sensation (Fin 0) then
    {| HalfnHalf.base := HalfnHalf.base p;
       HalfnHalf._timeOfStroke := timeOfStroke;
       HalfnHalf._timeOfFastStroke := timeOfFastStroke;
       HalfnHalf._timeOfInStroke := timeOfFastStroke;
       HalfnHalf._timeOfOutStroke := fsub32 timeOfStroke timeOfFastStroke;
       HalfnHalf._half := HalfnHalf._half p |}
  else
    {| HalfnHalf.base := HalfnHalf.base p;
       HalfnHalf._timeOfStroke := timeOfStroke;
       HalfnHalf._timeOfFastStroke := timeOfFastStroke;
       HalfnHalf._timeOfInStroke := fsub32 timeOfStroke timeOfFastStroke;
       HalfnHalf._timeOfOutStroke := timeOfFastStroke;
       HalfnHalf._half := HalfnHalf._half p |}.

(** [Insist::_updateRealStroke]:
    [_strokeFraction = (100 - abs(_sensation)) / 100.0f] and
    [_realStroke = int((float)_stroke * _strokeFraction)], every operation
    one of [float] operands. *)
Definition Insist_updateRealStroke (p : Insist.t) : option Insist.t :=
  let sensation := Pattern._sensation (Insist.base p) in
  let strokeFraction :=
    fdiv32 (fsub32 (of_int32 100) (fabs sensation)) (Fin 100) in
  let strokeInFront := if fgt sensation (of_int 0) then true else false in
  r <- to_int (fmul32 (of_int32 (Pattern._stroke (Insist.base p)))
                      strokeFraction) ;;
  Some {| Insist.base := Insist.base p;
          Insist._timeOfStroke := Insist._timeOfStroke p;
          Insist._realStroke := r;
          Insist._strokeFraction := strokeFraction;
          Insist._strokeInFront := strokeInFront |}.

(** [Insist::_setIdleState]; [0.05] is the [double] next to 0.05. *)
Definition Insist_setIdleState (p : Insist.t)
  : option (motionParameter * Insist.t) :=
  let b := Insist.base p in
  v <- to_int (fmul64 (round64 (Fin 0.05)) (of_int (Pattern._maxSpeed b))) ;;
  a <- to_int (fmul64 (Fin 0.5) (of_int (Pattern._maxAcceleration b))) ;;
  p <- Insist_updateRealStroke p ;;
  let s := if Insist._strokeInFront p then
             constrain (wrap_int (Pattern._depth b - Insist._realStroke p))
                       0 (Pattern._depth b)
           else
             constrain (wrap_int (Pattern._depth b - Pattern._stroke b))
                       0 (Pattern._depth b) in
  let m := {| stroke := s; speed := v; acceleration := a; skip := false |} in
  Some (m, Insist.upd_base (Pattern.set_nextMove m) p).

(** [Insist::nextTarget]: [1.5 * _speed] and the quotient of the
    acceleration are computed in [double], the product
    [_timeOfStroke * _strokeFraction] in [float]. *)
Definition Insist_nextTarget (index : Z) (p : Insist.t)
  : option (motionParameter * Insist.t) :=
  if Pattern._speed (Insist.base p) =? 0 then Insist_setIdleState p
  else
    let p := Insist.set_timeOfStroke
               (Pattern_calTimeOfStroke (Insist.base p)) p in
    p <- Insist_updateRealStroke p ;;
    let b := Insist.base p in
    i <- to_int (fmul64 (Fin 1.5) (of_int (Pattern._speed b))) ;;
    let v := constrain i 0 (Pattern._maxSpeed b) in
    j <- to_int (fdiv64 (fmul64 (Fin 3) (of_int v))
                        (fmul32 (Insist._timeOfStroke p)
                                (Insist._strokeFraction p))) ;;
    let a := constrain j 0 (Pattern._maxAcceleration b) in
    let s :=
      if Insist._strokeInFront p then
        if odd_stroke index then
          constrain (wrap_int (Pattern._depth b - Insist._realStroke p))
                    0 (Pattern._depth b)
        else Pattern._depth b
      else
        if odd_stroke index then
          constrain (wrap_int (Pattern._depth b - Pattern._stroke b))
                    0 (Pattern._depth b)
        else
          constrain (wrap_int (wrap_int (Pattern._depth b - Pattern._stroke b)
                               + Insist._realStroke p))
                    0 (Pattern._depth b) in
    let m := {| stroke := s; speed := v; acceleration := a; skip := false |} in
    Some (m, Insist.upd_base (fun b => Pattern.set_index index
                                         (Pattern.set_nextMove m b)) p).

End Binary32.

(* ================================================================== *)
(** ** The seven patterns behind one interface *)

Inductive pattern : Type :=
| ASimplePenetration (p : SimplePenetration.t)
| ATeasingPounding (p : TeasingPounding.t)
| ARoboStroke (p : RoboStroke.t)
| AHalfnHalf (p : HalfnHalf.t)
| ADeeper (p : Deeper.t)
| AStopNGo (p : StopNGo.t)
| AInsist (p : Insist.t).

(** The members of the base class of a pattern. *)
Definition base_of (p : pattern) : Pattern.t :=
  match p with
  | ASimplePenetration p => SimplePenetration.base p
  | ATeasingPounding p => TeasingPounding.base p
  | ARoboStroke p => RoboStroke.base p
  | AHalfnHalf p => HalfnHalf.base p
  | ADeeper p => Deeper.base p
  | AStopNGo p => StopNGo.base p
  | AInsist p => Insist.base p
  end.

(** A setter of the base class that no pattern overrides. *)
Definition upd_base (f : Pattern.t -> Pattern.t) (p : pattern) : pattern :=
  match p with
  | ASimplePenetration p => ASimplePenetration (SimplePenetration.upd_base f p)
  | ATeasingPounding p => ATeasingPounding (TeasingPounding.upd_base f p)
  | ARoboStroke p => ARoboStroke (RoboStroke.upd_base f p)
  | AHalfnHalf p => AHalfnHalf (HalfnHalf.upd_base f p)
  | ADeeper p => ADeeper (Deeper.upd_base f p)
  | AStopNGo p => AStopNGo (StopNGo.upd_base f p)
  | AInsist p => AInsist (Insist.upd_base f p)
  end.

Definition setSpeed (v : Z) : pattern -> pattern :=
  upd_base (Pattern.setSpeed v).
Definition setStroke (v : Z) : pattern -> pattern :=
  upd_base (Pattern.setStroke v).
Definition setDepth (v : Z) : pattern -> pattern :=
  upd_base (Pattern.setDepth v).
Definition setSpeedLimit (maxSpeed maxAcceleration stepsPerMM : Z)
  : pattern -> pattern :=
  upd_base (Pattern.setSpeedLimit maxSpeed maxAcceleration stepsPerMM).

(** [setSensation] is virtual: StopNGo overrides it. *)
Definition setSensation (v : float) (p : pattern) : option pattern :=
  match p with
  | AStopNGo p => q <- StopNGo.setSensation v p ;; Some (AStopNGo q)
  | _ => Some (upd_base (Pattern.setSensation v) p)
  end.

Definition tag {A B C : Type} (f : B -> C) (r : option (A * B))
  : option (A * C) :=
  x <- r ;; Some (fst x, f (snd x)).

(** [nextTarget(index)], with the value [millis()] has during the call. *)
Definition nextTarget (index millis : Z) (p : pattern)
  : option (motionParameter * pattern) :=
  match p with
  | ASimplePenetration p =>
      tag ASimplePenetration (SimplePenetration.nextTarget index p)
  | ATeasingPounding p =>
      tag ATeasingPounding (TeasingPounding.nextTarget index p)
  | ARoboStroke p => tag ARoboStroke (RoboStroke.nextTarget index p)
  | AHalfnHalf p => tag AHalfnHalf (HalfnHalf.nextTarget index p)
  | ADeeper p => tag ADeeper (Deeper.nextTarget index p)
  | AStopNGo p => tag AStopNGo (StopNGo.nextTarget index millis p)
  | AInsist p => tag AInsist (Insist.nextTarget index p)
  end.

(** The types of the data members: [int] and [unsigned int] ranges. *)
Record well_typed (b : Pattern.t) : Prop := {
  wt_stroke : in_int (Pattern._stroke b);
  wt_depth : in_int (Pattern._depth b);
  wt_speed : in_int (Pattern._speed b);
  wt_maxSpeed : in_uint (Pattern._maxSpeed b);
  wt_maxAcceleration : in_uint (Pattern._maxAcceleration b)
}.

(* ================================================================== *)
(** ** Notions of the specification *)

(** The limits of the machine are set and the depth is not negative. *)
Record configured (b : Pattern.t) : Prop := {
  cfg_depth : 0 <= Pattern._depth b;
  cfg_maxSpeed : 0 <= Pattern._maxSpeed b;
  cfg_maxAcceleration : 0 <= Pattern._maxAcceleration b
}.

(** Speed and acceleration of a command within the limits of the machine. *)
Definition in_limits (b : Pattern.t) (m : motionParameter) : Prop :=
  0 <= speed m <= Pattern._maxSpeed b /\
  0 <= acceleration m <= Pattern._maxAcceleration b.

(** The target position of a command within [[0, _depth]]. *)
Definition in_depth (b : Pattern.t) (m : motionParameter) : Prop :=
  0 <= stroke m <= Pattern._depth b.

(** The idle-fallback command in the words of the specification: velocity 5%
    of the maximum, acceleration 50% of the maximum (in whole units), target
    [clamp(depth - stroke, 0, depth)], no skip. *)
Definition spec_idle_command (b : Pattern.t) : motionParameter :=
  {| stroke := constrain (Pattern._depth b - Pattern._stroke b) 0
                         (Pattern._depth b);
     speed := 5 * Pattern._maxSpeed b / 100;
     acceleration := 50 * Pattern._maxAcceleration b / 100;
     skip := false |}.

Definition with_stroke (s : Z) (m : motionParameter) : motionParameter :=
  {| stroke := s; speed := speed m; acceleration := acceleration m;
     skip := skip m |}.

(** The effective stroke of Insist in the words of the specification,
    [strokeLengthSteps * (100 - |sensation|) / 100], in whole steps. *)
Definition spec_effectiveStroke (strokeLengthSteps : Z) (sensation : Q) : Z :=
  Qtrunc (inject_Z strokeLengthSteps * (100 - Qabs sensation) / 100).

(** An Insist pattern after [setSensation(s)]. *)
Definition withSensation (s : Q) (p : Insist.t) : Insist.t :=
  Insist.upd_base (Pattern.setSensation (Fin s)) p.

(** The delay a StopNGo pattern holds after [setSensation(s)]. *)
Definition delayAfter (s : float) (p : StopNGo.t) : option Z :=
  q <- StopNGo.setSensation s p ;;
  Some (Pattern._delayInMillis (StopNGo.base q)).

(** The time HalfnHalf gives the half stroke of an index, after the update
    of its timing. *)
Definition halfStrokeTime (index : Z) (p : HalfnHalf.t) : float :=
  let q := HalfnHalf._updateStrokeTiming
             (HalfnHalf.set_timeOfStroke (HalfnHalf._calTimeOfStroke p) p) in
  if odd_stroke index then HalfnHalf._timeOfOutStroke q
  else HalfnHalf._timeOfInStroke q.

(** Two results of HalfnHalf that differ at most in the target position of
    an even stroke other than the first one. *)
Definition same_motion (r1 r2 : option (motionParameter * HalfnHalf.t))
  (index : Z) : Prop :=
  match r1, r2 with
  | Some (m1, _), Some (m2, _) =>
      speed m1 = speed m2 /\ acceleration m1 = acceleration m2 /\
      skip m1 = skip m2 /\
      (odd_stroke index = true \/ index = 0 -> stroke m1 = stroke m2)
  | None, None => True
  | _, _ => False
  end.

(** The clamp of a rational into [[lo, hi]]. *)
Definition Qclamp (v lo hi : Q) : Q :=
  match (v ?= lo)%Q with
  | Lt => lo
  | _ => match (hi ?= v)%Q with Lt => hi | _ => v end
  end.

(** *** Scenarios *)

(** A pattern created by [new], then given the limits of the machine and
    its tunables through the setters. *)
Definition started (p : pattern) (maxSpeed maxAcceleration : Z)
  (depth0 stroke0 speed0 : Z) : pattern :=
  setSpeed speed0
    (setStroke stroke0
       (setDepth depth0 (setSpeedLimit maxSpeed maxAcceleration 80 p))).

(** StopNGo with depth 1000 and stroke 200: the first series of strokes (one
    stroke in, one stroke out) has been played, the pause after it has begun
    at 6100 ms, and the depth is then lowered to 500. *)
Definition paused_StopNGo : option pattern :=
  let p := started (AStopNGo (StopNGo.init 0 0 0)) 1000 10000 1000 200 100 in
  p <- setSensation (Fin 0) p ;;
  r1 <- nextTarget 0 6000 p ;;
  r2 <- nextTarget 1 6100 (snd r1) ;;
  Some (setDepth 500 (snd r2)).

(** SimplePenetration at rest: depth 1000, stroke 400, speed 0. *)
Definition resting_SimplePenetration : pattern :=
  started (ASimplePenetration (SimplePenetration.init 0 0 0))
          1000 10000 1000 400 0.

(** RoboStroke and SimplePenetration with depth 100, stroke 100 and speed
    100, a stroke time of one second, and limits that do not clamp. *)
Definition unit_RoboStroke : pattern :=
  started (ARoboStroke (RoboStroke.init 0 0 0)) 1000 10000 100 100 100.

Definition unit_SimplePenetration : pattern :=
  started (ASimplePenetration (SimplePenetration.init 0 0 0))
          1000 10000 100 100 100.

(** A base object with its member initialisers (the limits are 0) and a
    speed of 5. *)
Definition unconfigured : Pattern.t :=
  Pattern.setSpeed 5 (Pattern.init 100 100 0).

(* ================================================================== *)
(** ** Notions of the further properties *)

(** The members the setters write: the tunables and the limits of the
    machine. *)
Definition settings_of (b : Pattern.t)
  : Z * Z * Z * float * (Z * Z * Z) :=
  (Pattern._stroke b, Pattern._depth b, Pattern._speed b,
   Pattern._sensation b,
   (Pattern._maxSpeed b, Pattern._maxAcceleration b, Pattern._stepsPerMM b)).

(** Two objects of the same class. *)
Definition same_class (p q : pattern) : Prop :=
  match p, q with
  | ASimplePenetration _, ASimplePenetration _
  | ATeasingPounding _, ATeasingPounding _
  | ARoboStroke _, ARoboStroke _
  | AHalfnHalf _, AHalfnHalf _
  | ADeeper _, ADeeper _
  | AStopNGo _, AStopNGo _
  | AInsist _, AInsist _ => True
  | _, _ => False
  end.

(** The patterns that keep no state of their own between two calls of
    [nextTarget]: their data members are assigned before they are read. *)
Definition recomputes (p : pattern) : bool :=
  match p with
  | ASimplePenetration _ | ATeasingPounding _ | ADeeper _ | AInsist _ => true
  | ARoboStroke _ | AHalfnHalf _ | AStopNGo _ => false
  end.

(** The patterns whose speed or acceleration is a quotient by the time of
    stroke that is converted to [int] with no [constrain] before the
    conversion. *)
Definition divides_by_time (p : pattern) : bool :=
  match p with
  | ASimplePenetration _ | ARoboStroke _ => false
  | _ => true
  end.

(** The patterns whose targets are computed with integers alone: all but
    Insist, whose effective stroke is a product of [float] values. *)
Definition integer_targets (p : pattern) : bool :=
  match p with
  | AInsist _ => false
  | _ => true
  end.

(** Speed and acceleration of the command of a call, if it returns one. *)
Definition motion_of {A : Type} (r : option (motionParameter * A))
  : option (Z * Z) :=
  option_map (fun x => (speed (fst x), acceleration (fst x))) r.

(** A floating value that is zero or NaN: a quotient by it is an infinity
    or NaN. *)
Definition zero_or_nan (x : float) : Prop :=
  match x with
  | Fin q => (q == 0)%Q
  | NaN => True
  | _ => False
  end.

(** A configuration in which the patterns are operated: a stroke of at
    least one step within a depth of at most [2 ^ 24] steps (the integers
    that a [float] holds), a speed of at least 1 within the limit of speed,
    and limits that keep every quotient of [nextTarget] within half of the
    range of an [int]. *)
Record operational (b : Pattern.t) : Prop := {
  op_typed : well_typed b;
  op_stroke : 1 <= Pattern._stroke b <= Pattern._depth b;
  op_depth : Pattern._depth b <= 2 ^ 24;
  op_speed : 1 <= Pattern._speed b <= Pattern._maxSpeed b;
  op_maxSpeed : 40 * Pattern._maxSpeed b <= INT_MAX;
  op_quotient :
    600 * (Pattern._maxSpeed b * Pattern._maxSpeed b)
    <= INT_MAX * Pattern._stroke b;
  op_maxAcceleration : Pattern._maxAcceleration b <= INT_MAX
}.

(** The faster stroke of TeasingPounding is the stroke in (an even index)
    for a positive sensation, the stroke out (an odd index) otherwise. *)
Definition fast_stroke (s : Q) (index : Z) : bool :=
  if Qlt_le_dec 0 s then negb (odd_stroke index) else odd_stroke index.

(** The time of the stroke of an index, for the time of stroke [t] and the
    scale [c] of the sensation: [0.5 * t / c] for the faster stroke, the
    rest of [t] for the slower one. *)
Definition stroke_time (t c s : Q) (index : Z) : Q :=
  if fast_stroke s index then 0.5 * t / c else t + - (0.5 * t / c).

(** *** The series of strokes of StopNGo *)

(** The counters of the series of strokes, and the start of the pause. *)
Definition counters (p : StopNGo.t) : Z * Z * Z * bool * Z :=
  (StopNGo._numberOfStrokes p, StopNGo._strokeSeriesIndex p,
   StopNGo._strokeIndex p, StopNGo._countStrokesUp p,
   Pattern._startDelayMillis (StopNGo.base p)).

(** The length of the series of strokes stays between 1 and the number of
    strokes, which is 5. *)
Definition series_in_range (p : StopNGo.t) : Prop :=
  StopNGo._numberOfStrokes p = 5 /\
  1 <= StopNGo._strokeSeriesIndex p <= 5.

(** A StopNGo pattern that a call at the time [now] does not find in its
    pause of [d] milliseconds. *)
Definition awake (d now : Z) (p : StopNGo.t) : Prop :=
  Pattern._speed (StopNGo.base p) <> 0 /\
  Pattern._delayInMillis (StopNGo.base p) = d /\
  0 <= Pattern._startDelayMillis (StopNGo.base p) /\
  Pattern._startDelayMillis (StopNGo.base p) + d < now.

(** The calls with the indexes below [n] are made at times that fit an
    [int] and lie more than the pause [d] apart. *)
Definition spaced (d : Z) (millis : Z -> Z) (n : Z) : Prop :=
  forall i, 0 <= i < n ->
    0 <= millis i /\ millis i + d <= INT_MAX /\ millis i + d < millis (i + 1).

Definition no_skip (ms : list motionParameter) : Prop :=
  Forall (fun m => skip m = false) ms.

(** The length of the series of strokes number [k] (the series are counted
    from 0): 1, 2, 3, 4, 5, 4, 3, 2, 1, 2, ... *)
Definition seriesLength (k : nat) : Z := 5 - Z.abs (4 - Z.of_nat k mod 8).

(** The number of calls of [nextTarget] that play the series before the
    series number [k]: a stroke in and a stroke out for each stroke. *)
Fixpoint callsBefore (k : nat) : nat :=
  match k with
  | O => O
  | S k => (callsBefore k + 2 * Z.to_nat (seriesLength k))%nat
  end.

(** The counters at the start of the series number [k]. *)
Definition at_series (k : nat) (q : StopNGo.t) : Prop :=
  StopNGo._numberOfStrokes q = 5 /\
  StopNGo._strokeSeriesIndex q = seriesLength k /\
  StopNGo._strokeIndex q = 0 /\
  (1 <= Z.of_nat k mod 8 <= 3 -> StopNGo._countStrokesUp q = true) /\
  (5 <= Z.of_nat k mod 8 <= 7 -> StopNGo._countStrokesUp q = false).

(** *** Sequences of calls *)

(** The calls of the public interface of a pattern. *)
Inductive call : Type :=
| SetSpeed (v : Z)
| SetStroke (v : Z)
| SetDepth (v : Z)
| SetSensation (v : float)
| SetSpeedLimit (maxSpeed maxAcceleration stepsPerMM : Z)
| NextTarget (index millis : Z).

Definition perform (c : call) (p : pattern) : option pattern :=
  match c with
  | SetSpeed v => Some (setSpeed v p)
  | SetStroke v => Some (setStroke v p)
  | SetDepth v => Some (setDepth v p)
  | SetSensation v => setSensation v p
  | SetSpeedLimit maxSpeed maxAcceleration stepsPerMM =>
      Some (setSpeedLimit maxSpeed maxAcceleration stepsPerMM p)
  | NextTarget index millis => option_map snd (nextTarget index millis p)
  end.

Fixpoint performAll (cs : list call) (p : pattern) : option pattern :=
  match cs with
  | nil => Some p
  | c :: cs => q <- perform c p ;; performAll cs q
  end.

(** [n] calls of [nextTarget] with the indexes [index], [index + 1], ...
    ("index of a stroke, increments with every new stroke"), the call of
    the index [i] made at the time [millis i]: the commands in the order of
    the calls, and the pattern after the last one. *)
Fixpoint play (n : nat) (index : Z) (millis : Z -> Z) (p : pattern)
  : option (list motionParameter * pattern) :=
  match n with
  | O => Some (nil, p)
  | S n =>
      r <- nextTarget index (millis index) p ;;
      rs <- play n (index + 1) millis (snd r) ;;
      Some (fst r :: fst rs, snd rs)
  end.

(* ================================================================== *)
(** * Properties *)

(** [lia] is given the equations of the integer divisions. *)
Ltac Zify.zify_post_hook ::= Z.to_euclidean_division_equations.

(** ** Machine integers *)

Lemma wrap_int_id (z : Z) : in_int z -> wrap_int z = z.
Proof.
  unfold in_int, INT_MIN, INT_MAX, wrap_int. intros H.
  rewrite Z.mod_small by lia. lia.
Qed.

Lemma wrap_uint_id (z : Z) : in_uint z -> wrap_uint z = z.
Proof.
  unfold in_uint, UINT_MAX, wrap_uint. intros H.
  apply Z.mod_small. lia.
Qed.

Lemma in_int_small (z : Z) : - 2 ^ 30 <= z <= 2 ^ 30 -> in_int z.
Proof. unfold in_int, INT_MIN, INT_MAX. lia. Qed.

Lemma constrain_bounds (amt low high : Z) :
  low <= high -> low <= constrain amt low high <= high.
Proof.
  intros H. unfold constrain.
  destruct (Z.ltb_spec amt low); [lia|].
  destruct (Z.gtb_spec amt high); lia.
Qed.

(** [map] on an input range and an output range of small non-negative
    extent, the input within its range: no intermediate result wraps. *)
Lemma map_in_range (x in_min in_max out_min out_max : Z) :
  in_min <= x <= in_max -> in_min < in_max -> out_min <= out_max ->
  in_max - in_min <= 2 ^ 10 ->
  out_max - out_min <= 2 ^ 14 ->
  - 2 ^ 20 <= out_min <= 2 ^ 20 ->
  map x in_min in_max out_min out_max =
  (x - in_min) * (out_max - out_min) / (in_max - in_min) + out_min.
Proof.
  intros Hx Hin Hout Hrun Hrise Hmin. unfold map.
  assert (Hd : 0 <= (x - in_min) * (out_max - out_min) <= 2 ^ 24) by nia.
  assert (Hq : 0 <= (x - in_min) * (out_max - out_min) / (in_max - in_min)
               <= 2 ^ 24).
  { split; [apply Z.div_pos; lia|].
    apply Z.div_le_upper_bound; nia. }
  rewrite (wrap_int_id (z:=in_max - in_min)) by (apply in_int_small; lia).
  rewrite (wrap_int_id (z:=out_max - out_min)) by (apply in_int_small; lia).
  rewrite (wrap_int_id (z:=x - in_min)) by (apply in_int_small; lia).
  destruct (Z.eqb_spec (in_max - in_min) 0) as [H0|_]; [lia|].
  rewrite (wrap_int_id (z:=(x - in_min) * (out_max - out_min)))
    by (apply in_int_small; lia).
  rewrite Z.quot_div_nonneg by lia.
  rewrite (wrap_int_id (z:=_ / _)) by (apply in_int_small; lia).
  apply wrap_int_id. apply in_int_small; lia.
Qed.

(** On such ranges [map] does not decrease and stays in the output range. *)
Lemma map_mono (x y in_min in_max out_min out_max : Z) :
  in_min <= x -> x <= y -> y <= in_max -> in_min < in_max ->
  out_min <= out_max ->
  in_max - in_min <= 2 ^ 10 ->
  out_max - out_min <= 2 ^ 14 ->
  - 2 ^ 20 <= out_min <= 2 ^ 20 ->
  out_min <= map x in_min in_max out_min out_max /\
  map x in_min in_max out_min out_max
    <= map y in_min in_max out_min out_max /\
  map y in_min in_max out_min out_max <= out_max.
Proof.
  intros. rewrite !map_in_range by lia.
  repeat split.
  - assert (0 <= (x - in_min) * (out_max - out_min) / (in_max - in_min));
      [apply Z.div_pos; nia | lia].
  - apply Z.add_le_mono_r. apply Z.div_le_mono; nia.
  - assert ((y - in_min) * (out_max - out_min) / (in_max - in_min)
            <= out_max - out_min);
      [apply Z.div_le_upper_bound; nia | lia].
Qed.

(** ** Truncation and conversion *)

Lemma inject_Z_nonneg (m : Z) : 0 <= m -> (0 <= inject_Z m)%Q.
Proof. intros H. change 0%Q with (inject_Z 0). now rewrite <- Zle_Qle. Qed.

Lemma Qtrunc_inject_Z (z : Z) : Qtrunc (inject_Z z) = z.
Proof. unfold Qtrunc. simpl. apply Z.quot_1_r. Qed.

Lemma Qtrunc_floor (q : Q) : (0 <= q)%Q -> Qtrunc q = Qfloor q.
Proof.
  destruct q as [n d]. unfold Qle, Qtrunc. simpl. rewrite Z.mul_1_r.
  intros H. apply Z.quot_div_nonneg; lia.
Qed.

Lemma Qtrunc_ceiling (q : Q) : (q <= 0)%Q -> Qtrunc q = Qceiling q.
Proof.
  destruct q as [n d]. unfold Qle, Qtrunc, Qceiling. simpl.
  rewrite Z.mul_1_r. intros H.
  rewrite <- (Z.quot_div_nonneg (- n)) by lia.
  rewrite Z.quot_opp_l by lia. lia.
Qed.

Lemma Qtrunc_nonneg (q : Q) : (0 <= q)%Q -> 0 <= Qtrunc q.
Proof.
  intros H. rewrite Qtrunc_floor by trivial.
  change 0 with (Qfloor 0). now apply Qfloor_resp_le.
Qed.

Lemma Qtrunc_nonpos (q : Q) : (q <= 0)%Q -> Qtrunc q <= 0.
Proof.
  intros H. rewrite Qtrunc_ceiling by trivial.
  change 0 with (Qceiling 0). now apply Qceiling_resp_le.
Qed.

Lemma Qtrunc_mono (p q : Q) : (p <= q)%Q -> Qtrunc p <= Qtrunc q.
Proof.
  intros H.
  destruct (Qlt_le_dec p 0) as [Hp|Hp], (Qlt_le_dec q 0) as [Hq|Hq].
  - rewrite !Qtrunc_ceiling by lra. now apply Qceiling_resp_le.
  - pose proof (@Qtrunc_nonpos p ltac:(lra)).
    pose proof (@Qtrunc_nonneg q Hq). lia.
  - lra.
  - rewrite !Qtrunc_floor by lra. now apply Qfloor_resp_le.
Qed.

Lemma Qtrunc_comp (p q : Q) : (p == q)%Q -> Qtrunc p = Qtrunc q.
Proof.
  intros H. apply Z.le_antisymm; apply Qtrunc_mono; rewrite H; apply Qle_refl.
Qed.

Lemma Qabs_le_100 (s : Q) : (Qabs s <= 100)%Q <-> (-100 <= s <= 100)%Q.
Proof. exact (Qabs_Qle_condition s 100). Qed.

Lemma to_int_Some (x : float) (z : Z) :
  to_int x = Some z -> exists q, x = Fin q /\ z = Qtrunc q /\ in_int z.
Proof.
  destruct x as [q| | |]; simpl; try discriminate.
  destruct (Z.leb_spec INT_MIN (Qtrunc q)); simpl; try discriminate.
  destruct (Z.leb_spec (Qtrunc q) INT_MAX); simpl; try discriminate.
  intros [= <-]. exists q. unfold in_int. auto.
Qed.

Lemma to_int_Fin (q : Q) :
  in_int (Qtrunc q) -> to_int (Fin q) = Some (Qtrunc q).
Proof.
  unfold in_int. intros [H1 H2]. simpl.
  apply Z.leb_le in H1, H2. now rewrite H1, H2.
Qed.

Lemma to_long_Fin (s : Q) :
  (-100 <= s <= 100)%Q ->
  to_long (Fin s) = Some (Qtrunc s) /\ -100 <= Qtrunc s <= 100.
Proof.
  intros [H1 H2].
  assert (H : -100 <= Qtrunc s <= 100).
  { apply Qtrunc_mono in H1, H2.
    change (-100)%Q with (inject_Z (-100)) in H1.
    change 100%Q with (inject_Z 100) in H2.
    rewrite Qtrunc_inject_Z in *. lia. }
  split; trivial. apply to_int_Fin. apply in_int_small. lia.
Qed.

(** ** Comparisons and operations on finite values *)

Lemma flt_Fin_false (a b : Q) : flt (Fin a) (Fin b) = false -> (b <= a)%Q.
Proof.
  simpl. destruct (Qcompare_spec a b) as [H|H|H]; try discriminate; intros _.
  - rewrite H. apply Qle_refl.
  - now apply Qlt_le_weak.
Qed.

Lemma flt_Fin_0 (s : Q) : flt (Fin s) (of_int 0) = true <-> (s < 0)%Q.
Proof.
  simpl. change (inject_Z 0) with 0%Q.
  destruct (Qcompare_spec s 0) as [H|H|H]; split; trivial;
    try discriminate; lra.
Qed.

Lemma fgt_Fin_0 (s : Q) : fgt (Fin s) (Fin 0) = true <-> (0 < s)%Q.
Proof.
  unfold fgt. simpl.
  destruct (Qcompare_spec 0 s) as [H|H|H]; split; trivial;
    try discriminate; lra.
Qed.

Lemma fabs_Fin (s : Q) : exists a, fabs (Fin s) = Fin a /\ (a == Qabs s)%Q.
Proof.
  unfold fabs, fgt. simpl.
  destruct (Qcompare_spec 0 s) as [H|H|H]; eexists; (split; [reflexivity|]).
  - rewrite <- H. reflexivity.
  - rewrite Qabs_pos; lra.
  - rewrite Qabs_neg; lra.
Qed.

Lemma fdiv_Fin (a b : Q) : ~ (b == 0)%Q -> fdiv (Fin a) (Fin b) = Fin (a / b).
Proof.
  intros H. simpl. destruct (Qcompare_spec b 0); trivial. contradiction.
Qed.

Lemma Qclamp_bounds (v lo hi : Q) :
  (lo <= hi)%Q -> (lo <= Qclamp v lo hi <= hi)%Q.
Proof.
  intros H. unfold Qclamp.
  destruct (Qcompare_spec v lo), (Qcompare_spec hi v); lra.
Qed.

Lemma Qclamp_id (v lo hi : Q) :
  (lo <= v <= hi)%Q -> (Qclamp v lo hi == v)%Q.
Proof.
  intros H. unfold Qclamp.
  destruct (Qcompare_spec v lo), (Qcompare_spec hi v); lra.
Qed.

Lemma fconstrain_Fin (v lo hi : Q) :
  fconstrain (Fin v) (Fin lo) (Fin hi) = Fin (Qclamp v lo hi).
Proof.
  unfold fconstrain, fgt, Qclamp. simpl.
  destruct (v ?= lo)%Q; trivial; destruct (hi ?= v)%Q; trivial.
Qed.

(** [fscale] on finite arguments, the input range not empty. *)
Lemma fscale_Fin (lo hi a b v : Q) :
  (lo < hi)%Q ->
  fscale (Fin lo) (Fin hi) (Fin a) (Fin b) (Fin v) =
  Fin (a + (Qclamp v lo hi - lo) / (hi - lo) * (b - a)).
Proof.
  intros H. unfold fscale. rewrite fconstrain_Fin.
  cbn [fsub fadd fopp].
  rewrite fdiv_Fin by (change (hi + - lo)%Q with (hi - lo)%Q; lra).
  reflexivity.
Qed.

(** A floating value clamped into [[0, m]] and converted is in [[0, m]]. *)
Lemma to_int_fconstrain (e : float) (m z : Z) :
  0 <= m ->
  to_int (fconstrain e (of_int 0) (of_int m)) = Some z ->
  0 <= z <= m.
Proof.
  intros Hm. unfold fconstrain, fgt.
  destruct (flt e (of_int 0)) eqn:E0.
  - intros H. apply to_int_Some in H as (q & [= <-] & -> & _).
    rewrite Qtrunc_inject_Z. lia.
  - destruct (flt (of_int m) e) eqn:E1.
    + intros H. apply to_int_Some in H as (q & [= <-] & -> & _).
      rewrite Qtrunc_inject_Z. lia.
    + intros H. apply to_int_Some in H as (q & -> & -> & _).
      apply flt_Fin_false in E0, E1. split.
      * now apply Qtrunc_nonneg.
      * rewrite <- (Qtrunc_inject_Z m). now apply Qtrunc_mono.
Qed.

(** A fraction [c] of [[0, 1]] of a limit, converted, is within the limit. *)
Lemma to_int_fraction (c : Q) (m z : Z) :
  (0 <= c <= 1)%Q -> 0 <= m ->
  to_int (fmul (Fin c) (of_int m)) = Some z -> 0 <= z <= m.
Proof.
  intros Hc Hm H. apply to_int_Some in H as (q & [= <-] & -> & _).
  pose proof (inject_Z_nonneg Hm) as Hq. split.
  - apply Qtrunc_nonneg. nra.
  - rewrite <- (Qtrunc_inject_Z m) at 2. apply Qtrunc_mono. nra.
Qed.

(** The two conversions of the idle state. *)
Lemma idle_speed (m : Z) :
  in_uint m -> to_int (fmul (Fin 0.05) (of_int m)) = Some (5 * m / 100).
Proof.
  unfold in_uint, UINT_MAX. intros H.
  assert (E : Qtrunc (0.05 * inject_Z m) = 5 * m / 100).
  { unfold Qtrunc. cbn [Qnum Qden Qmult inject_Z].
    change (Z.pos (100 * 1)) with 100. lia. }
  cbn [fmul of_int]. rewrite to_int_Fin; rewrite E; trivial.
  unfold in_int, INT_MIN, INT_MAX. lia.
Qed.

Lemma idle_acceleration (m : Z) :
  in_uint m -> to_int (fmul (Fin 0.5) (of_int m)) = Some (50 * m / 100).
Proof.
  unfold in_uint, UINT_MAX. intros H.
  assert (E : Qtrunc (0.5 * inject_Z m) = 50 * m / 100).
  { unfold Qtrunc. cbn [Qnum Qden Qmult inject_Z].
    change (Z.pos (10 * 1)) with 10. lia. }
  cbn [fmul of_int]. rewrite to_int_Fin; rewrite E; trivial.
  unfold in_int, INT_MIN, INT_MAX. lia.
Qed.

(** ** The option monad *)

Lemma bind_Some {A B : Type} (c : option A) (k : A -> option B) (r : B) :
  bind c k = Some r -> exists a, c = Some a /\ k a = Some r.
Proof. destruct c; simpl; [eauto | discriminate]. Qed.

Ltac inv_bind H :=
  let a := fresh "a" in
  let E := fresh "E" in
  apply bind_Some in H as (a & E & H).

(* ================================================================== *)
(** ** Commands within the limits of the machine *)

Lemma depth_clamp (b : Pattern.t) (x : Z) :
  configured b -> 0 <= constrain x 0 (Pattern._depth b) <= Pattern._depth b.
Proof. intros [H _ _]. now apply constrain_bounds. Qed.

Lemma speed_clamp (b : Pattern.t) (x : Z) :
  configured b ->
  0 <= constrain x 0 (Pattern._maxSpeed b) <= Pattern._maxSpeed b.
Proof. intros [_ H _]. now apply constrain_bounds. Qed.

Lemma acc_clamp (b : Pattern.t) (x : Z) :
  configured b ->
  0 <= constrain x 0 (Pattern._maxAcceleration b)
    <= Pattern._maxAcceleration b.
Proof. intros [_ _ H]. now apply constrain_bounds. Qed.

Lemma speed_fclamp (b : Pattern.t) (e : float) (z : Z) :
  configured b ->
  to_int (fconstrain e (of_int 0) (of_int (Pattern._maxSpeed b))) = Some z ->
  0 <= z <= Pattern._maxSpeed b.
Proof. intros [_ H _]. now apply to_int_fconstrain. Qed.

Lemma acc_fclamp (b : Pattern.t) (e : float) (z : Z) :
  configured b ->
  to_int (fconstrain e (of_int 0) (of_int (Pattern._maxAcceleration b)))
    = Some z ->
  0 <= z <= Pattern._maxAcceleration b.
Proof. intros [_ _ H]. now apply to_int_fconstrain. Qed.

Lemma idle_limits (b : Pattern.t) (v a : Z) :
  configured b ->
  to_int (fmul (Fin 0.05) (of_int (Pattern._maxSpeed b))) = Some v ->
  to_int (fmul (Fin 0.5) (of_int (Pattern._maxAcceleration b))) = Some a ->
  0 <= v <= Pattern._maxSpeed b /\ 0 <= a <= Pattern._maxAcceleration b.
Proof.
  intros [Hd Hs Ha] Hv Hacc. split.
  - eapply to_int_fraction; eauto. split; discriminate.
  - eapply to_int_fraction; eauto. split; discriminate.
Qed.

(** One bound of a command, by the clamp that produced it. *)
Ltac bound Hc :=
  first [ reflexivity
        | discriminate
        | assumption
        | apply depth_clamp; exact Hc
        | apply speed_clamp; exact Hc
        | apply acc_clamp; exact Hc
        | eapply speed_fclamp; [exact Hc | eassumption]
        | eapply acc_fclamp; [exact Hc | eassumption]
        | destruct Hc; lia ].

Ltac bounds Hc :=
  unfold in_limits, in_depth; cbn [stroke speed acceleration skip];
  refine (conj (conj _ _) (conj _ _)); bound Hc.

Lemma Pattern_idle_bounds (b : Pattern.t) (m : motionParameter)
  (b' : Pattern.t) :
  configured b ->
  Pattern._setIdleState b = Some (m, b') ->
  in_limits b m /\ in_depth b m /\ skip m = false.
Proof.
  intros Hc H. unfold Pattern._setIdleState in H.
  inv_bind H. inv_bind H. injection H as <- <-.
  pose proof (idle_limits Hc E E0) as [? ?]. bounds Hc.
Qed.

(** The idle state of a pattern that inherits [_setIdleState]. *)
Ltac idle_case H Hc :=
  let E := fresh "E" in
  apply bind_Some in H as ([? ?] & E & H); injection H as <- <-;
  cbn [fst]; exact (Pattern_idle_bounds Hc E).

Lemma SimplePenetration_bounds index p m p' :
  configured (SimplePenetration.base p) ->
  SimplePenetration.nextTarget index p = Some (m, p') ->
  in_limits (SimplePenetration.base p) m /\
  in_depth (SimplePenetration.base p) m /\ skip m = false.
Proof.
  intros Hc H. unfold SimplePenetration.nextTarget in H. cbv zeta in H.
  destruct (Pattern._speed (SimplePenetration.base p) =? 0).
  - unfold SimplePenetration._setIdleState in H. cbv zeta in H.
    inv_bind H. inv_bind H. injection H as <- <-.
    pose proof (idle_limits Hc E E0) as [? ?]. bounds Hc.
  - inv_bind H. inv_bind H. injection H as <- <-.
    destruct (odd_stroke index); bounds Hc.
Qed.

Lemma TeasingPounding_base_timing p :
  TeasingPounding.base (TeasingPounding._updateStrokeTiming p)
  = TeasingPounding.base p.
Proof. unfold TeasingPounding._updateStrokeTiming. now destruct (fgt _ _). Qed.

Lemma TeasingPounding_bounds index p m p' :
  configured (TeasingPounding.base p) ->
  TeasingPounding.nextTarget index p = Some (m, p') ->
  in_limits (TeasingPounding.base p) m /\
  in_depth (TeasingPounding.base p) m /\ skip m = false.
Proof.
  intros Hc H. unfold TeasingPounding.nextTarget in H.
  destruct (Pattern._speed (TeasingPounding.base p) =? 0).
  - unfold TeasingPounding._setIdleState in H. idle_case H Hc.
  - cbv zeta in H. rewrite !TeasingPounding_base_timing in H.
    cbn [TeasingPounding.set_timeOfStroke TeasingPounding.base] in H.
    inv_bind H. injection H as <- <-.
    destruct (odd_stroke index); inv_bind E; inv_bind E; injection E as <-;
      bounds Hc.
Qed.

Lemma RoboStroke_bounds index p m p' :
  configured (RoboStroke.base p) ->
  RoboStroke.nextTarget index p = Some (m, p') ->
  in_limits (RoboStroke.base p) m /\
  in_depth (RoboStroke.base p) m /\ skip m = false.
Proof.
  intros Hc H. unfold RoboStroke.nextTarget in H. cbv zeta in H.
  destruct (Pattern._speed (RoboStroke.base p) =? 0).
  - unfold RoboStroke._setIdleState in H. idle_case H Hc.
  - inv_bind H. inv_bind H. injection H as <- <-.
    destruct (odd_stroke index); bounds Hc.
Qed.

Lemma HalfnHalf_base_timing p :
  HalfnHalf.base (HalfnHalf._updateStrokeTiming p) = HalfnHalf.base p.
Proof. unfold HalfnHalf._updateStrokeTiming. now destruct (fgt _ _). Qed.

Lemma HalfnHalf_bounds index p m p' :
  configured (HalfnHalf.base p) ->
  HalfnHalf.nextTarget index p = Some (m, p') ->
  in_limits (HalfnHalf.base p) m /\
  in_depth (HalfnHalf.base p) m /\ skip m = false.
Proof.
  intros Hc H. unfold HalfnHalf.nextTarget in H.
  destruct (Pattern._speed (HalfnHalf.base p) =? 0).
  - unfold HalfnHalf._setIdleState in H. idle_case H Hc.
  - assert (Hb : forall q,
               HalfnHalf.base
                 (if index =? 0 then HalfnHalf.set_half true q else q)
               = HalfnHalf.base q)
      by (intros q; now destruct (index =? 0)).
    cbv zeta in H. rewrite !Hb, !HalfnHalf_base_timing in H.
    cbn [HalfnHalf.set_timeOfStroke HalfnHalf.base] in H.
    destruct (odd_stroke index); inv_bind H; inv_bind H;
      injection H as <- <-; bounds Hc.
Qed.

Lemma Deeper_bounds index p m p' :
  configured (Deeper.base p) ->
  Deeper.nextTarget index p = Some (m, p') ->
  in_limits (Deeper.base p) m /\
  in_depth (Deeper.base p) m /\ skip m = false.
Proof.
  intros Hc H. unfold Deeper.nextTarget in H. cbv zeta in H.
  destruct (Pattern._speed (Deeper.base p) =? 0).
  - unfold Deeper._setIdleState in H. idle_case H Hc.
  - inv_bind H. destruct (a =? 0); [discriminate|].
    inv_bind H. inv_bind H. injection H as <- <-.
    destruct (odd_stroke index); bounds Hc.
Qed.

Lemma Insist_base_real p q :
  Insist._updateRealStroke p = Some q -> Insist.base q = Insist.base p.
Proof.
  unfold Insist._updateRealStroke. intros H. inv_bind H.
  now injection H as <-.
Qed.

Lemma Insist_bounds index p m p' :
  configured (Insist.base p) ->
  Insist.nextTarget index p = Some (m, p') ->
  in_limits (Insist.base p) m /\
  in_depth (Insist.base p) m /\ skip m = false.
Proof.
  intros Hc H. unfold Insist.nextTarget in H. cbv zeta in H.
  destruct (Pattern._speed (Insist.base p) =? 0).
  - unfold Insist._setIdleState in H. cbv zeta in H.
    inv_bind H. inv_bind H. inv_bind H. injection H as <- <-.
    pose proof (idle_limits Hc E E0) as [? ?].
    destruct (Insist._strokeInFront _); bounds Hc.
  - inv_bind H. apply Insist_base_real in E.
    cbn [Insist.set_timeOfStroke Insist.base] in E.
    rewrite E in H. inv_bind H. inv_bind H. injection H as <- <-.
    destruct (Insist._strokeInFront _), (odd_stroke index); bounds Hc.
Qed.

Lemma StopNGo_bounds index millis p m p' :
  configured (StopNGo.base p) ->
  StopNGo.nextTarget index millis p = Some (m, p') ->
  in_limits (StopNGo.base p) m /\
  (skip m = false -> in_depth (StopNGo.base p) m) /\
  (skip m = true -> stroke m = stroke (Pattern._nextMove (StopNGo.base p))).
Proof.
  intros Hc H. unfold StopNGo.nextTarget in H. cbv zeta in H.
  destruct (Pattern._speed (StopNGo.base p) =? 0).
  - unfold StopNGo._setIdleState in H.
    apply bind_Some in H as ([? ?] & E & H); injection H as <- <-.
    cbn [fst snd].
    destruct (Pattern_idle_bounds Hc E) as (? & ? & ->).
    split; [assumption | split; [intros _; assumption | discriminate]].
  - destruct (Pattern._isStillDelayed millis (StopNGo.base p));
      cbn [negb] in H; [|destruct (odd_stroke index)];
      cbv beta iota zeta in H;
      inv_bind H; inv_bind H; injection H as <- <-;
      unfold in_limits, in_depth; cbn [stroke speed acceleration skip];
      refine (conj (conj _ _) (conj _ _)); intros; bound Hc.
Qed.

(** The first command of each pattern with depth 100, stroke 100, speed 100,
    sensation 0 and the limits 1000 and 10000 (the clock at 1 ms). *)
Example first_commands :
  let first p := option_map fst
                   (nextTarget 0 1 (started p 1000 10000 100 100 100)) in
  first (ASimplePenetration (SimplePenetration.init 0 0 0)) =
    Some {| stroke := 0; speed := 150; acceleration := 450;
            skip := false |} /\
  first (ATeasingPounding (TeasingPounding.init 0 0 0)) =
    Some {| stroke := 100; speed := 150; acceleration := 450;
            skip := false |} /\
  first (ARoboStroke (RoboStroke.init 0 0 0)) =
    Some {| stroke := 100; speed := 150; acceleration := 300;
            skip := false |} /\
  first (AHalfnHalf (HalfnHalf.init 0 0 0)) =
    Some {| stroke := 50; speed := 150; acceleration := 450;
            skip := false |} /\
  first (ADeeper (Deeper.init 0 0 0)) =
    Some {| stroke := 9; speed := 13; acceleration := 39; skip := false |} /\
  first (AStopNGo (StopNGo.init 0 0 0)) =
    Some {| stroke := 100; speed := 150; acceleration := 450;
            skip := false |} /\
  first (AInsist (Insist.init 0 0 0)) =
    Some {| stroke := 100; speed := 150; acceleration := 450;
            skip := false |}.
Proof. cbv zeta. repeat split; vm_compute; reflexivity. Qed.

(** The testable property of the specification for SimplePenetration: with
    depth 1000, stroke 1000, speed 100 and the limits 1000 and 10000,
    [nextTarget(1)] has the target position 1000, [nextTarget(2)] the
    target position 0, and both have the speed 150. *)
Example SimplePenetration_targets :
  let p := started (ASimplePenetration (SimplePenetration.init 0 0 0))
                   1000 10000 1000 1000 100 in
  option_map fst (nextTarget 1 0 p) =
    Some {| stroke := 1000; speed := 150; acceleration := 45;
            skip := false |} /\
  option_map fst (nextTarget 2 0 p) =
    Some {| stroke := 0; speed := 150; acceleration := 45; skip := false |}.
Proof. split; vm_compute; reflexivity. Qed.

(** The skipped command of a paused StopNGo: its target position, left from
    the command before the pause, is 800 while the depth is 500. *)
Lemma skipped_target_exceeds_depth :
  exists p m p',
    paused_StopNGo = Some p /\
    configured (base_of p) /\
    nextTarget 2 6200 p = Some (m, p') /\
    Pattern._depth (base_of p) = 500 /\
    stroke m = 800 /\ skip m = true /\
    ~ (0 <= stroke m <= Pattern._depth (base_of p)).
Proof.
  do 3 eexists.
  split; [vm_compute; reflexivity|].
  split; [constructor; vm_compute; discriminate|].
  split; [vm_compute; reflexivity|].
  cbn [stroke skip]. repeat split. vm_compute. intros [_ H]. now apply H.
Qed.

(** Wherever every conversion of the call is defined, the command that
    [nextTarget(index)] returns has [0 <= speed <= _maxSpeed] and
    [0 <= acceleration <= _maxAcceleration]; its target position satisfies
    [0 <= stroke <= _depth] when it is not a skipped command, and a skipped
    command (the pause of StopNGo) repeats the target position of the
    command before it. *)
Lemma within_limits_when_defined (p : pattern) (index millis : Z)
  (m : motionParameter) (p' : pattern) :
  configured (base_of p) ->
  nextTarget index millis p = Some (m, p') ->
  in_limits (base_of p) m /\
  (skip m = false -> in_depth (base_of p) m) /\
  (skip m = true -> stroke m = stroke (Pattern._nextMove (base_of p))).
Proof.
  intros Hc H.
  destruct p as [q|q|q|q|q|q|q]; cbn [nextTarget base_of] in *;
    unfold tag in H; apply bind_Some in H as ([m0 q'] & E & H);
    injection H as <- <-; cbn [fst].
  - destruct (SimplePenetration_bounds _ _ Hc E) as (? & ? & ->).
    split; [assumption | split; [intros _; assumption | discriminate]].
  - destruct (TeasingPounding_bounds _ _ Hc E) as (? & ? & ->).
    split; [assumption | split; [intros _; assumption | discriminate]].
  - destruct (RoboStroke_bounds _ _ Hc E) as (? & ? & ->).
    split; [assumption | split; [intros _; assumption | discriminate]].
  - destruct (HalfnHalf_bounds _ _ Hc E) as (? & ? & ->).
    split; [assumption | split; [intros _; assumption | discriminate]].
  - destruct (Deeper_bounds _ _ Hc E) as (? & ? & ->).
    split; [assumption | split; [intros _; assumption | discriminate]].
  - exact (StopNGo_bounds _ _ _ Hc E).
  - destruct (Insist_bounds _ _ Hc E) as (? & ? & ->).
    split; [assumption | split; [intros _; assumption | discriminate]].
Qed.

(* ================================================================== *)
(** ** Rounding to a binary format *)

(** *** Powers of 2 *)

Lemma p2_pos (e : Z) : (0 < 2 ^ e)%Q.
Proof. apply Qpower_0_lt. reflexivity. Qed.

Lemma p2_add (a b : Z) : (2 ^ (a + b) == 2 ^ a * 2 ^ b)%Q.
Proof. apply Qpower_plus. discriminate. Qed.

Lemma p2_le (a b : Z) : a <= b -> (2 ^ a <= 2 ^ b)%Q.
Proof. intros H. apply Qpower_le_compat_l; [exact H | discriminate]. Qed.

Lemma p2_lt (a b : Z) : a < b -> (2 ^ a < 2 ^ b)%Q.
Proof. intros H. apply Qpower_lt_compat_l; [exact H | reflexivity]. Qed.

Lemma p2_lt_inv (a b : Z) : (2 ^ a < 2 ^ b)%Q -> a < b.
Proof.
  intros H.
  apply Qpower_lt_compat_l_inv with (q := 2%Q); [exact H | reflexivity].
Qed.

Lemma p2_Z (e : Z) : 0 <= e -> (2 ^ e == inject_Z (2 ^ e))%Q.
Proof. intros H. symmetry. apply (Zpower_Qpower 2 e H). Qed.

Lemma p2_succ (a : Z) : (2 ^ (a + 1) == 2 * 2 ^ a)%Q.
Proof. rewrite p2_add. change (2 ^ 1)%Q with 2%Q. ring. Qed.

Lemma p2_pred (a : Z) : (2 ^ (a - 1) == 2 ^ a / 2)%Q.
Proof.
  replace a with ((a - 1) + 1) at 2 by ring. rewrite p2_succ.
  field.
Qed.

(** *** The binade *)

Lemma Qabs_num_den (q : Q) :
  (Qabs q * inject_Z (Z.pos (Qden q)) == inject_Z (Z.abs (Qnum q)))%Q.
Proof.
  destruct q as [n d]. unfold Qabs, Qeq, Qmult, inject_Z. cbn. lia.
Qed.

Lemma binade_spec (q : Q) :
  ~ (q == 0)%Q ->
  (2 ^ binade q <= Qabs q)%Q /\ (Qabs q < 2 ^ (binade q + 1))%Q.
Proof.
  intros Hq.
  set (n := Z.abs (Qnum q)). set (d := Z.pos (Qden q)).
  assert (Hn : 0 < n).
  { unfold n. destruct q as [qn qd]. unfold Qeq in Hq. cbn in *. lia. }
  assert (Hd : 0 < d) by (unfold d; lia).
  pose proof (Qabs_num_den q) as E. fold n d in E.
  destruct (Z.log2_spec n Hn) as [Ln Un].
  destruct (Z.log2_spec d Hd) as [Ld Ud].
  pose proof (Z.log2_nonneg n) as An. pose proof (Z.log2_nonneg d) as Ad.
  set (a := Z.log2 n) in *. set (b := Z.log2 d) in *.
  assert (Qn : (2 ^ a <= inject_Z n)%Q /\ (inject_Z n < 2 ^ (a + 1))%Q).
  { rewrite !p2_Z by lia. rewrite <- Zle_Qle, <- Zlt_Qlt.
    replace (a + 1) with (Z.succ a) by lia. now split. }
  assert (Qd : (2 ^ b <= inject_Z d)%Q /\ (inject_Z d < 2 ^ (b + 1))%Q).
  { rewrite !p2_Z by lia. rewrite <- Zle_Qle, <- Zlt_Qlt.
    replace (b + 1) with (Z.succ b) by lia. now split. }
  assert (Dpos : (0 < inject_Z d)%Q) by (rewrite Zlt_Qlt in Hd; exact Hd).
  pose proof (Qabs_nonneg q) as Aq.
  pose proof (p2_pos b) as Pb. pose proof (p2_pos (a - b)) as Pe.
  assert (Ea : (2 ^ a == 2 ^ (a - b) * 2 ^ b)%Q).
  { rewrite <- p2_add. now replace (a - b + b) with a by ring. }
  assert (Ea1 : (2 ^ (a + 1) == 2 * 2 ^ (a - b) * 2 ^ b)%Q).
  { rewrite p2_succ, Ea. ring. }
  assert (Eb1 : (2 ^ (b + 1) == 2 * 2 ^ b)%Q) by apply p2_succ.
  assert (Up : (Qabs q < 2 ^ (a - b + 1))%Q).
  { rewrite p2_succ.
    apply Qmult_lt_r with (z := inject_Z d); [exact Dpos|].
    rewrite E. destruct Qn as [_ Qn]. rewrite Ea1 in Qn.
    destruct Qd as [Qd _].
    apply Qlt_le_trans with (1 := Qn).
    rewrite <- !Qmult_assoc. apply Qmult_le_l; [reflexivity|].
    apply Qmult_le_l; [exact Pe | exact Qd]. }
  assert (Lo : (2 ^ (a - b - 1) < Qabs q)%Q).
  { rewrite p2_pred.
    apply Qmult_lt_r with (z := inject_Z d); [exact Dpos|].
    rewrite E. destruct Qn as [Qn _]. rewrite Ea in Qn.
    destruct Qd as [_ Qd]. rewrite Eb1 in Qd.
    apply Qlt_le_trans with (2 := Qn).
    setoid_replace (2 ^ (a - b) / 2 * inject_Z d)%Q
      with (2 ^ (a - b) * (inject_Z d * (1 # 2)))%Q by field.
    apply Qmult_lt_l; [exact Pe|].
    clear - Qd. set (pb := (2 ^ b)%Q) in *. clearbody pb. lra. }
  unfold binade. fold n d. fold a b.
  destruct (Qle_bool (2 ^ (a - b)) (Qabs q)) eqn:C.
  - apply Qle_bool_iff in C. now split.
  - assert (C' : ~ (2 ^ (a - b) <= Qabs q)%Q).
    { intros H. apply Qle_bool_iff in H. congruence. }
    apply Qnot_le_lt in C'.
    replace (a - b - 1 + 1) with (a - b) by ring.
    split; [apply Qlt_le_weak; exact Lo | exact C'].
Qed.

Lemma binade_unique (q : Q) (k : Z) :
  (2 ^ k <= Qabs q)%Q -> (Qabs q < 2 ^ (k + 1))%Q -> binade q = k.
Proof.
  intros L U.
  assert (Hq : ~ (q == 0)%Q).
  { intros H. rewrite H in L. pose proof (p2_pos k). cbn in L. lra. }
  destruct (binade_spec Hq) as [L' U'].
  assert (A : binade q < k + 1).
  { apply p2_lt_inv. apply Qle_lt_trans with (1 := L'). exact U. }
  assert (B : k < binade q + 1).
  { apply p2_lt_inv. apply Qle_lt_trans with (1 := L). exact U'. }
  lia.
Qed.

Lemma binade_mono (x y : Q) :
  ~ (x == 0)%Q -> (Qabs x <= Qabs y)%Q -> binade x <= binade y.
Proof.
  intros Hx H.
  assert (Hy : ~ (y == 0)%Q).
  { intros E. rewrite E in H. cbn in H.
    apply Hx. apply Qabs_Qle_condition in H. lra. }
  destruct (binade_spec Hx) as [Lx _].
  destruct (binade_spec Hy) as [_ Uy].
  assert (A : binade x < binade y + 1).
  { apply p2_lt_inv. apply Qle_lt_trans with (1 := Lx).
    apply Qle_lt_trans with (1 := H). exact Uy. }
  lia.
Qed.

(** *** Rounding to the nearest integer *)

Lemma rne_comp (x y : Q) : (x == y)%Q -> rne x = rne y.
Proof.
  intros E. unfold rne. rewrite (Qfloor_comp _ _ E).
  assert (C : ((x - inject_Z (Qfloor y)) ?= (1 # 2))%Q
              = ((y - inject_Z (Qfloor y)) ?= (1 # 2))%Q).
  { apply Qcompare_comp; [rewrite E; reflexivity | reflexivity]. }
  now rewrite C.
Qed.

Lemma rne_Z (n : Z) : rne (inject_Z n) = n.
Proof.
  unfold rne. rewrite Qfloor_Z.
  assert (C : ((inject_Z n - inject_Z n) ?= (1 # 2))%Q = Lt).
  { rewrite <- Qlt_alt. lra. }
  now rewrite C.
Qed.

Lemma rne_bounds (x : Q) :
  Qfloor x <= rne x <= Qfloor x + 1.
Proof.
  unfold rne. destruct (_ ?= _)%Q; [destruct (Z.even _)| |]; lia.
Qed.

Lemma rne_err (x : Q) :
  (inject_Z (rne x) - (1 # 2) <= x)%Q /\ (x <= inject_Z (rne x) + (1 # 2))%Q.
Proof.
  pose proof (Qfloor_le x) as L. pose proof (Qlt_floor x) as U.
  rewrite inject_Z_plus in U. change (inject_Z 1) with 1%Q in U.
  unfold rne.
  destruct (_ ?= _)%Q eqn:C.
  - apply <- Qeq_alt in C.
    destruct (Z.even _); [|rewrite inject_Z_plus; change (inject_Z 1) with 1%Q];
      lra.
  - apply <- Qlt_alt in C. lra.
  - apply <- Qgt_alt in C. rewrite inject_Z_plus.
    change (inject_Z 1) with 1%Q. lra.
Qed.

Lemma rne_mono (x y : Q) : (x <= y)%Q -> rne x <= rne y.
Proof.
  intros H.
  pose proof (Qfloor_resp_le _ _ H) as F.
  pose proof (rne_bounds x) as Bx. pose proof (rne_bounds y) as By.
  destruct (Z.eq_dec (Qfloor x) (Qfloor y)) as [E|N]; [|lia].
  unfold rne in *. rewrite E in *.
  set (f := Qfloor y) in *.
  destruct ((y - inject_Z f) ?= (1 # 2))%Q eqn:Cy;
    destruct ((x - inject_Z f) ?= (1 # 2))%Q eqn:Cx;
    try (destruct (Z.even f)); try lia;
    repeat match goal with
      | H : (_ ?= _)%Q = Eq |- _ => apply <- Qeq_alt in H
      | H : (_ ?= _)%Q = Lt |- _ => apply <- Qlt_alt in H
      | H : (_ ?= _)%Q = Gt |- _ => apply <- Qgt_alt in H
      end; lra.
Qed.

Lemma rne_ge (n : Z) (x : Q) : (inject_Z n <= x)%Q -> n <= rne x.
Proof. intros H. rewrite <- (rne_Z n). now apply rne_mono. Qed.

Lemma rne_le (n : Z) (x : Q) : (x <= inject_Z n)%Q -> rne x <= n.
Proof. intros H. rewrite <- (rne_Z n). now apply rne_mono. Qed.

(** *** Rounding to a format *)

Section Rnd.

Variables prec emin : Z.
Hypothesis prec_pos : 0 < prec.

Lemma rnd_nz (q : Q) :
  ~ (q == 0)%Q ->
  (rnd prec emin q ==
   inject_Z (rne (q / 2 ^ ulp_exp prec emin q))
   * 2 ^ ulp_exp prec emin q)%Q.
Proof.
  intros H. unfold rnd.
  destruct (Qeq_bool q 0) eqn:E.
  - apply Qeq_bool_iff in E. contradiction.
  - apply Qred_correct.
Qed.

Lemma rnd_zero (q : Q) : (q == 0)%Q -> (rnd prec emin q == 0)%Q.
Proof.
  intros H. unfold rnd. apply Qeq_bool_iff in H. rewrite H. reflexivity.
Qed.

Lemma div_p2_nonneg (q : Q) (e : Z) : (0 <= q)%Q -> (0 <= q / 2 ^ e)%Q.
Proof.
  intros H. apply Qle_shift_div_l; [apply p2_pos|]. lra.
Qed.

Lemma rnd_nonneg (q : Q) : (0 <= q)%Q -> (0 <= rnd prec emin q)%Q.
Proof.
  intros H. destruct (Qeq_dec q 0) as [E|N].
  - rewrite (rnd_zero E). lra.
  - rewrite (rnd_nz N).
    apply Qmult_le_0_compat; [|apply Qlt_le_weak, p2_pos].
    change 0%Q with (inject_Z 0). rewrite <- Zle_Qle.
    apply rne_ge. now apply div_p2_nonneg.
Qed.

Lemma rnd_mono_pos (x y : Q) :
  (0 < x)%Q -> (x <= y)%Q -> (rnd prec emin x <= rnd prec emin y)%Q.
Proof.
  intros Hx Hxy.
  assert (Nx : ~ (x == 0)%Q) by lra.
  assert (Ny : ~ (y == 0)%Q) by lra.
  assert (Ax : (Qabs x == x)%Q) by (apply Qabs_pos; lra).
  assert (Ay : (Qabs y == y)%Q) by (apply Qabs_pos; lra).
  rewrite (rnd_nz Nx), (rnd_nz Ny).
  assert (M : binade x <= binade y).
  { apply binade_mono; [exact Nx|]. rewrite Ax, Ay. exact Hxy. }
  destruct (binade_spec Nx) as [Lx Ux]. destruct (binade_spec Ny) as [Ly Uy].
  rewrite Ax in Lx, Ux. rewrite Ay in Ly, Uy.
  unfold ulp_exp.
  set (ex := binade x) in *. set (ey := binade y) in *.
  set (px := Z.max (ex - prec + 1) emin).
  set (py := Z.max (ey - prec + 1) emin).
  assert (P : px <= py) by (unfold px, py; lia).
  destruct (Z.eq_dec px py) as [E|N].
  - rewrite <- E.
    apply Qmult_le_compat_r; [|apply Qlt_le_weak, p2_pos].
    rewrite <- Zle_Qle. apply rne_mono.
    apply Qmult_le_compat_r; [exact Hxy|].
    apply Qlt_le_weak, Qinv_lt_0_compat, p2_pos.
  - assert (Epy : py = ey - prec + 1) by (unfold px, py in *; lia).
    assert (Exy : ex < ey) by (unfold px, py in *; lia).
    apply Qle_trans with (y := (2 ^ ey)%Q).
    + (* rnd x <= 2 ^ ey *)
      assert (D : 0 <= ey - px) by (unfold px, py in *; lia).
      assert (E2 : (2 ^ ey == inject_Z (2 ^ (ey - px)) * 2 ^ px)%Q).
      { rewrite <- p2_Z by exact D. rewrite <- p2_add.
        now replace (ey - px + px) with ey by ring. }
      rewrite E2.
      apply Qmult_le_compat_r; [|apply Qlt_le_weak, p2_pos].
      rewrite <- Zle_Qle. apply rne_le.
      apply Qle_shift_div_r; [apply p2_pos|].
      rewrite <- E2.
      apply Qle_trans with (y := (2 ^ (ex + 1))%Q);
        [apply Qlt_le_weak; exact Ux | apply p2_le; lia].
    + (* 2 ^ ey <= rnd y *)
      assert (D : 0 <= ey - py) by lia.
      assert (E2 : (2 ^ ey == inject_Z (2 ^ (ey - py)) * 2 ^ py)%Q).
      { rewrite <- p2_Z by exact D. rewrite <- p2_add.
        now replace (ey - py + py) with ey by ring. }
      rewrite E2 at 1.
      apply Qmult_le_compat_r; [|apply Qlt_le_weak, p2_pos].
      rewrite <- Zle_Qle. apply rne_ge.
      apply Qle_shift_div_l; [apply p2_pos|].
      rewrite <- E2. exact Ly.
Qed.

Lemma rnd_mono (x y : Q) :
  (0 <= x)%Q -> (x <= y)%Q -> (rnd prec emin x <= rnd prec emin y)%Q.
Proof.
  intros Hx Hxy. destruct (Qeq_dec x 0) as [E|N].
  - rewrite (rnd_zero E). apply rnd_nonneg. lra.
  - apply rnd_mono_pos; [lra | exact Hxy].
Qed.

Lemma rnd_comp (x y : Q) :
  (0 <= x)%Q -> (x == y)%Q -> (rnd prec emin x == rnd prec emin y)%Q.
Proof.
  intros Hx E. apply Qle_antisym; apply rnd_mono; lra.
Qed.

(** A value of the format is its own rounding. *)
Lemma rnd_fix (q : Q) (m e : Z) :
  (q == inject_Z m * 2 ^ e)%Q -> 0 <= m < 2 ^ prec -> emin <= e ->
  (rnd prec emin q == q)%Q.
Proof.
  intros Eq Hm He.
  destruct (Qeq_dec q 0) as [Z0|N]; [rewrite (rnd_zero Z0); lra|].
  rewrite (rnd_nz N).
  pose proof (p2_pos e) as Pe.
  assert (Mpos : 0 < m).
  { destruct (Z.eq_dec m 0) as [->|]; [|lia].
    exfalso. apply N. rewrite Eq. change (inject_Z 0) with 0%Q. ring. }
  assert (Qpos : (0 < q)%Q).
  { rewrite Eq. apply Qmult_lt_0_compat; [|exact Pe].
    change 0%Q with (inject_Z 0). now rewrite <- Zlt_Qlt. }
  assert (Aq : (Qabs q == q)%Q) by (apply Qabs_pos; lra).
  destruct (binade_spec N) as [L _]. rewrite Aq in L.
  assert (B : binade q < prec + e).
  { apply p2_lt_inv. apply Qle_lt_trans with (1 := L).
    rewrite Eq, p2_add.
    apply Qmult_lt_r; [exact Pe|].
    rewrite p2_Z by lia. rewrite <- Zlt_Qlt. lia. }
  unfold ulp_exp. set (p := Z.max (binade q - prec + 1) emin).
  assert (P : p <= e) by (unfold p; lia).
  assert (E2 : (q / 2 ^ p == inject_Z (m * 2 ^ (e - p)))%Q).
  { rewrite inject_Z_mult, <- p2_Z by lia.
    rewrite Eq. replace e with ((e - p) + p) at 1 by ring.
    rewrite p2_add. field. pose proof (p2_pos p). lra. }
  rewrite (rne_comp E2), rne_Z.
  rewrite inject_Z_mult, <- p2_Z by lia.
  rewrite Eq. replace e with ((e - p) + p) at 2 by ring.
  rewrite p2_add. ring.
Qed.

Lemma rnd_fix_Z (n : Z) :
  0 <= n <= 2 ^ prec -> emin <= 0 ->
  (rnd prec emin (inject_Z n) == inject_Z n)%Q.
Proof.
  intros Hn He.
  destruct (Z.eq_dec n (2 ^ prec)) as [->|N].
  - apply rnd_fix with (m := 2 ^ (prec - 1)) (e := 1).
    + rewrite <- !p2_Z by lia. rewrite <- p2_add.
      now replace (prec - 1 + 1) with prec by ring.
    + split; [apply Z.pow_nonneg; lia|].
      apply Z.pow_lt_mono_r; lia.
    + lia.
  - apply rnd_fix with (m := n) (e := 0).
    + change (2 ^ 0)%Q with 1%Q. ring.
    + lia.
    + exact He.
Qed.

(** The error of a rounding: half a unit in the last place. *)
Lemma rnd_err (q : Q) :
  (0 <= q)%Q ->
  (Qabs (rnd prec emin q - q) <= 2 ^ (- prec) * q + 2 ^ (emin - 1))%Q.
Proof.
  intros Hq.
  pose proof (p2_pos (- prec)) as P1. pose proof (p2_pos (emin - 1)) as P2.
  destruct (Qeq_dec q 0) as [Z0|N].
  - rewrite (rnd_zero Z0), Z0.
    setoid_replace (0 - 0)%Q with 0%Q by ring. cbn [Qabs Z.abs Qnum Qden].
    change (Qabs 0) with 0%Q.
    setoid_replace (2 ^ (- prec) * 0)%Q with 0%Q by ring. lra.
  - rewrite (rnd_nz N).
    assert (Aq : (Qabs q == q)%Q) by (apply Qabs_pos; lra).
    destruct (binade_spec N) as [L _]. rewrite Aq in L.
    unfold ulp_exp. set (p := Z.max (binade q - prec + 1) emin).
    pose proof (p2_pos p) as Pp.
    destruct (rne_err (q / 2 ^ p)) as [E1 E2].
    set (r := inject_Z (rne (q / 2 ^ p))) in *.
    assert (Eq : (q == q / 2 ^ p * 2 ^ p)%Q) by (field; lra).
    assert (H1 : ((r - (1 # 2)) * 2 ^ p <= q / 2 ^ p * 2 ^ p)%Q)
      by (apply Qmult_le_compat_r; lra).
    assert (H2 : (q / 2 ^ p * 2 ^ p <= (r + (1 # 2)) * 2 ^ p)%Q)
      by (apply Qmult_le_compat_r; lra).
    rewrite <- Eq in H1, H2.
    assert (Hp : ((1 # 2) * 2 ^ p <= 2 ^ (- prec) * q + 2 ^ (emin - 1))%Q).
    { destruct (Z.max_spec (binade q - prec + 1) emin) as [[_ Em]|[_ Em]];
        fold p in Em.
      - assert (E3 : ((1 # 2) * 2 ^ p == 2 ^ (emin - 1))%Q).
        { rewrite Em, p2_pred. field. }
        rewrite E3.
        assert (0 <= 2 ^ (- prec) * q)%Q
          by (apply Qmult_le_0_compat; lra).
        lra.
      - assert (E3 : ((1 # 2) * 2 ^ p == 2 ^ (- prec) * 2 ^ binade q)%Q).
        { rewrite Em. replace (binade q - prec + 1)
            with ((- prec + binade q) + 1) by ring.
          rewrite p2_succ, p2_add. field. }
        rewrite E3.
        assert (2 ^ (- prec) * 2 ^ binade q <= 2 ^ (- prec) * q)%Q
          by (apply Qmult_le_l; lra).
        lra. }
    apply Qabs_Qle_condition.
    set (u := (2 ^ p)%Q) in *. set (v := (2 ^ (- prec) * q)%Q) in *.
    set (w := (2 ^ (emin - 1))%Q) in *.
    clearbody u v w r. split; nra.
Qed.

(** The error of the rounding of a normal value. *)
Lemma rnd_err_normal (q : Q) :
  (2 ^ (emin + prec - 1) <= q)%Q ->
  (Qabs (rnd prec emin q - q) <= 2 ^ (- prec) * q)%Q.
Proof.
  intros Hq.
  pose proof (p2_pos (emin + prec - 1)) as P0.
  pose proof (p2_pos (- prec)) as P1.
  assert (N : ~ (q == 0)%Q) by lra.
  rewrite (rnd_nz N).
  assert (Aq : (Qabs q == q)%Q) by (apply Qabs_pos; lra).
  destruct (binade_spec N) as [L U]. rewrite Aq in L, U.
  assert (B : emin + prec - 1 < binade q + 1).
  { apply p2_lt_inv. apply Qle_lt_trans with (1 := Hq). exact U. }
  unfold ulp_exp. set (p := Z.max (binade q - prec + 1) emin).
  assert (Em : p = binade q - prec + 1) by (unfold p; lia).
  pose proof (p2_pos p) as Pp.
  destruct (rne_err (q / 2 ^ p)) as [E1 E2].
  set (r := inject_Z (rne (q / 2 ^ p))) in *.
  assert (Eq : (q == q / 2 ^ p * 2 ^ p)%Q) by (field; lra).
  assert (H1 : ((r - (1 # 2)) * 2 ^ p <= q / 2 ^ p * 2 ^ p)%Q)
    by (apply Qmult_le_compat_r; lra).
  assert (H2 : (q / 2 ^ p * 2 ^ p <= (r + (1 # 2)) * 2 ^ p)%Q)
    by (apply Qmult_le_compat_r; lra).
  rewrite <- Eq in H1, H2.
  assert (E3 : ((1 # 2) * 2 ^ p == 2 ^ (- prec) * 2 ^ binade q)%Q).
  { rewrite Em. replace (binade q - prec + 1)
      with ((- prec + binade q) + 1) by ring.
    rewrite p2_succ, p2_add. field. }
  assert (Hp : ((1 # 2) * 2 ^ p <= 2 ^ (- prec) * q)%Q).
  { rewrite E3. apply Qmult_le_l; lra. }
  apply Qabs_Qle_condition.
  set (u := (2 ^ p)%Q) in *. set (v := (2 ^ (- prec) * q)%Q) in *.
  clearbody u v r. split; nra.
Qed.

(** A value of the format is a multiple of its unit in the last place by
    an integer of [prec] bits. *)
Lemma rnd_fixed (q : Q) :
  (0 < q)%Q -> (rnd prec emin q == q)%Q ->
  exists m, (q == inject_Z m * 2 ^ ulp_exp prec emin q)%Q /\ 0 <= m < 2 ^ prec.
Proof.
  intros Hq E.
  assert (N : ~ (q == 0)%Q) by lra.
  rewrite (rnd_nz N) in E.
  assert (Aq : (Qabs q == q)%Q) by (apply Qabs_pos; lra).
  destruct (binade_spec N) as [_ U]. rewrite Aq in U.
  set (e := ulp_exp prec emin q) in *. pose proof (p2_pos e) as Pe.
  exists (rne (q / 2 ^ e)). split; [symmetry; exact E|].
  split.
  - apply rne_ge. apply div_p2_nonneg. lra.
  - set (m := rne (q / 2 ^ e)) in *.
    assert (L : (inject_Z m * 2 ^ e < 2 ^ prec * 2 ^ e)%Q).
    { rewrite E, <- p2_add.
      apply Qlt_le_trans with (1 := U). apply p2_le.
      unfold e, ulp_exp. lia. }
    apply Qmult_lt_r in L; [|exact Pe].
    rewrite p2_Z in L by lia. now rewrite <- Zlt_Qlt in L.
Qed.

End Rnd.

(** A value of a format, scaled by a power of 2, in a format that is as
    wide. *)
Lemma rnd_fix_scaled (prec emin prec' emin' : Z) (q : Q) (k : Z) :
  0 < prec -> 0 < prec' -> prec <= prec' ->
  emin' <= ulp_exp prec emin q + k ->
  (0 < q)%Q -> (rnd prec emin q == q)%Q ->
  (rnd prec' emin' (q * 2 ^ k) == q * 2 ^ k)%Q.
Proof.
  intros Hp Hp' Hpp He Hq E.
  destruct (@rnd_fixed prec emin Hp q Hq E) as (m & Em & Hm).
  apply rnd_fix with (m := m) (e := ulp_exp prec emin q + k).
  - exact Hp'.
  - rewrite p2_add. rewrite Em at 1. ring.
  - split; [lia|]. apply Z.lt_le_trans with (1 := proj2 Hm).
    apply Z.pow_le_mono_r; lia.
  - exact He.
Qed.

(** *** Binary32 and binary64 *)

Lemma r32_mono (x y : Q) : (0 <= x)%Q -> (x <= y)%Q -> (r32 x <= r32 y)%Q.
Proof. apply rnd_mono. reflexivity. Qed.

Lemma r64_mono (x y : Q) : (0 <= x)%Q -> (x <= y)%Q -> (r64 x <= r64 y)%Q.
Proof. apply rnd_mono. reflexivity. Qed.

Lemma r32_comp (x y : Q) : (0 <= x)%Q -> (x == y)%Q -> (r32 x == r32 y)%Q.
Proof. apply rnd_comp. reflexivity. Qed.

Lemma r64_comp (x y : Q) : (0 <= x)%Q -> (x == y)%Q -> (r64 x == r64 y)%Q.
Proof. apply rnd_comp. reflexivity. Qed.

Lemma r32_nonneg (x : Q) : (0 <= x)%Q -> (0 <= r32 x)%Q.
Proof. apply rnd_nonneg. Qed.

Lemma r64_nonneg (x : Q) : (0 <= x)%Q -> (0 <= r64 x)%Q.
Proof. apply rnd_nonneg. Qed.

Lemma r32_zero (x : Q) : (x == 0)%Q -> (r32 x == 0)%Q.
Proof. apply rnd_zero. Qed.

Lemma r64_zero (x : Q) : (x == 0)%Q -> (r64 x == 0)%Q.
Proof. apply rnd_zero. Qed.

(** The integers up to [2 ^ 24] are values of binary32. *)
Lemma r32_Z (n : Z) : 0 <= n <= 2 ^ 24 -> (r32 (inject_Z n) == inject_Z n)%Q.
Proof. intros H. apply rnd_fix_Z; [reflexivity | exact H | discriminate]. Qed.

Lemma r64_Z (n : Z) : 0 <= n <= 2 ^ 53 -> (r64 (inject_Z n) == inject_Z n)%Q.
Proof. intros H. apply rnd_fix_Z; [reflexivity | exact H | discriminate]. Qed.

Lemma r32_p2 (e : Z) : -149 <= e -> (r32 (2 ^ e) == 2 ^ e)%Q.
Proof.
  intros H. apply rnd_fix with (m := 1) (e := e);
    [reflexivity | change (inject_Z 1) with 1%Q; ring | split; [lia|reflexivity]
    | exact H].
Qed.

Lemma r64_p2 (e : Z) : -1074 <= e -> (r64 (2 ^ e) == 2 ^ e)%Q.
Proof.
  intros H. apply rnd_fix with (m := 1) (e := e);
    [reflexivity | change (inject_Z 1) with 1%Q; ring | split; [lia|reflexivity]
    | exact H].
Qed.

(** Rounding a value that is not negative and does not overflow. *)
Lemma round_Fin (prec emax : Z) (q : Q) :
  (0 <= rnd prec (3 - emax - prec) q)%Q ->
  (rnd prec (3 - emax - prec) q < 2 ^ emax)%Q ->
  round prec emax (Fin q) = Fin (rnd prec (3 - emax - prec) q).
Proof.
  intros H0 H. unfold round.
  destruct (Qle_bool _ _) eqn:C; [|reflexivity].
  apply Qle_bool_iff in C. rewrite Qabs_pos in C by exact H0. lra.
Qed.

Lemma round32_Fin (q : Q) :
  (0 <= q)%Q -> (q <= 2 ^ 127)%Q -> round32 (Fin q) = Fin (r32 q).
Proof.
  intros H0 H. apply (@round_Fin 24 128 q).
  - now apply r32_nonneg.
  - apply Qle_lt_trans with (y := (2 ^ 127)%Q); [|reflexivity].
    rewrite <- (@r32_p2 127) by discriminate. now apply r32_mono.
Qed.

Lemma round64_Fin (q : Q) :
  (0 <= q)%Q -> (q <= 2 ^ 1023)%Q -> round64 (Fin q) = Fin (r64 q).
Proof.
  intros H0 H. apply (@round_Fin 53 1024 q).
  - now apply r64_nonneg.
  - apply Qle_lt_trans with (y := (2 ^ 1023)%Q); [|apply p2_lt; lia].
    rewrite <- (@r64_p2 1023) by discriminate. now apply r64_mono.
Qed.

(** *** The effective stroke of Insist in binary32 *)

Lemma p2_24 : (2 ^ 24 == inject_Z (2 ^ 24))%Q.
Proof. reflexivity. Qed.

(** [Insist::_updateRealStroke] for a stroke of at most [2 ^ 24] steps and
    a sensation of [[-100, 100]]: the fraction [f] and the product [g]
    that is converted to [int]. *)
Lemma Insist_updateRealStroke_Fin (p : Insist.t) (s : Q) :
  let z := Pattern._stroke (Insist.base p) in
  0 <= z <= 2 ^ 24 ->
  Pattern._sensation (Insist.base p) = Fin s ->
  (Qabs s <= 100)%Q ->
  exists f g,
    Binary32.Insist_updateRealStroke p =
      Some {| Insist.base := Insist.base p;
              Insist._timeOfStroke := Insist._timeOfStroke p;
              Insist._realStroke := Qtrunc g;
              Insist._strokeFraction := Fin f;
              Insist._strokeInFront :=
                if fgt (Fin s) (Fin 0) then true else false |} /\
    (f == r32 (r32 (100 - Qabs s) / 100))%Q /\
    (g == r32 (inject_Z z * f))%Q /\
    (0 <= f <= 1)%Q /\ (0 <= g <= inject_Z z)%Q.
Proof.
  intros z Hz Hs Ha.
  pose proof (Qabs_nonneg s) as Hn.
  unfold Binary32.Insist_updateRealStroke. rewrite Hs.
  destruct (fabs_Fin s) as (a & -> & Ea).
  assert (E100 : of_int32 100 = Fin 100) by (vm_compute; reflexivity).
  rewrite E100. unfold fsub32, fdiv32, fmul32, of_int32, of_int.
  cbn [fsub fadd fopp]. fold z.
  assert (D1 : (100 + - a == 100 - Qabs s)%Q) by (rewrite Ea; ring).
  assert (B1 : (0 <= 100 + - a <= 100)%Q) by (rewrite D1; lra).
  rewrite (@round32_Fin (100 + - a))
    by lra.
  assert (B2 : (0 <= r32 (100 + - a) <= 100)%Q).
  { split; [apply r32_nonneg; lra|].
    apply Qle_trans with (y := r32 (inject_Z 100)).
    - apply r32_mono; [lra|]. change (inject_Z 100) with 100%Q. lra.
    - rewrite r32_Z by lia. apply Qle_refl. }
  rewrite fdiv_Fin by discriminate.
  set (A := r32 (100 + - a)) in *.
  assert (B3 : (0 <= A / 100 <= 1)%Q).
  { split; [apply Qle_shift_div_l | apply Qle_shift_div_r]; lra. }
  rewrite (@round32_Fin (A / 100))
    by lra.
  set (f := r32 (A / 100)).
  assert (Bf : (0 <= f <= 1)%Q).
  { split; [apply r32_nonneg; lra|].
    apply Qle_trans with (y := r32 (inject_Z 1)).
    - apply r32_mono; [lra|]. change (inject_Z 1) with 1%Q. lra.
    - rewrite r32_Z by lia. apply Qle_refl. }
  pose proof (inject_Z_nonneg (proj1 Hz)) as Hq.
  assert (Hq24 : (inject_Z z <= 2 ^ 24)%Q).
  { rewrite p2_24. rewrite <- Zle_Qle. lia. }
  rewrite (@round32_Fin (inject_Z z))
    by lra.
  assert (Ez : (r32 (inject_Z z) == inject_Z z)%Q) by (apply r32_Z; exact Hz).
  cbn [fmul].
  assert (B4 : (0 <= r32 (inject_Z z) * f <= inject_Z z)%Q).
  { rewrite Ez. split; nra. }
  rewrite (@round32_Fin (r32 (inject_Z z) * f))
    by lra.
  set (g := r32 (r32 (inject_Z z) * f)).
  assert (Bg : (0 <= g <= inject_Z z)%Q).
  { split; [apply r32_nonneg; lra|].
    apply Qle_trans with (y := r32 (inject_Z z)).
    - apply r32_mono; lra.
    - rewrite Ez. apply Qle_refl. }
  assert (Tg : 0 <= Qtrunc g <= z).
  { destruct Bg as [G1 G2]. apply Qtrunc_mono in G1, G2.
    rewrite Qtrunc_inject_Z in G2. change (Qtrunc 0) with 0 in G1. lia. }
  rewrite to_int_Fin
    by (unfold in_int, INT_MIN, INT_MAX; change (2 ^ 24) with 16777216 in *;
        lia).
  cbn [bind]. exists f, g. split; [reflexivity|].
  split.
  { unfold f. apply r32_comp; [lra|].
    unfold Qdiv. apply Qmult_comp; [|reflexivity].
    unfold A. apply r32_comp; lra. }
  split.
  { unfold g. apply r32_comp; [lra|]. rewrite Ez. reflexivity. }
  split; assumption.
Qed.

Lemma r32_err (q : Q) :
  (0 <= q)%Q -> (Qabs (r32 q - q) <= 2 ^ (-24) * q + 2 ^ (-150))%Q.
Proof. intros H. apply (@rnd_err 24 (-149) q H). Qed.

Lemma Qfloor_near (x y : Q) :
  (x < y + 1)%Q -> Qfloor x <= Qfloor y + 1.
Proof.
  intros H. pose proof (Qfloor_le x) as Lx. pose proof (Qlt_floor y) as Uy.
  assert (L : (inject_Z (Qfloor x) < inject_Z (Qfloor y + 1 + 1))%Q).
  { rewrite (inject_Z_plus (Qfloor y + 1) 1).
    change (inject_Z 1) with 1%Q. lra. }
  rewrite <- Zlt_Qlt in L. lia.
Qed.

Lemma scaled_bound (z e b : Q) :
  (0 <= z)%Q -> (- b <= e)%Q -> (e <= b)%Q ->
  (- (z * b) <= z * e)%Q /\ (z * e <= z * b)%Q.
Proof. intros. split; nra. Qed.

Lemma scaled_le (z f : Q) : (0 <= z)%Q -> (f <= 1)%Q -> (z * f <= z)%Q.
Proof. intros. nra. Qed.

(** The effective stroke is the one of the specification up to the
    rounding of three operations. *)
Lemma effectiveStroke_near (z : Z) (s f g : Q) :
  0 <= z <= 2 ^ 22 -> (Qabs s <= 100)%Q ->
  (f == r32 (r32 (100 - Qabs s) / 100))%Q ->
  (g == r32 (inject_Z z * f))%Q ->
  spec_effectiveStroke z s - 1 <= Qtrunc g <= spec_effectiveStroke z s + 1.
Proof.
  intros Hz Hs Ef Eg. unfold spec_effectiveStroke.
  pose proof (Qabs_nonneg s) as Hn.
  set (a := (100 - Qabs s)%Q) in *.
  assert (Ba : (0 <= a <= 100)%Q) by (unfold a; lra).
  pose proof (r32_err (proj1 Ba)) as E3.
  assert (Ba' : (0 <= r32 a <= 100)%Q).
  { split; [apply r32_nonneg; lra|].
    apply Qle_trans with (y := r32 (inject_Z 100)).
    - apply r32_mono; [lra|]. change (inject_Z 100) with 100%Q. lra.
    - rewrite r32_Z by lia. apply Qle_refl. }
  set (a' := r32 a) in *.
  assert (Bx : (0 <= a' / 100 <= 1)%Q).
  { split; [apply Qle_shift_div_l | apply Qle_shift_div_r]; lra. }
  pose proof (r32_err (proj1 Bx)) as E2. rewrite <- Ef in E2.
  assert (Bf : (0 <= f <= 1)%Q).
  { rewrite Ef. split; [apply r32_nonneg; apply Bx|].
    apply Qle_trans with (y := r32 (inject_Z 1)).
    - apply r32_mono; [apply Bx|]. change (inject_Z 1) with 1%Q. apply Bx.
    - rewrite r32_Z by lia. apply Qle_refl. }
  assert (Ex : (a' / 100 == a' * (1 # 100))%Q) by field.
  rewrite Ex in E2, Bx. clear Ex.
  assert (Hq : (0 <= inject_Z z <= 4194304)%Q).
  { split; [apply inject_Z_nonneg; lia|].
    change 4194304%Q with (inject_Z (2 ^ 22)). rewrite <- Zle_Qle. lia. }
  set (zq := inject_Z z) in *.
  pose proof (scaled_le (proj1 Hq) (proj2 Bf)) as P1.
  assert (By : (0 <= zq * f)%Q)
    by (apply Qmult_le_0_compat; [apply Hq | apply Bf]).
  pose proof (r32_err By) as E1. rewrite <- Eg in E1.
  apply Qabs_Qle_condition in E1, E2, E3.
  assert (U : (2 ^ (-24) == 1 # 16777216)%Q) by reflexivity.
  rewrite U in E1, E2, E3. clear U.
  set (eta := (2 ^ (-150))%Q) in *.
  assert (Heta : (0 < eta)%Q /\ (eta <= 1 # 1000000000000)%Q)
    by (split; [reflexivity | discriminate]).
  set (E := (zq * a * (1 # 100))%Q).
  assert (BE : (0 <= E)%Q).
  { unfold E. apply Qmult_le_0_compat; [|discriminate].
    apply Qmult_le_0_compat; [apply Hq | apply Ba]. }
  assert (Near : (E - 1 < g)%Q /\ (g < E + 1)%Q).
  { destruct (@scaled_bound zq (f - a' * (1 # 100)) ((1 # 16777216) + eta))
      as [P2 P3]; [apply Hq | lra | lra |].
    destruct (@scaled_bound zq ((a' - a) * (1 # 100)) ((1 # 16777216) + eta))
      as [P4 P5]; [apply Hq | lra | lra |].
    destruct (@scaled_bound eta zq 4194304) as [_ P6]; [lra | lra | lra |].
    assert (I : (g - E ==
                 (g - zq * f) + zq * (f - a' * (1 # 100))
                 + zq * ((a' - a) * (1 # 100)))%Q) by (unfold E; ring).
    assert (D : (zq * ((1 # 16777216) + eta)
                 == (1 # 16777216) * zq + eta * zq)%Q) by ring.
    rewrite D in P2, P3, P4, P5.
    set (t1 := (g - zq * f)%Q) in *.
    set (t2 := (zq * (f - a' * (1 # 100)))%Q) in *.
    set (t3 := (zq * ((a' - a) * (1 # 100)))%Q) in *.
    set (t4 := (eta * zq)%Q) in *. set (t5 := (zq * f)%Q) in *.
    clearbody t1 t2 t3 t4 t5 E eta.
    clear - I E1 P1 P2 P3 P4 P5 P6 Heta Hq.
    split; lra. }
  assert (Bg : (0 <= g)%Q) by (rewrite Eg; apply r32_nonneg; lra).
  assert (EE : (zq * (100 - Qabs s) / 100 == E)%Q) by (unfold E, a; field).
  fold a. fold a in EE.
  rewrite (Qtrunc_comp EE).
  rewrite !Qtrunc_floor by assumption.
  destruct Near as [N1 N2].
  pose proof (@Qfloor_near g E N2). pose proof (@Qfloor_near E g ltac:(lra)).
  lia.
Qed.

(* ================================================================== *)
(** ** The effective stroke of Insist *)

(** In binary32 the effective stroke of Insist is not the
    [strokeLengthSteps * (100 - |sensation|) / 100] of the specification:
    with a stroke of 100 steps and the sensation 41 the fraction is the
    [float] next to 0.59, the product rounds to 58.999996, and the effective
    stroke is 58, not 59; and a stroke of 16777219 steps, which no [float]
    holds, has the effective stroke 16777220 at the sensation 0 (a
    counterexample to claim C9). *)
Lemma insist_effective_stroke_counterexample :
  (exists q,
     Binary32.Insist_updateRealStroke
       (withSensation 41 (Insist.init 100 100 100)) = Some q /\
     Insist._realStroke q = 58 /\
     spec_effectiveStroke 100 41 = 59) /\
  (exists q,
     Binary32.Insist_updateRealStroke
       (withSensation 0 (Insist.init 16777219 20000000 100)) = Some q /\
     Insist._realStroke q = 16777220).
Proof.
  split; eexists; (split; [vm_compute; reflexivity|]); repeat split.
Qed.

(** Claim C9 (amended): for Insist with a stroke of at most [2 ^ 24] steps
    and a sensation of [[-100, 100]], the effective stroke [_realStroke], as
    it is computed in binary32, lies between 0 and [strokeLengthSteps]; it
    is [strokeLengthSteps] exactly at sensation 0, it does not grow when
    [|sensation|] grows, and it is 0 at [|sensation| = 100].  For a stroke of
    at most [2 ^ 22] steps it differs from
    [strokeLengthSteps * (100 - |sensation|) / 100] (in whole steps) by at
    most one step.  The flag [_strokeInFront] is set exactly for a positive
    sensation; it places the shortened stroke next to the full depth
    (targets [_depth - _realStroke] and [_depth]), and a non-positive
    sensation places it next to the full retraction (targets
    [_depth - _stroke] and [_depth - _stroke + _realStroke]). *)
Theorem insist_effective_stroke (p : Insist.t) (s1 s2 : Q) :
  let z := Pattern._stroke (Insist.base p) in
  let d := Pattern._depth (Insist.base p) in
  0 <= z <= 2 ^ 24 ->
  (Qabs s1 <= Qabs s2)%Q -> (Qabs s2 <= 100)%Q ->
  exists q1 q2,
    Binary32.Insist_updateRealStroke (withSensation s1 p) = Some q1 /\
    Binary32.Insist_updateRealStroke (withSensation s2 p) = Some q2 /\
    0 <= Insist._realStroke q2 /\
    Insist._realStroke q2 <= Insist._realStroke q1 /\
    Insist._realStroke q1 <= z /\
    ((s1 == 0)%Q -> Insist._realStroke q1 = z) /\
    ((Qabs s2 == 100)%Q -> Insist._realStroke q2 = 0) /\
    (z <= 2 ^ 22 ->
     spec_effectiveStroke z s1 - 1 <= Insist._realStroke q1
     <= spec_effectiveStroke z s1 + 1) /\
    (Insist._strokeInFront q1 = true <-> (0 < s1)%Q) /\
    (forall index m p',
       Pattern._speed (Insist.base p) <> 0 ->
       Binary32.Insist_nextTarget index (withSensation s1 p) = Some (m, p') ->
       stroke m =
         if Insist._strokeInFront q1 then
           if odd_stroke index
           then constrain (wrap_int (d - Insist._realStroke q1)) 0 d
           else d
         else
           if odd_stroke index
           then constrain (wrap_int (d - z)) 0 d
           else constrain (wrap_int (wrap_int (d - z)
                                     + Insist._realStroke q1)) 0 d).
Proof.
  intros z d Hz H12 H2.
  assert (H1 : (Qabs s1 <= 100)%Q) by lra.
  pose proof (Qabs_nonneg s1) as N1.
  destruct (@Insist_updateRealStroke_Fin (withSensation s1 p) s1 Hz eq_refl H1)
    as (f1 & g1 & E1 & F1 & G1 & Bf1 & Bg1).
  destruct (@Insist_updateRealStroke_Fin (withSensation s2 p) s2 Hz eq_refl H2)
    as (f2 & g2 & E2 & F2 & G2 & Bf2 & Bg2).
  cbn [withSensation Insist.upd_base Insist.base Pattern.setSensation
       Pattern._stroke Insist._timeOfStroke] in *. fold z in G1, G2, Bg1, Bg2.
  pose proof (inject_Z_nonneg (proj1 Hz)) as Hq.
  (* the fraction does not grow with the sensation *)
  assert (A12 : (r32 (100 - Qabs s2) <= r32 (100 - Qabs s1))%Q)
    by (apply r32_mono; lra).
  assert (A2 : (0 <= r32 (100 - Qabs s2))%Q) by (apply r32_nonneg; lra).
  assert (F12 : (f2 <= f1)%Q).
  { rewrite F1, F2. apply r32_mono.
    - apply Qle_shift_div_l; [reflexivity | lra].
    - apply Qmult_le_compat_r; [exact A12 | discriminate]. }
  assert (G12 : (g2 <= g1)%Q).
  { rewrite G1, G2. apply r32_mono.
    - apply Qmult_le_0_compat; [exact Hq | apply Bf2].
    - rewrite (Qmult_comm _ f2), (Qmult_comm _ f1).
      apply Qmult_le_compat_r; [exact F12 | exact Hq]. }
  eexists. eexists. split; [exact E1|]. split; [exact E2|].
  cbn [Insist._realStroke Insist._strokeInFront].
  assert (T0 : 0 <= Qtrunc g2).
  { apply Qtrunc_nonneg. apply Bg2. }
  assert (T12 : Qtrunc g2 <= Qtrunc g1) by (apply Qtrunc_mono; exact G12).
  assert (T1 : Qtrunc g1 <= z).
  { rewrite <- (Qtrunc_inject_Z z). apply Qtrunc_mono. apply Bg1. }
  split; [exact T0|]. split; [exact T12|]. split; [exact T1|].
  split.
  { (* sensation 0 *)
    intros E0. rewrite <- (Qtrunc_inject_Z z). apply Qtrunc_comp.
    rewrite G1.
    assert (Ef : (f1 == 1)%Q).
    { rewrite F1.
      assert (X : (r32 (100 - Qabs s1) == 100)%Q).
      { transitivity (r32 (inject_Z 100)); [|apply r32_Z; lia].
        apply r32_comp; [lra|]. rewrite E0. reflexivity. }
      transitivity (r32 (inject_Z 1)); [|apply r32_Z; lia].
      apply r32_comp; [apply Qle_shift_div_l; [reflexivity | lra]|].
      rewrite X. reflexivity. }
    transitivity (r32 (inject_Z z)); [|apply r32_Z; exact Hz].
    apply r32_comp; [apply Qmult_le_0_compat; [exact Hq | apply Bf1]|].
    rewrite Ef. ring. }
  split.
  { (* sensation 100 or -100 *)
    intros E100. change 0 with (Qtrunc 0). apply Qtrunc_comp.
    rewrite G2.
    assert (Ef : (f2 == 0)%Q).
    { rewrite F2. apply r32_zero.
      assert (X : (r32 (100 - Qabs s2) == 0)%Q)
        by (apply r32_zero; rewrite E100; reflexivity).
      rewrite X. reflexivity. }
    apply r32_zero. rewrite Ef. ring. }
  split.
  { intros Hz22. apply (@effectiveStroke_near z s1 f1 g1); trivial. lia. }
  split.
  { destruct (fgt (Fin s1) (Fin 0)) eqn:G.
    - split; [intros _; now apply fgt_Fin_0 | reflexivity].
    - split; [discriminate|]. intros H. apply fgt_Fin_0 in H. congruence. }
  intros index m p' Hv H. unfold Binary32.Insist_nextTarget in H.
  replace (Pattern._speed (Insist.base (withSensation s1 p)))
    with (Pattern._speed (Insist.base p)) in H by reflexivity.
  destruct (Z.eqb_spec (Pattern._speed (Insist.base p)) 0) as [|_];
    [contradiction|].
  cbv zeta in H.
  set (p1 := Insist.set_timeOfStroke _ _) in H.
  destruct (@Insist_updateRealStroke_Fin p1 s1 Hz eq_refl H1)
    as (f & g & E & F & G & _ & _).
  rewrite E in H. cbn [bind] in H.
  inv_bind H. inv_bind H. injection H as <- _.
  cbn [stroke Insist.base Insist._realStroke Insist._strokeInFront p1
       Insist.set_timeOfStroke Insist.upd_base Pattern._depth Pattern._stroke
       Pattern.setSensation].
  fold d z.
  assert (Eg : Qtrunc g = Qtrunc g1).
  { apply Qtrunc_comp. rewrite G, G1.
    cbn [p1 Insist.set_timeOfStroke Insist.base Insist.upd_base
         Pattern._stroke Pattern.setSensation]. fold z.
    apply r32_comp.
    - apply Qmult_le_0_compat; [exact Hq|]. rewrite F. apply r32_nonneg.
      apply Qle_shift_div_l; [reflexivity|].
      assert (0 <= r32 (100 - Qabs s1))%Q by (apply r32_nonneg; lra). lra.
    - rewrite F, F1. reflexivity. }
  rewrite Eg. reflexivity.
Qed.

Lemma insist_effective_stroke_witness :
  let p := Insist.init 1000 1000 100 in
  exists q1 q2,
    Binary32.Insist_updateRealStroke (withSensation 25 p) = Some q1 /\
    Binary32.Insist_updateRealStroke (withSensation (-50) p) = Some q2 /\
    0 <= Insist._realStroke q2 /\
    Insist._realStroke q2 <= Insist._realStroke q1 /\
    Insist._realStroke q1 <= 1000 /\
    (Insist._strokeInFront q1 = true <-> (0 < 25)%Q).
Proof.
  cbv zeta.
  assert (Hz : 0 <= 1000 <= 2 ^ 24) by (split; discriminate).
  assert (H2 : (Qabs 25 <= Qabs (-50))%Q) by discriminate.
  assert (H3 : (Qabs (-50) <= 100)%Q) by discriminate.
  destruct (@insist_effective_stroke (Insist.init 1000 1000 100) 25 (-50)
              Hz H2 H3)
    as (q1 & q2 & E1 & E2 & R0 & R12 & R1 & _ & _ & _ & F & _).
  exists q1, q2. repeat split; trivial; apply F.
Defined.

(* ================================================================== *)
(** ** The idle fallback *)

Lemma Pattern_idle (b : Pattern.t) :
  in_uint (Pattern._maxSpeed b) -> in_uint (Pattern._maxAcceleration b) ->
  in_int (Pattern._depth b - Pattern._stroke b) ->
  Pattern._setIdleState b =
  Some (spec_idle_command b, Pattern.set_nextMove (spec_idle_command b) b).
Proof.
  intros Hs Ha Hd. unfold Pattern._setIdleState.
  rewrite idle_speed, idle_acceleration by trivial. cbn [bind].
  rewrite wrap_int_id by trivial. reflexivity.
Qed.

(** SimplePenetration at rest with depth 1000 and stroke 400 returns the
    target position 0, where the idle-fallback command has the target
    position [clamp(1000 - 400, 0, 1000) = 600] (a counterexample to
    claim C2). *)
Lemma idle_fallback_counterexample :
  let p := resting_SimplePenetration in
  Pattern._speed (base_of p) = 0 /\
  stroke (spec_idle_command (base_of p)) = 600 /\
  (exists m p', nextTarget 1 0 p = Some (m, p') /\ stroke m = 0) /\
  (forall p', nextTarget 1 0 p <> Some (spec_idle_command (base_of p), p')).
Proof.
  cbv zeta. split; [reflexivity|]. split; [reflexivity|]. split.
  - do 2 eexists. split; reflexivity.
  - intros p' H. vm_compute in H. discriminate.
Qed.

(** *** The idle state of Insist in binary64 and binary32 *)

Lemma to_int_comp (p q : Q) : (p == q)%Q -> to_int (Fin p) = to_int (Fin q).
Proof. intros E. unfold to_int. now rewrite (Qtrunc_comp E). Qed.

Lemma Qfloor_unique (x : Q) (k : Z) :
  (inject_Z k <= x)%Q -> (x < inject_Z k + 1)%Q -> Qfloor x = k.
Proof.
  intros L U.
  pose proof (Qfloor_le x) as Lx. pose proof (Qlt_floor x) as Ux.
  rewrite inject_Z_plus in Ux. change (inject_Z 1) with 1%Q in Ux.
  assert (A : (inject_Z (Qfloor x) < inject_Z (k + 1))%Q).
  { rewrite inject_Z_plus. change (inject_Z 1) with 1%Q. lra. }
  assert (B : (inject_Z k < inject_Z (Qfloor x + 1))%Q).
  { rewrite inject_Z_plus. change (inject_Z 1) with 1%Q. lra. }
  rewrite <- Zlt_Qlt in A, B. lia.
Qed.

(** [int(0.05 * _maxSpeed)]: the [double] next to 0.05 is above 0.05 by
    less than [2 ^ -58], and the product, rounded, is truncated to 5% of
    the limit. *)
Lemma idle_speed64 (m : Z) :
  in_uint m ->
  to_int (fmul64 (round64 (Fin 0.05)) (of_int m)) = Some (5 * m / 100).
Proof.
  intros Hm. unfold in_uint, UINT_MAX in Hm.
  assert (E : round64 (Fin 0.05)
              = Fin (3602879701896397 # 72057594037927936))
    by (vm_compute; reflexivity).
  rewrite E. unfold fmul64, of_int. cbn [fmul].
  set (d := (3602879701896397 # 72057594037927936)%Q).
  set (k := m / 20).
  assert (Hk : 20 * k <= m <= 20 * k + 19) by (unfold k; lia).
  assert (Kq : (20 * inject_Z k <= inject_Z m)%Q
               /\ (inject_Z m <= 20 * inject_Z k + 19)%Q).
  { change 20%Q with (inject_Z 20). change 19%Q with (inject_Z 19).
    rewrite <- !inject_Z_mult, <- inject_Z_plus, <- !Zle_Qle. lia. }
  assert (Mq : (0 <= inject_Z m <= 4294967295)%Q).
  { change 0%Q with (inject_Z 0).
    change 4294967295%Q with (inject_Z (2 ^ 32 - 1)).
    rewrite <- !Zle_Qle. lia. }
  assert (K0 : (0 <= inject_Z k)%Q) by (apply inject_Z_nonneg; lia).
  assert (Bd : (inject_Z k <= d * inject_Z m)%Q
               /\ (d * inject_Z m <= inject_Z k + (31 # 32))%Q).
  { unfold d. set (x := inject_Z m) in *. set (y := inject_Z k) in *.
    clearbody x y. split; lra. }
  rewrite (@round64_Fin (d * inject_Z m)) by lra.
  assert (F1 : (r64 (inject_Z k) == inject_Z k)%Q).
  { apply r64_Z. change (2 ^ 53) with 9007199254740992. lia. }
  assert (F2 : (r64 (inject_Z k + (31 # 32)) == inject_Z k + (31 # 32))%Q).
  { apply rnd_fix with (m := 32 * k + 31) (e := -5); [reflexivity| | |lia].
    - rewrite inject_Z_plus, inject_Z_mult.
      change (2 ^ (-5))%Q with (1 # 32)%Q.
      change (inject_Z 32) with 32%Q. change (inject_Z 31) with 31%Q. field.
    - change (2 ^ 53) with 9007199254740992. lia. }
  assert (Br : (inject_Z k <= r64 (d * inject_Z m))%Q
               /\ (r64 (d * inject_Z m) < inject_Z k + 1)%Q).
  { split.
    - rewrite <- F1. apply r64_mono; lra.
    - apply Qle_lt_trans with (y := (inject_Z k + (31 # 32))%Q); [|lra].
      rewrite <- F2. apply r64_mono; lra. }
  assert (T : Qtrunc (r64 (d * inject_Z m)) = k).
  { rewrite Qtrunc_floor by lra. apply Qfloor_unique; apply Br. }
  rewrite to_int_Fin; rewrite T.
  - f_equal. unfold k. lia.
  - unfold in_int, INT_MIN, INT_MAX. lia.
Qed.

(** [int(0.5 * _maxAcceleration)]: the product is exact. *)
Lemma idle_acceleration64 (m : Z) :
  in_uint m ->
  to_int (fmul64 (Fin 0.5) (of_int m)) = Some (50 * m / 100).
Proof.
  intros Hm. rewrite <- (idle_acceleration Hm).
  unfold in_uint, UINT_MAX in Hm.
  unfold fmul64, of_int. cbn [fmul].
  assert (Mq : (0 <= inject_Z m <= 4294967295)%Q).
  { change 0%Q with (inject_Z 0).
    change 4294967295%Q with (inject_Z (2 ^ 32 - 1)).
    rewrite <- !Zle_Qle. lia. }
  rewrite (@round64_Fin (0.5 * inject_Z m)) by lra.
  apply to_int_comp.
  apply rnd_fix with (m := m) (e := -1); [reflexivity| | |lia].
  - change (2 ^ (-1))%Q with (1 # 2)%Q. field.
  - change (2 ^ 53) with 9007199254740992. lia.
Qed.

(** Claim C2 (amended): whenever [_speed == 0], [nextTarget] returns the
    idle command, whatever the index, the sensation and the internal state:
    speed 5% of [_maxSpeed], acceleration 50% of [_maxAcceleration], no skip,
    and the target position
    - [clamp(_depth - _stroke, 0, _depth)] for TeasingPounding, RoboStroke,
      HalfnHalf, Deeper and StopNGo, and for Insist with a sensation that
      is not positive;
    - 0 for SimplePenetration;
    - [clamp(_depth - _realStroke, 0, _depth)] for Insist with a positive
      sensation, [_realStroke] being the effective stroke that
      [_updateRealStroke] computes in binary32 (for a stroke of at most
      [2 ^ 24] steps). *)
Theorem idle_fallback (p : pattern) (index millis : Z) :
  let b := base_of p in
  Pattern._speed b = 0 ->
  well_typed b ->
  in_int (Pattern._depth b - Pattern._stroke b) ->
  match p with
  | ASimplePenetration _ =>
      exists p', nextTarget index millis p =
                 Some (with_stroke 0 (spec_idle_command b), p')
  | AInsist q =>
      forall s, Pattern._sensation b = Fin s -> (-100 <= s <= 100)%Q ->
        0 <= Pattern._stroke b <= 2 ^ 24 ->
        exists r p',
          Binary32.Insist_updateRealStroke q = Some r /\
          Binary32.Insist_nextTarget index q =
            Some (if Qlt_le_dec 0 s then
                    with_stroke
                      (constrain
                         (Pattern._depth b - Insist._realStroke r)
                         0 (Pattern._depth b))
                      (spec_idle_command b)
                  else spec_idle_command b, p')
  | _ =>
      exists p', nextTarget index millis p = Some (spec_idle_command b, p')
  end.
Proof.
  intros b Hv [Hz Hd _ Hs Ha] Hds.
  destruct p as [p|p|p|p|p|p|p]; cbn [base_of] in b; subst b;
    cbn [nextTarget].
  - unfold SimplePenetration.nextTarget. rewrite Hv. cbn [Z.eqb].
    unfold SimplePenetration._setIdleState. cbv zeta.
    rewrite idle_speed, idle_acceleration by trivial. cbn [bind tag].
    eexists. reflexivity.
  - unfold TeasingPounding.nextTarget, TeasingPounding._setIdleState.
    rewrite Hv, Pattern_idle by trivial. cbn [Z.eqb bind tag fst].
    eexists. reflexivity.
  - unfold RoboStroke.nextTarget, RoboStroke._setIdleState.
    rewrite Hv, Pattern_idle by trivial. cbn [Z.eqb bind tag fst].
    eexists. reflexivity.
  - unfold HalfnHalf.nextTarget, HalfnHalf._setIdleState.
    rewrite Hv, Pattern_idle by trivial. cbn [Z.eqb bind tag fst].
    eexists. reflexivity.
  - unfold Deeper.nextTarget, Deeper._setIdleState.
    rewrite Hv, Pattern_idle by trivial. cbn [Z.eqb bind tag fst].
    eexists. reflexivity.
  - unfold StopNGo.nextTarget, StopNGo._setIdleState.
    rewrite Hv, Pattern_idle by trivial. cbn [Z.eqb bind tag fst].
    eexists. reflexivity.
  - intros s Hsens Hr Hz24.
    unfold Binary32.Insist_nextTarget, Binary32.Insist_setIdleState.
    rewrite Hv. cbn [Z.eqb]. cbv zeta.
    rewrite idle_speed64, idle_acceleration64 by trivial. cbn [bind].
    destruct (@Insist_updateRealStroke_Fin p s Hz24 Hsens
                ltac:(apply Qabs_le_100; exact Hr))
      as (f & g & -> & _ & _ & _ & Bg).
    cbn [bind Insist._strokeInFront Insist._realStroke].
    assert (Tg : 0 <= Qtrunc g <= Pattern._stroke (Insist.base p)).
    { destruct Bg as [G1 G2]. apply Qtrunc_mono in G1, G2.
      rewrite Qtrunc_inject_Z in G2. change (Qtrunc 0) with 0 in G1. lia. }
    rewrite (wrap_int_id (z:=Pattern._depth _ - Pattern._stroke _))
      by trivial.
    rewrite (wrap_int_id (z:=Pattern._depth _ - Qtrunc g))
      by (unfold in_int, INT_MIN, INT_MAX in *; lia).
    destruct (Qlt_le_dec 0 s) as [H|H].
    + apply fgt_Fin_0 in H. rewrite H.
      do 2 eexists. split; reflexivity.
    + assert (E : fgt (Fin s) (Fin 0) = false).
      { destruct (fgt (Fin s) (Fin 0)) eqn:G; trivial.
        apply fgt_Fin_0 in G. lra. }
      rewrite E. do 2 eexists. split; reflexivity.
Qed.

Lemma idle_fallback_witness :
  let p := started (ADeeper (Deeper.init 0 0 0)) 1000 10000 1000 400 0 in
  exists p', nextTarget 7 0 p =
             Some ({| stroke := 600; speed := 50; acceleration := 5000;
                      skip := false |}, p').
Proof.
  cbv zeta.
  refine (@idle_fallback
            (started (ADeeper (Deeper.init 0 0 0)) 1000 10000 1000 400 0)
            7 0 _ _ _).
  - reflexivity.
  - constructor; split; discriminate.
  - split; discriminate.
Defined.

(* ================================================================== *)
(** ** The pause of StopNGo *)

Lemma delayAfter_Fin (s : Q) (p : StopNGo.t) :
  (-100 <= s <= 100)%Q ->
  delayAfter (Fin s) p = Some (map (Qtrunc s) (-100) 100 100 10000).
Proof.
  intros Hs. destruct (to_long_Fin Hs) as [E _].
  unfold delayAfter, StopNGo.setSensation, StopNGo.delayOfSensation.
  now rewrite E.
Qed.

(** After [setSensation(-100)] the delay is 100 ms and after
    [setSensation(100)] it is 10000 ms: the delay grows with the sensation
    (a counterexample to claim C3, which has 10000 ms and 100 ms). *)
Lemma stopngo_delay_counterexample :
  delayAfter (Fin (-100)) (StopNGo.init 0 0 0) = Some 100 /\
  delayAfter (Fin 100) (StopNGo.init 0 0 0) = Some 10000 /\
  delayAfter (Fin (-100)) (StopNGo.init 0 0 0) <> Some 10000 /\
  delayAfter (Fin 100) (StopNGo.init 0 0 0) <> Some 100.
Proof. repeat split; try reflexivity; discriminate. Qed.

(** Claim C3 (amended): for StopNGo, after [setSensation(s)] with [s] in
    [[-100, 100]], the stored delay is
    [(trunc(s) + 100) * 9900 / 200 + 100] milliseconds: a linear function of
    the sensation, up to the truncations of the integer arithmetic, that
    does not decrease when the sensation grows, equal to 100 ms at
    [s = -100] and to 10000 ms at [s = 100]. *)
Theorem stopngo_delay (p : StopNGo.t) (s1 s2 : Q) :
  (-100 <= s1)%Q -> (s1 <= s2)%Q -> (s2 <= 100)%Q ->
  exists d1 d2,
    delayAfter (Fin s1) p = Some d1 /\
    delayAfter (Fin s2) p = Some d2 /\
    d1 = (Qtrunc s1 + 100) * 9900 / 200 + 100 /\
    100 <= d1 /\ d1 <= d2 /\ d2 <= 10000 /\
    ((s1 == -100)%Q -> d1 = 100) /\
    ((s2 == 100)%Q -> d2 = 10000).
Proof.
  intros H1 H12 H2.
  destruct (@to_long_Fin s1 ltac:(lra)) as [_ Z1].
  destruct (@to_long_Fin s2 ltac:(lra)) as [_ Z2].
  pose proof (Qtrunc_mono H12) as Hz.
  exists (map (Qtrunc s1) (-100) 100 100 10000),
         (map (Qtrunc s2) (-100) 100 100 10000).
  rewrite !delayAfter_Fin by lra.
  pose proof (@map_mono (Qtrunc s1) (Qtrunc s2) (-100) 100 100 10000) as M.
  split; [reflexivity|]. split; [reflexivity|].
  split; [rewrite map_in_range by lia; reflexivity|].
  split; [lia|]. split; [lia|]. split; [lia|]. split.
  - intros E. rewrite (Qtrunc_comp E). reflexivity.
  - intros E. rewrite (Qtrunc_comp E). reflexivity.
Qed.

Lemma stopngo_delay_witness :
  exists d1 d2,
    delayAfter (Fin (-30)) (StopNGo.init 0 0 0) = Some d1 /\
    delayAfter (Fin 45.5) (StopNGo.init 0 0 0) = Some d2 /\
    d1 = (Qtrunc (-30) + 100) * 9900 / 200 + 100 /\
    100 <= d1 /\ d1 <= d2 /\ d2 <= 10000 /\
    ((-30 == -100)%Q -> d1 = 100) /\
    ((45.5 == 100)%Q -> d2 = 10000).
Proof.
  apply (@stopngo_delay (StopNGo.init 0 0 0) (-30) 45.5); discriminate.
Defined.

(* ================================================================== *)
(** ** The ramp of Deeper *)

Lemma countStrokesForRamp_Fin (s : Q) :
  (-100 <= s <= 100)%Q ->
  exists r, Deeper.countStrokesForRamp (Fin s) = Some r /\
    (if flt (Fin s) (of_int 0) then
       r = map (Qtrunc s) (-100) 0 2 11 /\ -100 <= Qtrunc s <= 0
     else r = map (Qtrunc s) 0 100 11 32 /\ 0 <= Qtrunc s <= 100).
Proof.
  intros Hs. destruct (to_long_Fin Hs) as [E Hz].
  unfold Deeper.countStrokesForRamp. rewrite E.
  destruct (flt (Fin s) (of_int 0)) eqn:F; eexists;
    (split; [reflexivity|]); split; trivial.
  - apply flt_Fin_0 in F. pose proof (@Qtrunc_nonpos s ltac:(lra)). lia.
  - assert (~ (s < 0)%Q) by (rewrite <- flt_Fin_0, F; discriminate).
    pose proof (@Qtrunc_nonneg s ltac:(lra)). lia.
Qed.

(** The cycle index of the two strokes of the pair [k]. *)
Lemma cycleIndex_pair (k r : Z) :
  0 <= k -> 1 <= r <= INT_MAX ->
  Deeper.cycleIndex (2 * k) r = k mod r + 1 /\
  Deeper.cycleIndex (2 * k + 1) r = k mod r + 1.
Proof.
  intros Hk Hr. unfold INT_MAX in Hr. unfold Deeper.cycleIndex.
  replace (2 * k + 1) with (1 + k * 2) by lia.
  rewrite Z.div_add by lia. replace (2 * k) with (k * 2) by lia.
  rewrite Z.div_mul by lia. rewrite Z.add_0_l.
  rewrite (wrap_uint_id (z:=r)) by (unfold in_uint, UINT_MAX; lia).
  pose proof (Z.mod_pos_bound k r ltac:(lia)).
  rewrite (wrap_uint_id (z:=_ + 1)) by (unfold in_uint, UINT_MAX; lia).
  rewrite wrap_int_id by (unfold in_int, INT_MIN, INT_MAX; lia). auto.
Qed.

(** Claim C8: for Deeper, the ramp length computed from a sensation of
    [[-100, 100]] lies within [[2, 32]] and does not decrease when the
    sensation grows; and for a ramp length [r], the cycle index of the
    stroke pair [k] (both indices [2k] and [2k+1]) is [k mod r + 1], a
    value of [1..r] that is the same [r] pairs later and that runs through
    [1, 2, .., r] over the pairs [0 .. r-1]. *)
Theorem deeper_ramp (s1 s2 : Q) (k : Z) :
  (-100 <= s1)%Q -> (s1 <= s2)%Q -> (s2 <= 100)%Q -> 0 <= k ->
  exists r1 r2,
    Deeper.countStrokesForRamp (Fin s1) = Some r1 /\
    Deeper.countStrokesForRamp (Fin s2) = Some r2 /\
    2 <= r1 /\ r1 <= r2 /\ r2 <= 32 /\
    Deeper.cycleIndex (2 * k) r1 = k mod r1 + 1 /\
    Deeper.cycleIndex (2 * k + 1) r1 = k mod r1 + 1 /\
    1 <= Deeper.cycleIndex (2 * k) r1 <= r1 /\
    Deeper.cycleIndex (2 * (k + r1)) r1 = Deeper.cycleIndex (2 * k) r1 /\
    (k < r1 -> Deeper.cycleIndex (2 * k) r1 = k + 1).
Proof.
  intros H1 H12 H2 Hk.
  destruct (@countStrokesForRamp_Fin s1 ltac:(lra)) as (r1 & E1 & R1).
  destruct (@countStrokesForRamp_Fin s2 ltac:(lra)) as (r2 & E2 & R2).
  exists r1, r2. split; [exact E1|]. split; [exact E2|].
  pose proof (Qtrunc_mono H12) as Hz.
  assert (B : 2 <= r1 /\ r1 <= r2 /\ r2 <= 32).
  { destruct (flt (Fin s1) (of_int 0)) eqn:F1,
             (flt (Fin s2) (of_int 0)) eqn:F2;
      destruct R1 as [-> Z1], R2 as [-> Z2].
    - pose proof (@map_mono (Qtrunc s1) (Qtrunc s2) (-100) 0 2 11). lia.
    - pose proof (@map_mono (Qtrunc s1) (Qtrunc s1) (-100) 0 2 11).
      pose proof (@map_mono (Qtrunc s2) (Qtrunc s2) 0 100 11 32). lia.
    - apply flt_Fin_0 in F2.
      assert (~ (s1 < 0)%Q) by (rewrite <- flt_Fin_0, F1; discriminate).
      lra.
    - pose proof (@map_mono (Qtrunc s1) (Qtrunc s2) 0 100 11 32). lia. }
  destruct B as (B1 & B2 & B3). repeat (split; [assumption|]).
  assert (Hr : 1 <= r1 <= INT_MAX) by (unfold INT_MAX; lia).
  destruct (cycleIndex_pair Hk Hr) as [C1 C2].
  destruct (@cycleIndex_pair (k + r1) r1 ltac:(lia) Hr) as [C3 _].
  pose proof (Z.mod_pos_bound k r1 ltac:(lia)).
  rewrite C1, C2, C3. repeat split; try lia.
  - replace (k + r1) with (k + 1 * r1) by lia. now rewrite Z.mod_add by lia.
  - intros Hlt. rewrite Z.mod_small; lia.
Qed.

Lemma deeper_ramp_witness :
  exists r1 r2,
    Deeper.countStrokesForRamp (Fin (-100)) = Some r1 /\
    Deeper.countStrokesForRamp (Fin 100) = Some r2 /\
    2 <= r1 /\ r1 <= r2 /\ r2 <= 32 /\
    Deeper.cycleIndex (2 * 7) r1 = 7 mod r1 + 1 /\
    Deeper.cycleIndex (2 * 7 + 1) r1 = 7 mod r1 + 1 /\
    1 <= Deeper.cycleIndex (2 * 7) r1 <= r1 /\
    Deeper.cycleIndex (2 * (7 + r1)) r1 = Deeper.cycleIndex (2 * 7) r1 /\
    (7 < r1 -> Deeper.cycleIndex (2 * 7) r1 = 7 + 1).
Proof.
  apply (@deeper_ramp (-100) 100 7); discriminate.
Defined.

(* ================================================================== *)
(** ** The timing split of TeasingPounding and HalfnHalf *)

(** The divisor of the fast stroke: the magnitude of the sensation scaled
    into [[1, 5]]. *)
Lemma fast_scale (s : Q) :
  exists c,
    fscale (Fin 0) (Fin 100) (Fin 1) (Fin 5) (fabs (Fin s)) = Fin c /\
    (1 <= c <= 5)%Q /\ ((s == 0)%Q -> (c == 1)%Q).
Proof.
  destruct (fabs_Fin s) as (a & -> & Ha).
  rewrite fscale_Fin by lra. eexists. split; [reflexivity|].
  pose proof (@Qclamp_bounds a 0 100 ltac:(lra)) as Hc.
  assert (E : (1 + (Qclamp a 0 100 - 0) / (100 - 0) * (5 - 1) ==
               1 + Qclamp a 0 100 * (1 # 25))%Q) by field.
  split.
  - rewrite E. lra.
  - intros E0. rewrite E0 in Ha. change (Qabs 0) with 0%Q in Ha.
    rewrite E, (Qclamp_id (v:=a)) by lra. rewrite Ha. reflexivity.
Qed.

(** *** The times of the two strokes in binary32 *)

Lemma is_binary32_Fin (t : Q) :
  (0 <= t)%Q -> is_binary32 (Fin t) = true ->
  (r32 t == t)%Q /\ (t < 2 ^ 128)%Q.
Proof.
  intros Ht H. unfold is_binary32, round32, round in H.
  change (rnd 24 (3 - 128 - 24) t) with (r32 t) in H.
  destruct (Qle_bool (2 ^ 128) (Qabs (r32 t))) eqn:C.
  - destruct (Qle_bool 0 t); discriminate.
  - cbn [feqb] in H. apply Qeq_bool_iff in H. split; [exact H|].
    assert (C' : ~ (2 ^ 128 <= Qabs (r32 t))%Q).
    { intros L. apply Qle_bool_iff in L. congruence. }
    rewrite H, Qabs_pos in C' by exact Ht. lra.
Qed.

Lemma r32_bounds (x lo hi : Q) :
  (0 <= lo)%Q -> (lo <= x <= hi)%Q -> (r32 lo == lo)%Q -> (r32 hi == hi)%Q ->
  (lo <= r32 x <= hi)%Q.
Proof.
  intros H0 Hx El Eh. split.
  - rewrite <- El. apply r32_mono; lra.
  - rewrite <- Eh. apply r32_mono; lra.
Qed.

Lemma round32_Fin_le (q b : Q) :
  (0 <= q <= b)%Q -> (r32 b == b)%Q -> (b < 2 ^ 128)%Q ->
  round32 (Fin q) = Fin (r32 q).
Proof.
  intros Hq Eb Hb. apply (@round_Fin 24 128 q).
  - apply r32_nonneg. lra.
  - apply Qle_lt_trans with (y := b); [|exact Hb].
    rewrite <- Eb. apply r32_mono; lra.
Qed.

(** Half a value of binary32 is a value of binary64, and of binary32 where
    the value is at least [2 ^ -125]. *)
Lemma half_binary (t : Q) :
  (r32 t == t)%Q -> (t == 0 \/ 2 ^ (-125) <= t)%Q ->
  (r64 (0.5 * t) == 0.5 * t)%Q /\ (r32 (0.5 * t) == 0.5 * t)%Q.
Proof.
  intros E [Z0|L].
  - assert (Z1 : (0.5 * t == 0)%Q) by (rewrite Z0; ring).
    rewrite (r64_zero Z1), (r32_zero Z1), Z1. split; reflexivity.
  - assert (Ht : (0 < t)%Q) by lra.
    assert (N : ~ (t == 0)%Q) by lra.
    assert (B : -125 <= binade t).
    { destruct (binade_spec N) as [_ U].
      rewrite Qabs_pos in U by lra.
      assert (X : -125 < binade t + 1)
        by (apply p2_lt_inv; apply Qle_lt_trans with (1 := L); exact U).
      lia. }
    assert (Eh : (0.5 * t == t * 2 ^ (-1))%Q).
    { change (2 ^ (-1))%Q with (/ 2)%Q. field. }
    split.
    + assert (X : (r64 (0.5 * t) == r64 (t * 2 ^ (-1)))%Q)
        by (apply r64_comp; lra).
      rewrite X, Eh.
      apply (@rnd_fix_scaled 24 (-149) 53 (-1074) t (-1));
        try reflexivity; trivial; try lia.
      unfold ulp_exp. lia.
    + assert (X : (r32 (0.5 * t) == r32 (t * 2 ^ (-1)))%Q)
        by (apply r32_comp; lra).
      rewrite X, Eh.
      apply (@rnd_fix_scaled 24 (-149) 24 (-149) t (-1));
        try reflexivity; trivial; try lia.
      unfold ulp_exp. lia.
Qed.

(** The time of the faster stroke [i] and of the slower one [o], for a
    time of stroke [t] and a scale [c] of the sensation. *)
Lemma timing_split (t c : Q) :
  (0 <= t)%Q -> is_binary32 (Fin t) = true ->
  (t == 0 \/ 2 ^ (-125) <= t)%Q -> (1 <= c <= 5)%Q ->
  exists i o,
    round32 (fdiv64 (fmul64 (Fin 0.5) (Fin t)) (round32 (Fin c))) = Fin i /\
    fsub32 (Fin t) (Fin i) = Fin o /\
    (0 <= i)%Q /\ (i <= o)%Q /\ (o <= t)%Q /\
    (Qabs (i + o - t) <= 2 ^ (-24) * t)%Q /\
    ((c == 1)%Q -> (i == o)%Q /\ (i + o == t)%Q).
Proof.
  intros Ht Hb Hn Hc.
  destruct (is_binary32_Fin Ht Hb) as [Et Ut].
  destruct (half_binary Et Hn) as [E64 E32].
  set (h := (0.5 * t)%Q) in *.
  assert (Hh : (0 <= h)%Q /\ (h <= t)%Q) by (unfold h; lra).
  (* the scale *)
  rewrite (@round32_Fin c) by lra.
  assert (Bc : (1 <= r32 c <= 5)%Q).
  { apply r32_bounds; [lra | lra | |];
      [apply (@r32_Z 1) | apply (@r32_Z 5)]; lia. }
  set (c' := r32 c) in *.
  (* 0.5 * _timeOfStroke *)
  unfold fmul64, fdiv64, fsub32. cbn [fmul]. fold h.
  rewrite (@round64_Fin h) by lra.
  set (H := r64 h) in *.
  rewrite fdiv_Fin by lra.
  assert (Bq : (0 <= H / c')%Q /\ (H / c' <= h)%Q).
  { rewrite E64. split.
    - apply Qle_shift_div_l; lra.
    - apply Qle_shift_div_r; [lra|]. nra. }
  rewrite (@round64_Fin (H / c')) by lra.
  assert (By : (0 <= r64 (H / c') <= h)%Q).
  { split; [apply r64_nonneg; lra|].
    apply Qle_trans with (y := r64 h); [apply r64_mono; lra|].
    fold H. rewrite E64. apply Qle_refl. }
  set (y := r64 (H / c')) in *.
  rewrite (@round32_Fin_le y t) by (trivial; lra).
  assert (Bi : (0 <= r32 y <= h)%Q).
  { split; [apply r32_nonneg; lra|].
    apply Qle_trans with (y := r32 h); [apply r32_mono; lra|].
    rewrite E32. apply Qle_refl. }
  set (i := r32 y) in *.
  assert (Bd : (h <= t + - i <= t)%Q) by (unfold h in *; lra).
  assert (Bo : (h <= r32 (t + - i) <= t)%Q).
  { apply r32_bounds; trivial. lra. }
  exists i, (r32 (t + - i)). split; [reflexivity|].
  split.
  { cbn [fsub fadd fopp]. apply (@round32_Fin_le (t + - i) t); trivial. lra. }
  set (o := r32 (t + - i)) in *.
  split; [lra|]. split; [lra|]. split; [lra|].
  split.
  - (* the error of the difference *)
    assert (I : (i + o - t == o - (t + - i))%Q) by ring.
    rewrite I. destruct Hn as [Z0|L].
    + assert (Zd : (t + - i == 0)%Q) by (unfold h in *; lra).
      unfold o. rewrite (r32_zero Zd), Zd, Z0.
      setoid_replace (0 - 0)%Q with 0%Q by ring.
      change (Qabs 0) with 0%Q. lra.
    + apply Qle_trans with (y := (2 ^ (-24) * (t + - i))%Q).
      * apply (@rnd_err_normal 24 (-149) (t + - i)).
        change (-149 + 24 - 1) with (-126).
        apply Qle_trans with (y := h); [|lra].
        unfold h. lra.
      * assert (0 <= i)%Q by lra. lra.
  - (* the scale 1 *)
    intros E1.
    assert (Ec : (c' == 1)%Q).
    { unfold c'. transitivity (r32 (inject_Z 1)); [|apply r32_Z; lia].
      apply r32_comp; [lra | exact E1]. }
    assert (Ey : (y == h)%Q).
    { unfold y. transitivity (r64 h); [|exact E64].
      apply r64_comp; [lra|]. rewrite Ec. fold H. rewrite E64. field. }
    assert (Ei : (i == h)%Q).
    { unfold i. transitivity (r32 h); [|exact E32].
      apply r32_comp; [lra | exact Ey]. }
    assert (Eo : (o == h)%Q).
    { unfold o. transitivity (r32 h); [|exact E32].
      apply r32_comp; [lra|]. rewrite Ei. unfold h. ring. }
    split; [rewrite Ei, Eo; reflexivity|].
    rewrite Ei, Eo. unfold h. ring.
Qed.

(** In binary32 the two times do not add up to the time of stroke: with a
    time of stroke of one second (range 50, speed 100) and the sensation
    100, the faster stroke takes the [float] next to 0.1 and the slower one
    the [float] next to the difference, and their sum is
    [1 - 3 * 2 ^ -27] (a counterexample to claim C6). *)
Lemma stroke_timing_split_counterexample :
  let tp := TeasingPounding.upd_base (Pattern.setSensation (Fin 100))
              (TeasingPounding.upd_base (Pattern.setSpeedLimit 1000 10000 80)
                 (TeasingPounding.init 50 1000 100)) in
  let p := Binary32.TeasingPounding_updateStrokeTiming
             (TeasingPounding.set_timeOfStroke
                (Binary32.TeasingPounding_calTimeOfStroke tp) tp) in
  TeasingPounding._timeOfStroke p = Fin 1 /\
  exists i o,
    TeasingPounding._timeOfInStroke p = Fin i /\
    TeasingPounding._timeOfOutStroke p = Fin o /\
    (i + o == 1 - 3 * 2 ^ (-27))%Q /\ ~ (i + o == 1)%Q.
Proof.
  cbv zeta. split; [vm_compute; reflexivity|].
  do 2 eexists. split; [vm_compute; reflexivity|].
  split; [vm_compute; reflexivity|]. split; [reflexivity | discriminate].
Qed.

(** Claim C6 (amended): for TeasingPounding and HalfnHalf, with a time of
    stroke [t] that is 0 or at least [2 ^ -125], [_updateStrokeTiming]
    computes in binary32 two times that are not negative and at most [t];
    their sum differs from [t] by at most the rounding of the difference
    [_timeOfStroke - _timeOfFastStroke], [2 ^ -24 * t]; and at sensation 0
    the two times are equal and their sum is [t] exactly. *)
Theorem stroke_timing_split (tp : TeasingPounding.t) (hh : HalfnHalf.t)
  (t1 t2 s1 s2 : Q) :
  TeasingPounding._timeOfStroke tp = Fin t1 ->
  Pattern._sensation (TeasingPounding.base tp) = Fin s1 ->
  HalfnHalf._timeOfStroke hh = Fin t2 ->
  Pattern._sensation (HalfnHalf.base hh) = Fin s2 ->
  is_binary32 (Fin t1) = true -> is_binary32 (Fin t2) = true ->
  (t1 == 0 \/ 2 ^ (-125) <= t1)%Q -> (t2 == 0 \/ 2 ^ (-125) <= t2)%Q ->
  (exists i o,
     TeasingPounding._timeOfInStroke
       (Binary32.TeasingPounding_updateStrokeTiming tp) = Fin i /\
     TeasingPounding._timeOfOutStroke
       (Binary32.TeasingPounding_updateStrokeTiming tp) = Fin o /\
     TeasingPounding._timeOfStroke
       (Binary32.TeasingPounding_updateStrokeTiming tp) = Fin t1 /\
     (0 <= i <= t1)%Q /\ (0 <= o <= t1)%Q /\
     (Qabs (i + o - t1) <= 2 ^ (-24) * t1)%Q /\
     ((s1 == 0)%Q -> (i == o)%Q /\ (i + o == t1)%Q)) /\
  (exists i o,
     HalfnHalf._timeOfInStroke
       (Binary32.HalfnHalf_updateStrokeTiming hh) = Fin i /\
     HalfnHalf._timeOfOutStroke
       (Binary32.HalfnHalf_updateStrokeTiming hh) = Fin o /\
     HalfnHalf._timeOfStroke
       (Binary32.HalfnHalf_updateStrokeTiming hh) = Fin t2 /\
     (0 <= i <= t2)%Q /\ (0 <= o <= t2)%Q /\
     (Qabs (i + o - t2) <= 2 ^ (-24) * t2)%Q /\
     ((s2 == 0)%Q -> (i == o)%Q /\ (i + o == t2)%Q)).
Proof.
  intros T1 S1 T2 S2 B1 B2 N1 N2.
  assert (P1 : (0 <= t1)%Q) by (destruct N1; lra).
  assert (P2 : (0 <= t2)%Q) by (destruct N2; lra).
  split.
  - unfold Binary32.TeasingPounding_updateStrokeTiming. rewrite T1, S1.
    destruct (fast_scale s1) as (c & -> & Bc & Ec).
    destruct (@timing_split t1 c P1 B1 N1 Bc)
      as (i & o & -> & -> & I0 & IO & OT & Err & Eq).
    destruct (fgt (Fin s1) (Fin 0));
      cbn [TeasingPounding._timeOfInStroke TeasingPounding._timeOfOutStroke
           TeasingPounding._timeOfStroke].
    + exists i, o. repeat split; trivial; try lra; now apply Eq, Ec.
    + exists o, i. rewrite (Qplus_comm o i).
      repeat split; trivial; try lra;
        first [symmetry; now apply Eq, Ec | now apply Eq, Ec].
  - unfold Binary32.HalfnHalf_updateStrokeTiming. rewrite T2, S2.
    destruct (fast_scale s2) as (c & -> & Bc & Ec).
    destruct (@timing_split t2 c P2 B2 N2 Bc)
      as (i & o & -> & -> & I0 & IO & OT & Err & Eq).
    destruct (fgt (Fin s2) (Fin 0));
      cbn [HalfnHalf._timeOfInStroke HalfnHalf._timeOfOutStroke
           HalfnHalf._timeOfStroke].
    + exists i, o. repeat split; trivial; try lra; now apply Eq, Ec.
    + exists o, i. rewrite (Qplus_comm o i).
      repeat split; trivial; try lra;
        first [symmetry; now apply Eq, Ec | now apply Eq, Ec].
Qed.

Lemma stroke_timing_split_witness :
  let tp := TeasingPounding.upd_base (Pattern.setSensation (Fin 40))
              (TeasingPounding.set_timeOfStroke (Fin 2)
                 (TeasingPounding.init 100 100 100)) in
  let hh := HalfnHalf.set_timeOfStroke (Fin 2) (HalfnHalf.init 100 100 100) in
  (exists i o,
     TeasingPounding._timeOfInStroke
       (Binary32.TeasingPounding_updateStrokeTiming tp) = Fin i /\
     TeasingPounding._timeOfOutStroke
       (Binary32.TeasingPounding_updateStrokeTiming tp) = Fin o /\
     (Qabs (i + o - 2) <= 2 ^ (-24) * 2)%Q) /\
  (exists i o,
     HalfnHalf._timeOfInStroke
       (Binary32.HalfnHalf_updateStrokeTiming hh) = Fin i /\
     HalfnHalf._timeOfOutStroke
       (Binary32.HalfnHalf_updateStrokeTiming hh) = Fin o /\
     (i == o)%Q /\ (i + o == 2)%Q).
Proof.
  cbv zeta.
  assert (N : (2 == 0 \/ 2 ^ (-125) <= 2)%Q) by (right; discriminate).
  destruct (@stroke_timing_split
              (TeasingPounding.upd_base (Pattern.setSensation (Fin 40))
                 (TeasingPounding.set_timeOfStroke (Fin 2)
                    (TeasingPounding.init 100 100 100)))
              (HalfnHalf.set_timeOfStroke (Fin 2)
                 (HalfnHalf.init 100 100 100))
              2 2 40 0 eq_refl eq_refl eq_refl eq_refl eq_refl eq_refl N N)
    as [(i & o & I & O & _ & _ & _ & E & _)
        (i' & o' & I' & O' & _ & _ & _ & _ & Z')].
  split.
  - exists i, o. repeat split; trivial.
  - exists i', o'. split; [exact I'|]. split; [exact O'|].
    apply Z'. reflexivity.
Defined.

(* ================================================================== *)
(** ** The half flag of HalfnHalf *)

(** The command of HalfnHalf for a half flag [h], the speed not 0. *)
Lemma HalfnHalf_nextTarget_eq (index : Z) (h : bool) (p : HalfnHalf.t) :
  Pattern._speed (HalfnHalf.base p) <> 0 ->
  let b := HalfnHalf.base p in
  let t := halfStrokeTime index p in
  let h' := if index =? 0 then true else h in
  option_map fst (HalfnHalf.nextTarget index (HalfnHalf.set_half h p)) =
  (i <- to_int (fdiv (fmul (Fin 1.5) (of_int (Pattern._stroke b))) t) ;;
   let v := constrain i 0 (Pattern._maxSpeed b) in
   j <- to_int (fdiv (fmul (Fin 3) (of_int v)) t) ;;
   Some {| stroke :=
             if odd_stroke index then
               constrain (wrap_int (Pattern._depth b - Pattern._stroke b))
                         0 (Pattern._depth b)
             else
               constrain
                 (wrap_int (wrap_int (Pattern._depth b - Pattern._stroke b)
                            + (if h' then wrap_int (Pattern._stroke b ÷ 2)
                               else Pattern._stroke b)))
                 0 (Pattern._depth b);
           speed := v;
           acceleration := constrain j 0 (Pattern._maxAcceleration b);
           skip := false |}).
Proof.
  intros Hv b t h'. unfold HalfnHalf.nextTarget.
  replace (Pattern._speed (HalfnHalf.base (HalfnHalf.set_half h p)))
    with (Pattern._speed (HalfnHalf.base p)) by reflexivity.
  destruct (Z.eqb_spec (Pattern._speed (HalfnHalf.base p)) 0) as [|_];
    [contradiction|].
  cbv zeta. subst t h'. unfold halfStrokeTime, HalfnHalf._updateStrokeTiming.
  cbn [HalfnHalf.set_timeOfStroke HalfnHalf.set_half HalfnHalf.base
       HalfnHalf._timeOfStroke HalfnHalf._half].
  unfold HalfnHalf._calTimeOfStroke.
  cbn [HalfnHalf.set_timeOfStroke HalfnHalf.set_half HalfnHalf.base
       HalfnHalf._timeOfStroke HalfnHalf._half].
  fold b.
  destruct (fgt (Pattern._sensation b) (Fin 0)), (index =? 0),
    (odd_stroke index);
    cbn [HalfnHalf.set_timeOfStroke HalfnHalf.set_half HalfnHalf.base
         HalfnHalf._timeOfStroke HalfnHalf._half HalfnHalf._timeOfInStroke
         HalfnHalf._timeOfOutStroke];
    fold b;
    match goal with
    | |- context [bind (to_int ?e) _] =>
        destruct (to_int e); cbn [bind option_map]; trivial
    end;
    match goal with
    | |- context [bind (to_int ?e) _] =>
        destruct (to_int e); cbn [bind option_map fst]; trivial
    end.
Qed.

(** Claim C10: for HalfnHalf with a speed that is not 0, two runs that
    differ only in the half flag return commands with the same speed, the
    same acceleration and the same skip flag, both computed from the full
    [_stroke] and the time of the half stroke; the commands are equal for
    an odd index and for index 0, so that the flag reaches the target
    position of an even stroke only. *)
Theorem halfnhalf_flag_frame (p : HalfnHalf.t) (index : Z) (h1 h2 : bool) :
  Pattern._speed (HalfnHalf.base p) <> 0 ->
  let b := HalfnHalf.base p in
  let t := halfStrokeTime index p in
  same_motion (HalfnHalf.nextTarget index (HalfnHalf.set_half h1 p))
              (HalfnHalf.nextTarget index (HalfnHalf.set_half h2 p)) index /\
  (forall m p',
     HalfnHalf.nextTarget index (HalfnHalf.set_half h1 p) = Some (m, p') ->
     exists i j,
       to_int (fdiv (fmul (Fin 1.5) (of_int (Pattern._stroke b))) t)
         = Some i /\
       speed m = constrain i 0 (Pattern._maxSpeed b) /\
       to_int (fdiv (fmul (Fin 3) (of_int (speed m))) t) = Some j /\
       acceleration m = constrain j 0 (Pattern._maxAcceleration b)).
Proof.
  intros Hv b t.
  pose proof (HalfnHalf_nextTarget_eq index h1 p Hv) as E1.
  pose proof (HalfnHalf_nextTarget_eq index h2 p Hv) as E2.
  cbv zeta in E1, E2. fold b t in E1, E2.
  destruct (to_int (fdiv (fmul (Fin 1.5) (of_int (Pattern._stroke b))) t))
    as [i|] eqn:Ei; cbn [bind] in E1, E2.
  2:{ destruct (HalfnHalf.nextTarget index (HalfnHalf.set_half h1 p));
      destruct (HalfnHalf.nextTarget index (HalfnHalf.set_half h2 p));
      try discriminate. split; [exact I | discriminate]. }
  destruct (to_int (fdiv (fmul (Fin 3)
              (of_int (constrain i 0 (Pattern._maxSpeed b)))) t))
    as [j|] eqn:Ej; cbn [bind] in E1, E2.
  2:{ destruct (HalfnHalf.nextTarget index (HalfnHalf.set_half h1 p));
      destruct (HalfnHalf.nextTarget index (HalfnHalf.set_half h2 p));
      try discriminate. split; [exact I | discriminate]. }
  destruct (HalfnHalf.nextTarget index (HalfnHalf.set_half h1 p))
    as [[m1 p1]|]; [|discriminate].
  destruct (HalfnHalf.nextTarget index (HalfnHalf.set_half h2 p))
    as [[m2 p2]|]; [|discriminate].
  cbn [option_map fst] in E1, E2.
  injection E1 as ->. injection E2 as ->.
  split.
  - cbn [same_motion speed acceleration skip stroke].
    repeat split. intros [H | ->].
    + now rewrite H.
    + reflexivity.
  - intros m p' [= <- _]. exists i, j. cbn [speed acceleration]. auto.
Qed.

Lemma halfnhalf_flag_frame_witness :
  let p := HalfnHalf.upd_base (Pattern.setSpeedLimit 1000 10000 80)
             (HalfnHalf.init 100 100 100) in
  same_motion (HalfnHalf.nextTarget 4 (HalfnHalf.set_half true p))
              (HalfnHalf.nextTarget 4 (HalfnHalf.set_half false p)) 4.
Proof.
  cbv zeta.
  refine (proj1 (@halfnhalf_flag_frame
                   (HalfnHalf.upd_base (Pattern.setSpeedLimit 1000 10000 80)
                      (HalfnHalf.init 100 100 100))
                   4 true false _)).
  discriminate.
Defined.

Example halfnhalf_flag_moves_even_target :
  let p := HalfnHalf.upd_base (Pattern.setSpeedLimit 1000 10000 80)
             (HalfnHalf.init 100 100 100) in
  option_map fst (HalfnHalf.nextTarget 4 (HalfnHalf.set_half true p)) =
    Some {| stroke := 50; speed := 150; acceleration := 450;
            skip := false |} /\
  option_map fst (HalfnHalf.nextTarget 4 (HalfnHalf.set_half false p)) =
    Some {| stroke := 100; speed := 150; acceleration := 450;
            skip := false |}.
Proof. split; reflexivity. Qed.

(* ================================================================== *)
(** ** The divisor of the time of stroke *)

(** With the limits of the member initialisers ([_maxSpeed = 0]) and a speed
    of 5 the divisor [constrain(_speed, 1, _maxSpeed)] is 0 and the time of
    stroke is a division by zero (a counterexample to claim C7, which has
    the divisor at least 1). *)
Lemma speedDivisor_zero :
  Pattern._maxSpeed unconfigured = 0 /\
  Pattern.speedDivisor unconfigured = 0 /\
  ~ 1 <= Pattern.speedDivisor unconfigured /\
  Pattern._calTimeOfStroke unconfigured = PInf.
Proof. repeat split. intros H. now apply H. Qed.

(** Claim C7 (amended): when the speed limit is at least 1, the divisor
    [constrain(_speed, 1, _maxSpeed)] of the time of stroke is at least 1
    (and at most the limit) for every speed, 0 and negative speeds
    included, so that the time of stroke of the base class and of the
    overrides of TeasingPounding and HalfnHalf is no division by zero: it
    is finite. *)
Theorem speedDivisor_positive (b : Pattern.t) :
  1 <= Pattern._maxSpeed b ->
  1 <= Pattern.speedDivisor b <= Pattern._maxSpeed b /\
  is_finite (Pattern._calTimeOfStroke b) = true /\
  (forall p, TeasingPounding.base p = b ->
             is_finite (TeasingPounding._calTimeOfStroke p) = true) /\
  (forall p, HalfnHalf.base p = b ->
             is_finite (HalfnHalf._calTimeOfStroke p) = true).
Proof.
  intros H.
  assert (D : 1 <= Pattern.speedDivisor b <= Pattern._maxSpeed b)
    by (unfold Pattern.speedDivisor; now apply constrain_bounds).
  assert (N : ~ (inject_Z (Pattern.speedDivisor b) == 0)%Q).
  { change 0%Q with (inject_Z 0). rewrite inject_Z_injective. lia. }
  split; [exact D|]. split; [|split].
  - unfold Pattern._calTimeOfStroke, Pattern._calRangeOfStroke, of_int.
    now rewrite fdiv_Fin.
  - intros p <-.
    unfold TeasingPounding._calTimeOfStroke, Pattern._calRangeOfStroke, of_int.
    cbn [fmul]. now rewrite fdiv_Fin.
  - intros p <-.
    unfold HalfnHalf._calTimeOfStroke, Pattern._calRangeOfStroke, of_int.
    cbn [fmul]. now rewrite fdiv_Fin.
Qed.

Lemma speedDivisor_positive_witness :
  let b := Pattern.setSpeedLimit 1000 10000 80
             (Pattern.setSpeed (-3) (Pattern.init 100 100 0)) in
  1 <= Pattern.speedDivisor b <= Pattern._maxSpeed b /\
  is_finite (Pattern._calTimeOfStroke b) = true /\
  (forall p, TeasingPounding.base p = b ->
             is_finite (TeasingPounding._calTimeOfStroke p) = true) /\
  (forall p, HalfnHalf.base p = b ->
             is_finite (HalfnHalf._calTimeOfStroke p) = true).
Proof.
  cbv zeta.
  apply (@speedDivisor_positive
           (Pattern.setSpeedLimit 1000 10000 80
              (Pattern.setSpeed (-3) (Pattern.init 100 100 0)))).
  discriminate.
Defined.

(* ================================================================== *)
(** ** RoboStroke *)

(** The split fraction a sensation is scaled to. *)
Lemma scaled_x_values :
  feqb (RoboStroke.scaled_x (Fin 0)) (fdiv (Fin 1) (Fin 3)) = true /\
  feqb (RoboStroke.scaled_x (Fin 100)) (Fin 0.5) = true /\
  feqb (RoboStroke.scaled_x (Fin (-100))) (Fin 0.05) = true.
Proof. repeat split. Qed.

(** Claim C4: RoboStroke at sensation 0 and with a time of stroke of one
    second.  The split fraction is 1/3 (and 0.5 and 0.05 at the sensations
    100 and -100), the speed of the command is [_speed / (1 - 1/3) = 150],
    but its acceleration is [_speed / (1/3) = 300], twice the speed of the
    command and not three times: the identity of the symmetric trapezoid,
    which SimplePenetration meets on the same input (450 = 3 * 150), does
    not hold. *)
Theorem robostroke_neutral_acceleration :
  Pattern._sensation (base_of unit_RoboStroke) = Fin 0 /\
  feqb (Pattern._calTimeOfStroke (base_of unit_RoboStroke)) (Fin 1) = true /\
  (exists m p',
     nextTarget 0 0 unit_RoboStroke = Some (m, p') /\
     speed m = 150 /\ acceleration m = 300 /\
     acceleration m = 2 * speed m /\
     acceleration m <> 3 * speed m) /\
  (exists m p',
     nextTarget 1 0 unit_SimplePenetration = Some (m, p') /\
     speed m = 150 /\ acceleration m = 450 /\
     acceleration m = 3 * speed m).
Proof.
  split; [reflexivity|]. split; [reflexivity|]. split.
  - do 2 eexists. split; [vm_compute; reflexivity|].
    cbn [speed acceleration]. repeat split. discriminate.
  - do 2 eexists. split; [vm_compute; reflexivity|].
    cbn [speed acceleration]. repeat split.
Qed.

(** TeasingPounding, Insist and Deeper compute their derived values (the
    timing of the strokes, the real stroke, the length of the ramp) from
    the tunables before they use them: their command depends on the members
    of the base class only, not on what an earlier call has left. *)
Lemma derived_values_recomputed (index : Z) :
  (forall p q, TeasingPounding.base p = TeasingPounding.base q ->
     option_map fst (TeasingPounding.nextTarget index p) =
     option_map fst (TeasingPounding.nextTarget index q)) /\
  (forall p q, Insist.base p = Insist.base q ->
     option_map fst (Insist.nextTarget index p) =
     option_map fst (Insist.nextTarget index q)) /\
  (forall p q, Deeper.base p = Deeper.base q ->
     option_map fst (Deeper.nextTarget index p) =
     option_map fst (Deeper.nextTarget index q)).
Proof.
  split; [|split].
  - intros [b t1 t2 t3 t4] [b' u1 u2 u3 u4] E. cbn in E. subst b'.
    unfold TeasingPounding.nextTarget, TeasingPounding._setIdleState,
      TeasingPounding._updateStrokeTiming, TeasingPounding._calTimeOfStroke.
    cbn [TeasingPounding.base TeasingPounding.set_timeOfStroke
         TeasingPounding._timeOfStroke].
    destruct (Pattern._speed b =? 0).
    + destruct (Pattern._setIdleState b) as [[m b']|]; reflexivity.
    + cbv zeta. destruct (fgt (Pattern._sensation b) (Fin 0));
        cbn [TeasingPounding.base TeasingPounding._timeOfInStroke
             TeasingPounding._timeOfOutStroke];
        destruct (odd_stroke index);
        repeat match goal with
        | |- context [bind (to_int ?e) _] =>
            destruct (to_int e); cbn [bind option_map fst]
        end; reflexivity.
  - intros [b t1 r1 f1 i1] [b' t2 r2 f2 i2] E. cbn in E. subst b'.
    unfold Insist.nextTarget, Insist._setIdleState, Insist._updateRealStroke,
      Insist.set_timeOfStroke.
    cbn [Insist.base Insist._timeOfStroke].
    destruct (Pattern._speed b =? 0); cbv zeta;
      repeat match goal with
        | |- context [bind (to_int ?e) _] =>
            destruct (to_int e);
            cbn [bind option_map fst Insist.base Insist._strokeInFront
                 Insist._realStroke Insist._timeOfStroke
                 Insist._strokeFraction]
        end; reflexivity.
  - intros [b t1 r1] [b' t2 r2] E. cbn in E. subst b'.
    unfold Deeper.nextTarget, Deeper._setIdleState.
    cbn [Deeper.base].
    destruct (Pattern._speed b =? 0).
    + destruct (Pattern._setIdleState b) as [[m b']|]; reflexivity.
    + cbv zeta. destruct (Deeper.countStrokesForRamp (Pattern._sensation b));
        cbn [bind option_map]; [|reflexivity].
      destruct (_ =? 0); [reflexivity|].
      repeat match goal with
        | |- context [bind (to_int ?e) _] =>
            destruct (to_int e); cbn [bind option_map fst]
        end; reflexivity.
Qed.

(** Claim C5: the command RoboStroke returns right after [setSensation(s)]
    is the command it would have returned without the call, for every
    state, index and [s]: speed and acceleration are computed from the
    split fraction [_x] of the previous call, and [_x] is scaled from the
    sensation only afterwards.  So the first command after
    [setSensation(100)] is still the command of the sensation 0 before it
    (speed 150, acceleration 300, from the split fraction 1/3); the command
    of the sensation 100 (speed 200, acceleration 200, from the split
    fraction 0.5) is returned from the second call on only. *)
Theorem robostroke_sensation_lags :
  (forall (p : RoboStroke.t) (s : float) (index : Z),
     option_map fst
       (RoboStroke.nextTarget index
          (RoboStroke.upd_base (Pattern.setSensation s) p)) =
     option_map fst (RoboStroke.nextTarget index p)) /\
  (exists p0 p1 p2 p3 m0 m1 m2,
     nextTarget 0 0 unit_RoboStroke = Some (m0, p0) /\
     setSensation (Fin 100) unit_RoboStroke = Some p1 /\
     nextTarget 0 0 p1 = Some (m1, p2) /\
     nextTarget 2 0 p2 = Some (m2, p3) /\
     m1 = m0 /\
     m1 = {| stroke := 100; speed := 150; acceleration := 300;
             skip := false |} /\
     m2 = {| stroke := 100; speed := 200; acceleration := 200;
             skip := false |} /\
     m1 <> m2).
Proof.
  split.
  - intros [b t x] s index.
    unfold RoboStroke.nextTarget, RoboStroke._setIdleState,
      RoboStroke.upd_base.
    cbn [RoboStroke.base RoboStroke._x Pattern.setSensation Pattern._speed
         Pattern._maxSpeed Pattern._maxAcceleration Pattern._depth
         Pattern._stroke].
    destruct (Pattern._speed b =? 0).
    + unfold Pattern._setIdleState.
      cbn [Pattern.setSensation Pattern._maxSpeed Pattern._maxAcceleration
           Pattern._depth Pattern._stroke].
      repeat match goal with
        | |- context [bind (to_int ?e) _] =>
            destruct (to_int e); cbn [bind option_map fst]
        end; reflexivity.
    + cbv zeta.
      repeat match goal with
        | |- context [bind (to_int ?e) _] =>
            destruct (to_int e); cbn [bind option_map fst]
        end; reflexivity.
  - do 7 eexists.
    split; [vm_compute; reflexivity|].
    split; [vm_compute; reflexivity|].
    split; [vm_compute; reflexivity|].
    split; [vm_compute; reflexivity|].
    split; [reflexivity|]. split; [reflexivity|]. split; [reflexivity|].
    discriminate.
Qed.

(* ================================================================== *)
(** * Further properties *)

(* ================================================================== *)
(** ** What a call of [nextTarget] keeps *)

Lemma Pattern_idle_frame (b : Pattern.t) (m : motionParameter)
  (b' : Pattern.t) :
  Pattern._setIdleState b = Some (m, b') ->
  b' = Pattern.set_nextMove m b.
Proof.
  unfold Pattern._setIdleState. intros H.
  inv_bind H. inv_bind H. now injection H as <- <-.
Qed.

Ltac inv_binds H :=
  repeat (let a := fresh "a" in let E := fresh "E" in
          apply bind_Some in H as (a & E & H)).

Ltac base_idle E :=
  let E0 := fresh "E" in
  apply bind_Some in E as ([? ?] & E0 & E); injection E as <- <-;
  apply Pattern_idle_frame in E0; subst; repeat split.

(** X1: a call of [nextTarget] writes no tunable and no limit.  Whatever
    the pattern, the index and the clock, the pattern after the call is of
    the same class and holds the same stroke, depth, speed, sensation,
    limits and length of pause; the command it returns is the one it stores
    in [_nextMove]; and the index is recorded in [_index], except in the
    idle state (speed 0), which returns before that assignment. *)
Theorem nextTarget_keeps_settings (p : pattern) (index millis : Z)
  (m : motionParameter) (p' : pattern) :
  nextTarget index millis p = Some (m, p') ->
  let b := base_of p in
  let b' := base_of p' in
  same_class p p' /\
  settings_of b' = settings_of b /\
  Pattern._delayInMillis b' = Pattern._delayInMillis b /\
  Pattern._nextMove b' = m /\
  Pattern._index b' =
    (if Pattern._speed b =? 0 then Pattern._index b else wrap_int index).
Proof.
  destruct p as [p|p|p|p|p|p|p]; cbn [nextTarget tag base_of]; intros H;
    apply bind_Some in H as ([m0 q] & E & H); injection H as <- <-;
    cbn [fst snd base_of same_class].
  - unfold SimplePenetration.nextTarget, SimplePenetration._setIdleState in E.
    destruct (Pattern._speed (SimplePenetration.base p) =? 0);
      cbv zeta in E; inv_binds E; injection E as <- <-;
      repeat split.
  - unfold TeasingPounding.nextTarget, TeasingPounding._setIdleState in E.
    destruct (Pattern._speed (TeasingPounding.base p) =? 0);
      [base_idle E|].
    cbv zeta in E. inv_bind E. injection E as <- <-.
    unfold TeasingPounding._updateStrokeTiming.
    destruct (fgt _ _); repeat split.
  - unfold RoboStroke.nextTarget, RoboStroke._setIdleState in E.
    destruct (Pattern._speed (RoboStroke.base p) =? 0);
      [base_idle E|].
    cbv zeta in E. inv_binds E. injection E as <- <-. repeat split.
  - unfold HalfnHalf.nextTarget, HalfnHalf._setIdleState in E.
    destruct (Pattern._speed (HalfnHalf.base p) =? 0);
      [base_idle E|].
    cbv zeta in E. unfold HalfnHalf._updateStrokeTiming in E.
    cbn [HalfnHalf.set_timeOfStroke HalfnHalf.base] in E.
    destruct (fgt (Pattern._sensation (HalfnHalf.base p)) (Fin 0)),
      (index =? 0), (odd_stroke index);
      inv_binds E; injection E as <- <-; repeat split.
  - unfold Deeper.nextTarget, Deeper._setIdleState in E.
    destruct (Pattern._speed (Deeper.base p) =? 0);
      [base_idle E|].
    cbv zeta in E. inv_bind E. destruct (_ =? 0); [discriminate|].
    inv_binds E. injection E as <- <-. repeat split.
  - unfold StopNGo.nextTarget, StopNGo._setIdleState in E.
    destruct (Pattern._speed (StopNGo.base p) =? 0);
      [base_idle E|].
    cbv zeta in E.
    destruct (negb _);
      [destruct (odd_stroke index); [destruct (_ >=? _)|]|];
      cbv beta iota zeta in E; inv_binds E; injection E as <- <-;
      repeat split.
  - unfold Insist.nextTarget, Insist._setIdleState in E.
    destruct (Pattern._speed (Insist.base p) =? 0);
      cbv zeta in E; inv_binds E;
      match goal with
      | H : Insist._updateRealStroke _ = Some _ |- _ =>
          unfold Insist._updateRealStroke in H; inv_bind H;
          injection H as <-
      end; injection E as <- <-; repeat split.
Qed.

Lemma nextTarget_keeps_settings_witness :
  exists m p',
    nextTarget 3 0 unit_RoboStroke = Some (m, p') /\
    same_class unit_RoboStroke p' /\
    settings_of (base_of p') = settings_of (base_of unit_RoboStroke) /\
    Pattern._delayInMillis (base_of p')
    = Pattern._delayInMillis (base_of unit_RoboStroke) /\
    Pattern._nextMove (base_of p') = m /\
    Pattern._index (base_of p') = 3.
Proof.
  do 2 eexists. split; [vm_compute; reflexivity|].
  apply (@nextTarget_keeps_settings unit_RoboStroke 3 0).
  vm_compute. reflexivity.
Defined.

(** X2: in the idle state (speed 0) a call changes nothing but the stored
    command: the counters of StopNGo, the flag [_half] of HalfnHalf, the
    split fraction of RoboStroke and the times of stroke stay as they are.
    Insist alone recomputes its real stroke on the way, and keeps its time
    of stroke. *)
Theorem idle_keeps_state (p : pattern) (index millis : Z)
  (m : motionParameter) (p' : pattern) :
  Pattern._speed (base_of p) = 0 ->
  nextTarget index millis p = Some (m, p') ->
  match p with
  | AInsist q =>
      exists q', p' = AInsist q' /\
        Insist.base q' = Pattern.set_nextMove m (Insist.base q) /\
        Insist._timeOfStroke q' = Insist._timeOfStroke q
  | _ => p' = upd_base (Pattern.set_nextMove m) p
  end.
Proof.
  intros Hv.
  destruct p as [p|p|p|p|p|p|p]; cbn [nextTarget tag base_of] in *; intros H;
    apply bind_Some in H as ([m0 q] & E & H); injection H as <- <-;
    cbn [fst snd upd_base].
  - unfold SimplePenetration.nextTarget, SimplePenetration._setIdleState in E.
    rewrite Hv in E. cbn [Z.eqb] in E. cbv zeta in E.
    inv_binds E. now injection E as <- <-.
  - unfold TeasingPounding.nextTarget, TeasingPounding._setIdleState in E.
    rewrite Hv in E. cbn [Z.eqb] in E. base_idle E.
  - unfold RoboStroke.nextTarget, RoboStroke._setIdleState in E.
    rewrite Hv in E. cbn [Z.eqb] in E. base_idle E.
  - unfold HalfnHalf.nextTarget, HalfnHalf._setIdleState in E.
    rewrite Hv in E. cbn [Z.eqb] in E. base_idle E.
  - unfold Deeper.nextTarget, Deeper._setIdleState in E.
    rewrite Hv in E. cbn [Z.eqb] in E. base_idle E.
  - unfold StopNGo.nextTarget, StopNGo._setIdleState in E.
    rewrite Hv in E. cbn [Z.eqb] in E. base_idle E.
  - unfold Insist.nextTarget, Insist._setIdleState in E.
    rewrite Hv in E. cbn [Z.eqb] in E. cbv zeta in E.
    inv_binds E.
    match goal with
    | H : Insist._updateRealStroke _ = Some _ |- _ =>
        unfold Insist._updateRealStroke in H; inv_bind H;
        injection H as <-
    end.
    injection E as <- <-. eexists. split; [reflexivity|]. now split.
Qed.

Lemma idle_keeps_state_witness :
  let p := setSpeed 0 unit_RoboStroke in
  exists m p',
    nextTarget 5 0 p = Some (m, p') /\
    p' = upd_base (Pattern.set_nextMove m) p.
Proof.
  cbv zeta. do 2 eexists. split; [vm_compute; reflexivity|].
  apply (@idle_keeps_state (setSpeed 0 unit_RoboStroke) 5 0).
  - reflexivity.
  - vm_compute. reflexivity.
Defined.

Ltac step_binds :=
  repeat match goal with
    | |- context [bind (to_int ?e) _] =>
        destruct (to_int e); cbn [bind option_map fst]
    end.

Ltac same_members S :=
  cbv [settings_of SimplePenetration.base TeasingPounding.base Deeper.base
       Insist.base Pattern._stroke Pattern._depth
       Pattern._speed Pattern._sensation Pattern._maxSpeed
       Pattern._maxAcceleration Pattern._stepsPerMM] in S;
  injection S as <- <- <- <- <- <- <-.

(** X3: SimplePenetration, TeasingPounding, Deeper and Insist keep no
    state between two calls: the command of a call is determined by the
    tunables, the limits and the index.  Two objects of one of these
    classes that hold the same settings return the same command (or both
    none), whatever their other members hold, that is whatever calls were
    made before. *)
Theorem recomputed_commands (p q : pattern) (index millis millis' : Z) :
  recomputes p = true ->
  same_class p q ->
  settings_of (base_of p) = settings_of (base_of q) ->
  option_map fst (nextTarget index millis p) =
  option_map fst (nextTarget index millis' q).
Proof.
  intros R C S.
  destruct p as [p|p|p|p|p|p|p]; try discriminate R;
    destruct q as [q|q|q|q|q|q|q]; try contradiction C;
    cbn [base_of] in S; cbn [nextTarget]; unfold tag.
  - destruct p as [[s d v se ix nm sd dl ms ma sp] t],
             q as [[s' d' v' se' ix' nm' sd' dl' ms' ma' sp'] t'].
    same_members S.
    unfold SimplePenetration.nextTarget, SimplePenetration._setIdleState,
      Pattern._calTimeOfStroke, Pattern._calRangeOfStroke,
      Pattern.speedDivisor.
    cbn [SimplePenetration.base Pattern._stroke Pattern._depth
         Pattern._speed Pattern._sensation Pattern._maxSpeed
         Pattern._maxAcceleration].
    destruct (v =? 0); cbv zeta; step_binds; reflexivity.
  - destruct p as [[s d v se ix nm sd dl ms ma sp] t1 t2 t3 t4],
             q as [[s' d' v' se' ix' nm' sd' dl' ms' ma' sp'] u1 u2 u3 u4].
    same_members S.
    unfold TeasingPounding.nextTarget, TeasingPounding._setIdleState,
      TeasingPounding._updateStrokeTiming, TeasingPounding._calTimeOfStroke,
      Pattern._setIdleState, Pattern._calRangeOfStroke, Pattern.speedDivisor.
    cbn [TeasingPounding.base TeasingPounding.set_timeOfStroke
         TeasingPounding._timeOfStroke Pattern._stroke Pattern._depth
         Pattern._speed Pattern._sensation Pattern._maxSpeed
         Pattern._maxAcceleration].
    destruct (v =? 0); cbv zeta; [step_binds; reflexivity|].
    destruct (fgt se (Fin 0));
      cbn [TeasingPounding.base TeasingPounding._timeOfInStroke
           TeasingPounding._timeOfOutStroke Pattern._stroke Pattern._depth
           Pattern._maxSpeed Pattern._maxAcceleration];
      destruct (odd_stroke index); step_binds; reflexivity.
  - destruct p as [[s d v se ix nm sd dl ms ma sp] t1 t2],
             q as [[s' d' v' se' ix' nm' sd' dl' ms' ma' sp'] u1 u2].
    same_members S.
    unfold Deeper.nextTarget, Deeper._setIdleState,
      Pattern._setIdleState, Pattern._calTimeOfStroke,
      Pattern._calRangeOfStroke, Pattern.speedDivisor.
    cbn [Deeper.base Pattern._stroke Pattern._depth
         Pattern._speed Pattern._sensation Pattern._maxSpeed
         Pattern._maxAcceleration].
    destruct (v =? 0); cbv zeta; [step_binds; reflexivity|].
    destruct (Deeper.countStrokesForRamp se);
      cbn [bind option_map]; [|reflexivity].
    destruct (_ =? 0); [reflexivity|]. step_binds; reflexivity.
  - destruct p as [[s d v se ix nm sd dl ms ma sp] t1 t2 t3 t4],
             q as [[s' d' v' se' ix' nm' sd' dl' ms' ma' sp'] u1 u2 u3 u4].
    same_members S.
    unfold Insist.nextTarget, Insist._setIdleState, Insist._updateRealStroke,
      Insist.set_timeOfStroke, Pattern._calTimeOfStroke,
      Pattern._calRangeOfStroke, Pattern.speedDivisor.
    cbn [Insist.base Insist._timeOfStroke Pattern._stroke Pattern._depth
         Pattern._speed Pattern._sensation Pattern._maxSpeed
         Pattern._maxAcceleration].
    destruct (v =? 0); cbv zeta;
      repeat match goal with
        | |- context [bind (to_int ?e) _] =>
            destruct (to_int e);
            cbn [bind option_map fst Insist.base Insist._strokeInFront
                 Insist._realStroke Insist._timeOfStroke
                 Insist._strokeFraction Pattern._stroke Pattern._depth
                 Pattern._speed Pattern._sensation Pattern._maxSpeed
                 Pattern._maxAcceleration]
        end; reflexivity.
Qed.

Lemma recomputed_commands_witness :
  let p := ADeeper (Deeper.init 400 1000 100) in
  let q := ADeeper {| Deeper.base :=
                        Pattern.set_index 7 (Pattern.init 400 1000 100);
                      Deeper._timeOfStroke := Fin 9;
                      Deeper._countStrokesForRamp := 5 |} in
  option_map fst (nextTarget 4 0 p) = option_map fst (nextTarget 4 9 q).
Proof.
  cbv zeta.
  apply (@recomputed_commands
           (ADeeper (Deeper.init 400 1000 100))
           (ADeeper {| Deeper.base :=
                         Pattern.set_index 7 (Pattern.init 400 1000 100);
                       Deeper._timeOfStroke := Fin 9;
                       Deeper._countStrokesForRamp := 5 |}) 4 0 9).
  - reflexivity.
  - exact I.
  - reflexivity.
Defined.

(* ================================================================== *)
(** ** The targets of the strokes *)

Lemma out_target (d s : Z) :
  0 <= d <= INT_MAX -> 0 <= s <= INT_MAX ->
  constrain (wrap_int (d - s)) 0 d = Z.max (d - s) 0.
Proof.
  unfold INT_MAX. intros Hd Hs.
  rewrite wrap_int_id by (unfold in_int, INT_MIN, INT_MAX; lia).
  unfold constrain.
  destruct (d - s <? 0) eqn:E1; [lia|].
  destruct (d - s >? d) eqn:E2; lia.
Qed.

Lemma in_target (d s a : Z) :
  0 <= d <= INT_MAX -> 0 <= s <= INT_MAX -> 0 <= a <= s ->
  Z.max (d - s) 0 <= constrain (wrap_int (wrap_int (d - s) + a)) 0 d <= d.
Proof.
  unfold INT_MAX. intros Hd Hs Ha.
  rewrite (@wrap_int_id (d - s)) by (unfold in_int, INT_MIN, INT_MAX; lia).
  rewrite wrap_int_id by (unfold in_int, INT_MIN, INT_MAX; lia).
  unfold constrain.
  destruct (d - s + a <? 0) eqn:E1; [lia|].
  destruct (d - s + a >? d) eqn:E2; lia.
Qed.

Lemma ramp_bounds (s : Q) (r : Z) :
  (-100 <= s <= 100)%Q ->
  Deeper.countStrokesForRamp (Fin s) = Some r -> 2 <= r <= 32.
Proof.
  intros Hs E.
  destruct (countStrokesForRamp_Fin Hs) as (r' & E' & H).
  rewrite E in E'. injection E' as <-.
  destruct (flt (Fin s) (of_int 0)); destruct H as [-> H].
  - assert (M := @map_mono (Qtrunc s) (Qtrunc s) (-100) 0 2 11).
    lia.
  - assert (M := @map_mono (Qtrunc s) (Qtrunc s) 0 100 11 32).
    lia.
Qed.

Lemma cycleIndex_bounds (index r : Z) :
  1 <= r <= INT_MAX -> 1 <= Deeper.cycleIndex index r <= r.
Proof.
  unfold INT_MAX, Deeper.cycleIndex. intros H.
  rewrite (@wrap_uint_id r) by (unfold in_uint, UINT_MAX; lia).
  assert (B := Z.mod_pos_bound (index / 2) r ltac:(lia)).
  rewrite wrap_uint_id by (unfold in_uint, UINT_MAX; lia).
  rewrite wrap_int_id by (unfold in_int, INT_MIN, INT_MAX; lia).
  lia.
Qed.

Lemma amplitude_bounds (s r c : Z) :
  0 <= s <= INT_MAX -> 1 <= r <= INT_MAX -> 1 <= c <= r ->
  wrap_int (wrap_int (s ÷ r) * c) = s ÷ r * c /\ 0 <= s ÷ r * c <= s.
Proof.
  unfold INT_MAX. intros Hs Hr Hc.
  rewrite Z.quot_div_nonneg by lia.
  assert (Q0 : 0 <= s / r) by (apply Z.div_pos; lia).
  assert (Q1 : r * (s / r) <= s) by (apply Z.mul_div_le; lia).
  assert (Q : 0 <= s / r <= s) by nia.
  assert (P : 0 <= s / r * c <= s) by nia.
  rewrite (@wrap_int_id (s / r)) by (unfold in_int, INT_MIN, INT_MAX; lia).
  rewrite wrap_int_id by (unfold in_int, INT_MIN, INT_MAX; lia).
  now split.
Qed.

Lemma speed_nonzero (v : Z) : v <> 0 -> (v =? 0) = false.
Proof. now rewrite Z.eqb_neq. Qed.

Lemma HalfnHalf_target (index : Z) (p : HalfnHalf.t) (m : motionParameter)
  (p' : HalfnHalf.t) :
  Pattern._speed (HalfnHalf.base p) <> 0 ->
  HalfnHalf.nextTarget index p = Some (m, p') ->
  let b := HalfnHalf.base p in
  stroke m =
    if odd_stroke index then
      constrain (wrap_int (Pattern._depth b - Pattern._stroke b))
                0 (Pattern._depth b)
    else
      constrain
        (wrap_int (wrap_int (Pattern._depth b - Pattern._stroke b)
                   + (if (if index =? 0 then true else HalfnHalf._half p)
                      then wrap_int (Pattern._stroke b ÷ 2)
                      else Pattern._stroke b)))
        0 (Pattern._depth b).
Proof.
  intros Hv E.
  assert (F : option_map fst (HalfnHalf.nextTarget index p) = Some m)
    by now rewrite E.
  destruct p as [b t1 t2 t3 t4 h].
  change {| HalfnHalf.base := b; HalfnHalf._timeOfStroke := t1;
            HalfnHalf._timeOfFastStroke := t2;
            HalfnHalf._timeOfInStroke := t3;
            HalfnHalf._timeOfOutStroke := t4; HalfnHalf._half := h |}
    with (HalfnHalf.set_half h
            {| HalfnHalf.base := b; HalfnHalf._timeOfStroke := t1;
               HalfnHalf._timeOfFastStroke := t2;
               HalfnHalf._timeOfInStroke := t3;
               HalfnHalf._timeOfOutStroke := t4; HalfnHalf._half := h |})
    in F.
  rewrite HalfnHalf_nextTarget_eq in F by exact Hv.
  cbv zeta in F. inv_binds F. injection F as <-.
  reflexivity.
Qed.

Lemma Deeper_target (index : Z) (p : Deeper.t) (m : motionParameter)
  (p' : Deeper.t) :
  Pattern._speed (Deeper.base p) <> 0 ->
  Deeper.nextTarget index p = Some (m, p') ->
  let b := Deeper.base p in
  exists r,
    Deeper.countStrokesForRamp (Pattern._sensation b) = Some r /\ r <> 0 /\
    Deeper._countStrokesForRamp p' = r /\
    stroke m =
      if odd_stroke index then
        constrain (wrap_int (Pattern._depth b - Pattern._stroke b))
                  0 (Pattern._depth b)
      else
        constrain
          (wrap_int (wrap_int (Pattern._depth b - Pattern._stroke b)
                     + wrap_int (wrap_int (Pattern._stroke b ÷ r)
                                 * Deeper.cycleIndex index r)))
          0 (Pattern._depth b).
Proof.
  intros Hv E. apply speed_nonzero in Hv.
  unfold Deeper.nextTarget in E. rewrite Hv in E. cbv zeta in E.
  apply bind_Some in E as (r & R & E). exists r.
  destruct (r =? 0) eqn:Z; [discriminate|]. apply Z.eqb_neq in Z.
  inv_binds E. injection E as <- <-. now repeat split.
Qed.

Lemma StopNGo_target (index millis : Z) (p : StopNGo.t)
  (m : motionParameter) (p' : StopNGo.t) :
  Pattern._speed (StopNGo.base p) <> 0 ->
  StopNGo.nextTarget index millis p = Some (m, p') ->
  let b := StopNGo.base p in
  skip m = Pattern._isStillDelayed millis b /\
  stroke m =
    if Pattern._isStillDelayed millis b then stroke (Pattern._nextMove b)
    else if odd_stroke index then
      constrain (wrap_int (Pattern._depth b - Pattern._stroke b))
                0 (Pattern._depth b)
    else Pattern._depth b.
Proof.
  intros Hv E. apply speed_nonzero in Hv.
  unfold StopNGo.nextTarget in E. rewrite Hv in E. cbv zeta in E |- *.
  destruct (Pattern._isStillDelayed millis (StopNGo.base p));
    cbn [negb] in E;
    [|destruct (odd_stroke index)];
    cbv beta iota zeta in E; inv_binds E; injection E as <- <-;
    cbv zeta; cbn [skip stroke]; now split.
Qed.

(** X4: the targets of the strokes.  With a depth and a stroke that are
    not negative and a sensation within [-100, 100], the patterns with
    integer targets other than SimplePenetration (TeasingPounding,
    RoboStroke, HalfnHalf, Deeper and StopNGo) keep the targets of the
    commands they return within the stroke below the depth: the target of
    a stroke out (odd index) is at least [max(depth - stroke, 0)], the
    target of a stroke in (even index) is at most the depth, and no stroke
    out ends above a stroke in.  SimplePenetration has the indexes the
    other way round and ignores the stroke: the odd index goes to the
    depth, the even one to 0.  (With a speed that is not 0 and a stroke or
    a depth of 0 only SimplePenetration and RoboStroke return a command.) *)
Theorem targets_in_stroke_window (p : pattern) (i j millis millis' : Z)
  (s : Q) (m1 m2 : motionParameter) (p1 p2 : pattern) :
  let b := base_of p in
  integer_targets p = true ->
  well_typed b ->
  0 <= Pattern._depth b -> 0 <= Pattern._stroke b ->
  Pattern._speed b <> 0 ->
  Pattern._sensation b = Fin s -> (-100 <= s <= 100)%Q ->
  odd_stroke i = true -> odd_stroke j = false ->
  nextTarget i millis p = Some (m1, p1) -> skip m1 = false ->
  nextTarget j millis' p = Some (m2, p2) -> skip m2 = false ->
  match p with
  | ASimplePenetration _ =>
      stroke m1 = Pattern._depth b /\ stroke m2 = 0
  | _ =>
      Z.max (Pattern._depth b - Pattern._stroke b) 0 <= stroke m1 /\
      stroke m1 <= stroke m2 /\
      stroke m2 <= Pattern._depth b
  end.
Proof.
  intros b Hi [Ws Wd _ _ _] Hd Hs Hv Hse Hr Oi Oj E1 K1 E2 K2.
  assert (Bd : 0 <= Pattern._depth b <= INT_MAX)
    by (unfold in_int in Wd; lia).
  assert (Bs : 0 <= Pattern._stroke b <= INT_MAX)
    by (unfold in_int in Ws; lia).
  assert (O := out_target Bd Bs).
  assert (I := fun a => @in_target _ _ a Bd Bs).
  assert (Hv' := Hv). apply speed_nonzero in Hv.
  destruct p as [p|p|p|p|p|p|p]; cbn [nextTarget tag base_of] in *;
    subst b;
    apply bind_Some in E1 as ([n1 q1] & E1 & F1); injection F1 as <- <-;
    apply bind_Some in E2 as ([n2 q2] & E2 & F2); injection F2 as <- <-;
    cbn [fst] in *.
  - unfold SimplePenetration.nextTarget in E1, E2.
    rewrite Hv in E1, E2. cbv zeta in E1, E2.
    inv_binds E1. inv_binds E2.
    injection E1 as <- _. injection E2 as <- _.
    cbn [stroke]. rewrite Oi, Oj. now split.
  - unfold TeasingPounding.nextTarget in E1, E2.
    rewrite Hv in E1, E2. cbv zeta in E1, E2.
    rewrite TeasingPounding_base_timing in E1, E2.
    cbn [TeasingPounding.base TeasingPounding.set_timeOfStroke] in E1, E2.
    rewrite Oi in E1. rewrite Oj in E2.
    apply bind_Some in E1 as (c1 & C1 & E1).
    apply bind_Some in E2 as (c2 & C2 & E2).
    injection E1 as <- _. injection E2 as <- _.
    inv_binds C1. inv_binds C2.
    injection C1 as <-. injection C2 as <-. cbn [stroke].
    rewrite O. lia.
  - unfold RoboStroke.nextTarget in E1, E2.
    rewrite Hv in E1, E2. cbv zeta in E1, E2.
    inv_binds E1. inv_binds E2.
    injection E1 as <- _. injection E2 as <- _.
    cbn [stroke]. rewrite Oi, Oj, O. lia.
  - assert (T1 := @HalfnHalf_target _ _ _ _ Hv' E1).
    assert (T2 := @HalfnHalf_target _ _ _ _ Hv' E2).
    cbv zeta in T1, T2. rewrite Oi in T1. rewrite Oj in T2.
    rewrite T1, T2, O.
    match goal with
    | |- context [constrain (wrap_int (_ + ?a))] =>
        assert (Ha : 0 <= a <= Pattern._stroke (HalfnHalf.base p))
    end.
    { destruct (if j =? 0 then true else HalfnHalf._half p); [|lia].
      rewrite wrap_int_id by (unfold in_int, INT_MIN, INT_MAX in *; lia).
      unfold INT_MAX in *; lia. }
    specialize (I _ Ha). lia.
  - destruct (@Deeper_target _ _ _ _ Hv' E1) as (r1 & R1 & _ & _ & T1).
    destruct (@Deeper_target _ _ _ _ Hv' E2) as (r2 & R2 & _ & _ & T2).
    cbv zeta in R2, T1, T2. rewrite Oi in T1. rewrite Oj in T2.
    rewrite Hse in R2. apply (ramp_bounds Hr) in R2.
    assert (C : 1 <= Deeper.cycleIndex j r2 <= r2)
      by (apply cycleIndex_bounds; unfold INT_MAX; lia).
    destruct (@amplitude_bounds (Pattern._stroke (Deeper.base p)) r2 _ Bs
                ltac:(unfold INT_MAX; lia) C) as [A1 A2].
    rewrite T1, T2, O, A1. specialize (I _ A2). lia.
  - destruct (@StopNGo_target _ _ _ _ _ Hv' E1) as [S1 T1].
    destruct (@StopNGo_target _ _ _ _ _ Hv' E2) as [S2 T2].
    cbv zeta in S1, S2, T1, T2.
    rewrite <- S1, K1, Oi in T1. rewrite <- S2, K2, Oj in T2.
    rewrite T1, T2, O. lia.
  - discriminate Hi.
Qed.

Lemma targets_in_stroke_window_witness :
  let p :=
    started (AHalfnHalf (HalfnHalf.init 0 0 0)) 1000 10000 1000 400 100 in
  exists m1 p1 m2 p2,
    nextTarget 1 0 p = Some (m1, p1) /\
    nextTarget 2 0 p = Some (m2, p2) /\
    Z.max (1000 - 400) 0 <= stroke m1 /\
    stroke m1 <= stroke m2 /\
    stroke m2 <= 1000.
Proof.
  cbv zeta. do 4 eexists.
  split; [vm_compute; reflexivity|]. split; [vm_compute; reflexivity|].
  eapply (@targets_in_stroke_window
           (started (AHalfnHalf (HalfnHalf.init 0 0 0)) 1000 10000 1000 400 100)
           1 2 0 0 0).
  - reflexivity.
  - constructor; split; discriminate.
  - discriminate.
  - discriminate.
  - discriminate.
  - reflexivity.
  - split; discriminate.
  - reflexivity.
  - reflexivity.
  - vm_compute. reflexivity.
  - reflexivity.
  - vm_compute. reflexivity.
  - reflexivity.
Defined.

(** Beyond [2 ^ 24] steps the conversion [(float)_stroke] rounds: a stroke
    of 16777219 steps is taken for 16777220, and with the depth 20000000
    and the sensation [10 ^ -6] the stroke out ends at 3222780, one step
    below [depth - stroke]. *)
Lemma insist_target_below_window :
  let p := Insist.upd_base (Pattern.setSensation (Fin (1 # 1000000)))
             (Insist.upd_base (Pattern.setSpeedLimit 1000 10000 80)
                (Insist.init 16777219 20000000 100)) in
  exists m p',
    Binary32.Insist_nextTarget 1 p = Some (m, p') /\
    stroke m = 3222780 /\
    Pattern._depth (Insist.base p) - Pattern._stroke (Insist.base p)
    = 3222781.
Proof.
  cbv zeta. do 2 eexists. split; [vm_compute; reflexivity|].
  split; reflexivity.
Qed.

(** X18: the targets of Insist, computed in binary32.  With a depth that
    is not negative, a stroke of at most [2 ^ 24] steps and a sensation
    within [-100, 100], the target of a stroke out (odd index) is at least
    [max(depth - stroke, 0)], the target of a stroke in (even index) is at
    most the depth, and no stroke out ends above a stroke in. *)
Theorem insist_targets_in_stroke_window (p : Insist.t) (s : Q) (i j : Z)
  (m1 m2 : motionParameter) (p1 p2 : Insist.t) :
  let b := Insist.base p in
  0 <= Pattern._depth b <= INT_MAX ->
  0 <= Pattern._stroke b <= 2 ^ 24 ->
  Pattern._speed b <> 0 ->
  Pattern._sensation b = Fin s -> (-100 <= s <= 100)%Q ->
  odd_stroke i = true -> odd_stroke j = false ->
  Binary32.Insist_nextTarget i p = Some (m1, p1) ->
  Binary32.Insist_nextTarget j p = Some (m2, p2) ->
  Z.max (Pattern._depth b - Pattern._stroke b) 0 <= stroke m1 /\
  stroke m1 <= stroke m2 /\
  stroke m2 <= Pattern._depth b.
Proof.
  intros b Hd Hz Hv Hs Hr Oi Oj E1 E2.
  apply speed_nonzero in Hv.
  unfold Binary32.Insist_nextTarget in E1, E2. fold b in E1, E2.
  rewrite Hv in E1, E2. cbv zeta in E1, E2.
  set (q := Insist.set_timeOfStroke _ p) in E1, E2.
  destruct (@Insist_updateRealStroke_Fin q s Hz Hs
              ltac:(apply Qabs_le_100; exact Hr))
    as (f & g & U & _ & _ & _ & Bg).
  rewrite U in E1, E2. cbn [bind] in E1, E2.
  assert (Tg : 0 <= Qtrunc g <= Pattern._stroke b).
  { destruct Bg as [G1 G2]. apply Qtrunc_mono in G1, G2.
    rewrite Qtrunc_inject_Z in G2. change (Qtrunc 0) with 0 in G1.
    cbn [q Insist.set_timeOfStroke Insist.base] in G2. fold b in G2. lia. }
  inv_bind E1. inv_bind E1. injection E1 as <- _.
  inv_bind E2. inv_bind E2. injection E2 as <- _.
  cbn [stroke Insist.base Insist._realStroke Insist._strokeInFront q
       Insist.set_timeOfStroke].
  fold b. rewrite Oi, Oj.
  assert (Hz' : 0 <= Pattern._stroke b <= INT_MAX)
    by (unfold INT_MAX; change (2 ^ 24) with 16777216 in Hz; lia).
  assert (Hg : 0 <= Qtrunc g <= INT_MAX) by lia.
  pose proof (@out_target (Pattern._depth b) (Pattern._stroke b) Hd Hz') as O1.
  pose proof (@out_target (Pattern._depth b) (Qtrunc g) Hd Hg) as O2.
  pose proof (@in_target (Pattern._depth b) (Pattern._stroke b) (Qtrunc g)
                Hd Hz' Tg) as I1.
  destruct (0 ?= s)%Q; cbv beta iota; lia.
Qed.

Lemma insist_targets_in_stroke_window_witness :
  let p := Insist.upd_base (Pattern.setSensation (Fin 41))
             (Insist.upd_base (Pattern.setSpeedLimit 1000 10000 80)
                (Insist.init 100 100 50)) in
  exists m1 p1 m2 p2,
    Binary32.Insist_nextTarget 1 p = Some (m1, p1) /\
    Binary32.Insist_nextTarget 2 p = Some (m2, p2) /\
    Z.max (100 - 100) 0 <= stroke m1 /\
    stroke m1 <= stroke m2 /\ stroke m2 <= 100.
Proof.
  cbv zeta. do 4 eexists.
  split; [vm_compute; reflexivity|]. split; [vm_compute; reflexivity|].
  eapply (@insist_targets_in_stroke_window
            (Insist.upd_base (Pattern.setSensation (Fin 41))
               (Insist.upd_base (Pattern.setSpeedLimit 1000 10000 80)
                  (Insist.init 100 100 50))) 41 1 2).
  - split; discriminate.
  - split; discriminate.
  - discriminate.
  - reflexivity.
  - split; discriminate.
  - reflexivity.
  - reflexivity.
  - vm_compute; reflexivity.
  - vm_compute; reflexivity.
Defined.

(* ================================================================== *)
(** ** The ramp of Deeper *)

Lemma constrain_mono (x y low high : Z) :
  x <= y -> low <= high -> constrain x low high <= constrain y low high.
Proof.
  unfold constrain. intros H L.
  destruct (x <? low) eqn:E1, (y <? low) eqn:E2,
    (x >? high) eqn:E3, (y >? high) eqn:E4; lia.
Qed.

Lemma mod_succ (k r : Z) :
  0 < r -> k mod r < r - 1 -> (k + 1) mod r = k mod r + 1.
Proof.
  intros Hr H. symmetry.
  apply (Z.mod_unique (k + 1) r (k / r)).
  - left. assert (B := Z.mod_pos_bound k r Hr). lia.
  - rewrite (Z.div_mod k r) at 1 by lia. ring.
Qed.

Lemma mod_wrap (k r : Z) :
  0 < r -> k mod r = r - 1 -> (k + 1) mod r = 0.
Proof.
  intros Hr H. symmetry.
  apply (Z.mod_unique (k + 1) r (k / r + 1)).
  - left. lia.
  - rewrite (Z.div_mod k r) at 1 by lia. rewrite H. ring.
Qed.

(** X5: the ramp of Deeper.  With [r] the number of strokes of the ramp,
    the stroke in of the index [2 k] goes to
    [clamp(depth - stroke + (stroke / r) * (k mod r + 1), 0, depth)]: the
    targets do not decrease along a ramp, the last stroke of a ramp reaches
    [depth - stroke mod r] (the depth itself only when [r] divides the
    stroke), and the stroke after it starts the ramp again. *)
Theorem deeper_ramp_targets (p : Deeper.t) (s : Q) :
  let b := Deeper.base p in
  let d := Pattern._depth b in
  let z := Pattern._stroke b in
  well_typed b -> 0 <= d -> 0 <= z ->
  Pattern._speed b <> 0 ->
  Pattern._sensation b = Fin s -> (-100 <= s <= 100)%Q ->
  exists r,
    Deeper.countStrokesForRamp (Fin s) = Some r /\ 2 <= r <= 32 /\
    let target k := constrain (d - z + z / r * (k mod r + 1)) 0 d in
    (forall k m p', 0 <= k ->
       Deeper.nextTarget (2 * k) p = Some (m, p') -> stroke m = target k) /\
    (forall k, k mod r < r - 1 -> target k <= target (k + 1)) /\
    (forall k, k mod r = r - 1 ->
       target k = constrain (d - z mod r) 0 d /\
       target (k + 1) = target 0).
Proof.
  intros b d z [Ws Wd _ _ _] Hd Hz Hv Hse Hr.
  assert (Bd : 0 <= d <= INT_MAX) by (unfold in_int in Wd; lia).
  assert (Bz : 0 <= z <= INT_MAX) by (unfold in_int in Ws; lia).
  destruct (countStrokesForRamp_Fin Hr) as (r & R & _).
  assert (Br := ramp_bounds Hr R).
  exists r. split; [exact R|]. split; [exact Br|].
  cbv zeta. split; [|split].
  - intros k m p' Hk E.
    destruct (@Deeper_target _ _ _ _ Hv E) as (r' & R' & _ & _ & T).
    cbv zeta in R', T. fold b in R', T. rewrite Hse, R in R'.
    injection R' as <-.
    replace (odd_stroke (2 * k)) with false in T
      by (unfold odd_stroke; rewrite Z.mul_comm, Z.mod_mul by lia;
          reflexivity).
    destruct (@cycleIndex_pair k r Hk ltac:(unfold INT_MAX; lia)) as [C _].
    rewrite C in T.
    assert (M := Z.mod_pos_bound k r ltac:(lia)).
    destruct (@amplitude_bounds z r (k mod r + 1) Bz
                ltac:(unfold INT_MAX; lia) ltac:(lia)) as [A1 A2].
    fold d z in T. rewrite A1 in T.
    rewrite Z.quot_div_nonneg in * by lia.
    rewrite (@wrap_int_id (d - z)) in T
      by (unfold in_int, INT_MIN, INT_MAX in *; lia).
    rewrite wrap_int_id in T
      by (unfold in_int, INT_MIN, INT_MAX in *; lia).
    exact T.
  - intros k H. apply constrain_mono; [|lia].
    rewrite (@mod_succ k r) by lia.
    assert (Q0 : 0 <= z / r) by (apply Z.div_pos; lia). nia.
  - intros k H. split.
    + f_equal. rewrite H, (Z.mod_eq z r) by lia. ring.
    + rewrite (@mod_wrap k r) by lia. rewrite Z.mod_0_l by lia. reflexivity.
Qed.

Lemma deeper_ramp_targets_witness :
  let p := Deeper.upd_base (Pattern.setSpeedLimit 1000 10000 80)
             (Deeper.init 400 1000 100) in
  exists r,
    Deeper.countStrokesForRamp (Fin 0) = Some r /\ 2 <= r <= 32 /\
    (forall k m p', 0 <= k ->
       Deeper.nextTarget (2 * k) p = Some (m, p') ->
       stroke m = constrain (1000 - 400 + 400 / r * (k mod r + 1)) 0 1000).
Proof.
  cbv zeta.
  destruct (@deeper_ramp_targets
              (Deeper.upd_base (Pattern.setSpeedLimit 1000 10000 80)
                 (Deeper.init 400 1000 100)) 0) as (r & R & B & T & _).
  - constructor; split; discriminate.
  - discriminate.
  - discriminate.
  - discriminate.
  - reflexivity.
  - split; discriminate.
  - exists r. split; [exact R|]. split; [exact B|exact T].
Defined.

Lemma abs_int_id (z : Z) : 0 <= z <= INT_MAX -> abs_int z = z.
Proof.
  intros H. unfold abs_int. rewrite Z.abs_eq by lia.
  apply wrap_int_id. unfold in_int, INT_MIN, INT_MAX in *. lia.
Qed.

(** The time of stroke of the base class, for a range of stroke and a
    divisor that are positive. *)
Lemma timeOfStroke_Fin (b : Pattern.t) :
  0 <= Pattern._depth b <= INT_MAX -> 0 <= Pattern._stroke b <= INT_MAX ->
  1 <= Pattern._maxSpeed b ->
  let range := Z.min (Pattern._depth b) (Pattern._stroke b) in
  let divisor := Pattern.speedDivisor b in
  1 <= divisor <= Pattern._maxSpeed b /\
  Pattern._calTimeOfStroke b = Fin (inject_Z range / inject_Z divisor).
Proof.
  intros Hd Hs Hm range divisor.
  assert (D : 1 <= divisor <= Pattern._maxSpeed b)
    by (unfold divisor, Pattern.speedDivisor; now apply constrain_bounds).
  split; [exact D|].
  unfold Pattern._calTimeOfStroke, Pattern._calRangeOfStroke, of_int.
  rewrite !abs_int_id by assumption.
  apply fdiv_Fin.
  change 0%Q with (inject_Z 0). rewrite inject_Z_injective.
  fold divisor. lia.
Qed.

Lemma to_int_zero_over (t : Q) (c : Q) :
  ~ (t == 0)%Q -> to_int (fdiv (fmul (Fin c) (of_int 0)) (Fin t)) = Some 0.
Proof.
  intros H. unfold of_int. cbn [fmul]. rewrite fdiv_Fin by exact H.
  assert (E : (c * inject_Z 0 / t == inject_Z 0)%Q).
  { change (inject_Z 0) with 0%Q. field. exact H. }
  rewrite (@to_int_Fin (c * inject_Z 0 / t));
    rewrite (Qtrunc_comp E), Qtrunc_inject_Z; [reflexivity|].
  unfold in_int, INT_MIN, INT_MAX. lia.
Qed.

(** X6: a stroke of fewer steps than the ramp has strokes makes Deeper
    stand still: the slope [_stroke / _countStrokesForRamp] is 0, so that
    every command has the speed 0, the acceleration 0 and the target
    [depth - stroke] of the stroke out. *)
Theorem deeper_short_stroke_stalls (p : Deeper.t) (s : Q) (r index : Z) :
  let b := Deeper.base p in
  well_typed b ->
  0 < Pattern._depth b -> 0 < Pattern._stroke b ->
  Pattern._speed b <> 0 -> 1 <= Pattern._maxSpeed b ->
  Pattern._sensation b = Fin s -> (-100 <= s <= 100)%Q ->
  Deeper.countStrokesForRamp (Fin s) = Some r ->
  Pattern._stroke b < r ->
  exists p',
    Deeper.nextTarget index p =
    Some ({| stroke := Z.max (Pattern._depth b - Pattern._stroke b) 0;
             speed := 0; acceleration := 0; skip := false |}, p').
Proof.
  intros b [Ws Wd _ Wm Wa] Hd Hz Hv Hm Hse Hr R Hlt.
  assert (Bd : 0 <= Pattern._depth b <= INT_MAX)
    by (unfold in_int in Wd; lia).
  assert (Bz : 0 <= Pattern._stroke b <= INT_MAX)
    by (unfold in_int in Ws; lia).
  assert (Br := ramp_bounds Hr R).
  destruct (@timeOfStroke_Fin b Bd Bz Hm) as [D T]. cbv zeta in D, T.
  assert (N : ~ (inject_Z (Z.min (Pattern._depth b) (Pattern._stroke b))
                 / inject_Z (Pattern.speedDivisor b) == 0)%Q).
  { intros E.
    assert (P : (0 < inject_Z (Z.min (Pattern._depth b) (Pattern._stroke b))
                     / inject_Z (Pattern.speedDivisor b))%Q).
    { apply Qlt_shift_div_l.
      - change 0%Q with (inject_Z 0). rewrite <- Zlt_Qlt. lia.
      - rewrite Qmult_0_l. change 0%Q with (inject_Z 0).
        rewrite <- Zlt_Qlt. lia. }
    rewrite E in P. now apply Qlt_irrefl in P. }
  apply speed_nonzero in Hv.
  unfold Deeper.nextTarget. fold b. rewrite Hv, Hse, R. cbv zeta.
  cbn [bind]. replace (r =? 0) with false by (symmetry; apply Z.eqb_neq; lia).
  replace (Pattern._stroke b ÷ r) with 0
    by (symmetry; apply Z.quot_small; lia).
  change (wrap_int 0) with 0. rewrite Z.mul_0_l. change (wrap_int 0) with 0.
  rewrite T, (to_int_zero_over _ N). cbn [bind].
  replace (constrain 0 0 (Pattern._maxSpeed b)) with 0
    by (unfold constrain; cbn; destruct (0 >? Pattern._maxSpeed b) eqn:E;
        [lia | reflexivity]).
  rewrite (to_int_zero_over _ N). cbn [bind].
  replace (constrain 0 0 (Pattern._maxAcceleration b)) with 0
    by (unfold constrain; cbn;
        destruct (0 >? Pattern._maxAcceleration b) eqn:E;
        [unfold in_uint in Wa; lia | reflexivity]).
  rewrite Z.add_0_r, (@wrap_int_id (wrap_int _))
    by (rewrite wrap_int_id; unfold in_int, INT_MIN, INT_MAX in *; lia).
  rewrite (out_target Bd Bz).
  destruct (odd_stroke index); eexists; reflexivity.
Qed.

Lemma deeper_short_stroke_stalls_witness :
  let p := Deeper.upd_base (Pattern.setSpeedLimit 1000 10000 80)
             (Deeper.init 7 1000 100) in
  exists p',
    Deeper.nextTarget 6 p =
    Some ({| stroke := 993; speed := 0; acceleration := 0; skip := false |},
          p').
Proof.
  cbv zeta.
  apply (@deeper_short_stroke_stalls
           (Deeper.upd_base (Pattern.setSpeedLimit 1000 10000 80)
              (Deeper.init 7 1000 100)) 0 11 6).
  - constructor; split; discriminate.
  - reflexivity.
  - reflexivity.
  - discriminate.
  - discriminate.
  - reflexivity.
  - split; discriminate.
  - reflexivity.
  - reflexivity.
Defined.

(** X7: Deeper does not clamp the sensation.  For a sensation whose
    integer part is between -133 and -123,
    [map(_sensation, -100, 0, 2, 11)] is 0 and the slope
    [_stroke / _countStrokesForRamp] is an integer division by zero: the
    call has no defined result. *)
Theorem deeper_zero_ramp (p : Deeper.t) (s : Q) (index : Z) :
  Pattern._speed (Deeper.base p) <> 0 ->
  Pattern._sensation (Deeper.base p) = Fin s ->
  (-134 < s <= -123)%Q ->
  Deeper.countStrokesForRamp (Fin s) = Some 0 /\
  Deeper.nextTarget index p = None.
Proof.
  intros Hv Hs [L U].
  assert (T : -133 <= Qtrunc s <= -123).
  { split.
    - rewrite Qtrunc_ceiling by lra.
      assert (C := Qle_ceiling s).
      assert (D : (-134 < inject_Z (Qceiling s))%Q) by lra.
      change (-134)%Q with (inject_Z (-134)) in D.
      rewrite <- Zlt_Qlt in D. lia.
    - change (-123) with (Qtrunc (inject_Z (-123))).
      now apply Qtrunc_mono. }
  assert (R : Deeper.countStrokesForRamp (Fin s) = Some 0).
  { unfold Deeper.countStrokesForRamp.
    replace (flt (Fin s) (of_int 0)) with true
      by (symmetry; apply flt_Fin_0; lra).
    unfold to_long. rewrite to_int_Fin
      by (unfold in_int, INT_MIN, INT_MAX; lia).
    cbn [bind]. f_equal.
    assert (C : Qtrunc s = -133 \/ Qtrunc s = -132 \/ Qtrunc s = -131 \/
                Qtrunc s = -130 \/ Qtrunc s = -129 \/ Qtrunc s = -128 \/
                Qtrunc s = -127 \/ Qtrunc s = -126 \/ Qtrunc s = -125 \/
                Qtrunc s = -124 \/ Qtrunc s = -123) by lia.
    repeat (destruct C as [-> | C]; [reflexivity|]).
    now rewrite C. }
  split; [exact R|].
  apply speed_nonzero in Hv.
  unfold Deeper.nextTarget. rewrite Hv, Hs, R. reflexivity.
Qed.

Lemma deeper_zero_ramp_witness :
  let p := Deeper.upd_base (Pattern.setSensation (Fin (-125)))
             (Deeper.init 400 1000 100) in
  Deeper.countStrokesForRamp (Fin (-125)) = Some 0 /\
  Deeper.nextTarget 0 p = None.
Proof.
  cbv zeta.
  apply (@deeper_zero_ramp
           (Deeper.upd_base (Pattern.setSensation (Fin (-125)))
              (Deeper.init 400 1000 100)) (-125) 0).
  - discriminate.
  - reflexivity.
  - split; [reflexivity | discriminate].
Defined.

(* ================================================================== *)
(** ** Conversions with no defined result *)

Lemma Qcompare_zero (q : Q) : (q == 0)%Q -> (q ?= 0)%Q = Eq.
Proof. intros H. now apply Qeq_alt. Qed.

Lemma Qcompare_zero' (q : Q) : (q == 0)%Q -> (0 ?= q)%Q = Eq.
Proof. intros H. apply Qeq_alt. now symmetry. Qed.

Lemma to_int_div_zero (x z : float) :
  zero_or_nan z -> to_int (fdiv x z) = None.
Proof.
  destruct z as [b| | |]; cbn [zero_or_nan]; intros H; try contradiction.
  - destruct x as [a| | |]; cbn [fdiv]; rewrite ?(Qcompare_zero H);
      try reflexivity.
    now destruct (a ?= 0)%Q.
  - now destruct x.
Qed.

Lemma zero_div (z x : float) : zero_or_nan z -> zero_or_nan (fdiv z x).
Proof.
  destruct z as [a| | |]; cbn [zero_or_nan]; intros H; try contradiction.
  - destruct x as [b| | |]; cbn [fdiv zero_or_nan]; try reflexivity.
    destruct (b ?= 0)%Q eqn:E.
    + now rewrite (Qcompare_zero H).
    + cbn. rewrite H. apply Qmult_0_l.
    + cbn. rewrite H. apply Qmult_0_l.
  - now destruct x.
Qed.

Lemma zero_mul (z x : float) : zero_or_nan z -> zero_or_nan (fmul z x).
Proof.
  destruct z as [a| | |]; cbn [zero_or_nan]; intros H; try contradiction.
  - destruct x as [b| | |]; cbn [fmul zero_or_nan].
    + rewrite H. apply Qmult_0_l.
    + now rewrite (Qcompare_zero H).
    + now rewrite (Qcompare_zero' H).
    + exact I.
  - now destruct x.
Qed.

Lemma zero_mul_r (x z : float) : zero_or_nan z -> zero_or_nan (fmul x z).
Proof.
  destruct z as [a| | |]; cbn [zero_or_nan]; intros H; try contradiction.
  - destruct x as [b| | |]; cbn [fmul zero_or_nan].
    + rewrite H. apply Qmult_0_r.
    + now rewrite (Qcompare_zero H).
    + now rewrite (Qcompare_zero' H).
    + exact I.
  - now destruct x.
Qed.

Lemma zero_sub (x y : float) :
  zero_or_nan x -> zero_or_nan y -> zero_or_nan (fsub x y).
Proof.
  destruct x as [a| | |], y as [b| | |]; cbn; try tauto.
  intros -> ->. reflexivity.
Qed.

Lemma zero_range_time (b : Pattern.t) (c : Q) :
  well_typed b -> 0 <= Pattern._depth b -> 0 <= Pattern._stroke b ->
  Pattern._stroke b = 0 \/ Pattern._depth b = 0 ->
  zero_or_nan (fdiv (fmul (Fin c) (Pattern._calRangeOfStroke b))
                    (of_int (Pattern.speedDivisor b))) /\
  zero_or_nan (Pattern._calTimeOfStroke b).
Proof.
  intros [Ws Wd _ _ _] Hd Hs H.
  assert (R : Pattern._calRangeOfStroke b = Fin (inject_Z 0)).
  { unfold Pattern._calRangeOfStroke, of_int.
    rewrite !abs_int_id by (unfold in_int, INT_MAX in *; lia).
    do 2 f_equal. lia. }
  unfold Pattern._calTimeOfStroke. rewrite R. split.
  - apply zero_div. cbn. apply Qmult_0_r.
  - apply zero_div. reflexivity.
Qed.

Lemma bind_None {A B : Type} (c : option A) (k : A -> option B) :
  (forall a, k a = None) -> bind c k = None.
Proof. intros H. destruct c; [apply H | reflexivity]. Qed.

(** X8: a stroke or a depth of 0 together with a speed that is not 0.
    The time of stroke is then 0 (NaN where the divisor is 0 too), and
    TeasingPounding, HalfnHalf, Deeper, StopNGo and Insist convert a
    quotient by it, an infinity or NaN, to [int]: a conversion with no
    defined result. *)
Theorem zero_range_undefined (p : pattern) (index millis : Z) :
  let b := base_of p in
  divides_by_time p = true ->
  well_typed b -> 0 <= Pattern._depth b -> 0 <= Pattern._stroke b ->
  Pattern._stroke b = 0 \/ Pattern._depth b = 0 ->
  Pattern._speed b <> 0 ->
  zero_or_nan (Pattern._calTimeOfStroke b) /\
  nextTarget index millis p = None.
Proof.
  intros b Hp W Hd Hs H0 Hv.
  destruct (@zero_range_time b 2 W Hd Hs H0) as [T2 T].
  split; [exact T|].
  apply speed_nonzero in Hv.
  destruct p as [p|p|p|p|p|p|p]; try discriminate Hp;
    cbn [nextTarget base_of] in *; subst b; unfold tag.
  - unfold TeasingPounding.nextTarget. rewrite Hv. cbv zeta.
    set (q := TeasingPounding._updateStrokeTiming _).
    assert (Z : zero_or_nan (TeasingPounding._timeOfInStroke q) /\
                zero_or_nan (TeasingPounding._timeOfOutStroke q)).
    { unfold q, TeasingPounding._updateStrokeTiming,
        TeasingPounding._calTimeOfStroke.
      cbn [TeasingPounding._timeOfStroke TeasingPounding.set_timeOfStroke
           TeasingPounding.base].
      assert (F := @zero_div _
                     (fscale (Fin 0) (Fin 100) (Fin 1) (Fin 5)
                        (fabs (Pattern._sensation (TeasingPounding.base p))))
                     (@zero_mul_r (Fin 0.5) _ T2)).
      destruct (fgt _ _);
        cbn [TeasingPounding._timeOfInStroke
             TeasingPounding._timeOfOutStroke];
        split; try exact F; now apply zero_sub. }
    destruct Z as [Zi Zo].
    destruct (odd_stroke index);
      [rewrite (@to_int_div_zero _ _ Zo) | rewrite (@to_int_div_zero _ _ Zi)];
      reflexivity.
  - unfold HalfnHalf.nextTarget. rewrite Hv. cbv zeta.
    set (q0 := HalfnHalf._updateStrokeTiming _).
    assert (Z : zero_or_nan (HalfnHalf._timeOfInStroke q0) /\
                zero_or_nan (HalfnHalf._timeOfOutStroke q0)).
    { unfold q0, HalfnHalf._updateStrokeTiming, HalfnHalf._calTimeOfStroke.
      cbn [HalfnHalf._timeOfStroke HalfnHalf.set_timeOfStroke
           HalfnHalf.base].
      assert (F := @zero_div _
                     (fscale (Fin 0) (Fin 100) (Fin 1) (Fin 5)
                        (fabs (Pattern._sensation (HalfnHalf.base p))))
                     (@zero_mul_r (Fin 0.5) _ T2)).
      destruct (fgt _ _);
        cbn [HalfnHalf._timeOfInStroke HalfnHalf._timeOfOutStroke];
        split; try exact F; now apply zero_sub. }
    destruct Z as [Zi Zo].
    set (q := if index =? 0 then _ else _).
    assert (Zq : zero_or_nan (HalfnHalf._timeOfInStroke q) /\
                 zero_or_nan (HalfnHalf._timeOfOutStroke q))
      by (unfold q; destruct (index =? 0); now split).
    destruct Zq as [Zi' Zo'].
    destruct (odd_stroke index);
      [rewrite (@to_int_div_zero _ _ Zo')
      | rewrite (@to_int_div_zero _ _ Zi')];
      reflexivity.
  - enough (N : Deeper.nextTarget index p = None) by now rewrite N.
    unfold Deeper.nextTarget. rewrite Hv. cbv zeta.
    apply bind_None. intros r. destruct (r =? 0); [reflexivity|].
    now rewrite (@to_int_div_zero _ _ T).
  - enough (N : StopNGo.nextTarget index millis p = None) by now rewrite N.
    unfold StopNGo.nextTarget. rewrite Hv. cbv zeta.
    destruct (negb _);
      [destruct (odd_stroke index)|]; cbv beta iota zeta;
      apply bind_None; intros i; now rewrite (@to_int_div_zero _ _ T).
  - enough (N : Insist.nextTarget index p = None) by now rewrite N.
    unfold Insist.nextTarget. rewrite Hv. cbv zeta.
    destruct (Insist._updateRealStroke _) as [q|] eqn:Q; [|reflexivity].
    unfold Insist._updateRealStroke in Q. inv_bind Q. injection Q as <-.
    cbn [bind Insist.base Insist.set_timeOfStroke Insist._timeOfStroke
         Insist._strokeFraction].
    apply bind_None. intros i.
    now rewrite (@to_int_div_zero _ _ (@zero_mul _ _ T)).
Qed.

Lemma zero_range_undefined_witness :
  let p := started (ATeasingPounding (TeasingPounding.init 0 0 0))
             1000 10000 1000 0 100 in
  zero_or_nan (Pattern._calTimeOfStroke (base_of p)) /\
  nextTarget 0 0 p = None.
Proof.
  cbv zeta.
  apply (@zero_range_undefined
           (started (ATeasingPounding (TeasingPounding.init 0 0 0))
              1000 10000 1000 0 100) 0 0).
  - reflexivity.
  - constructor; split; discriminate.
  - discriminate.
  - discriminate.
  - left. reflexivity.
  - discriminate.
Defined.

(** X9: Insist at the sensation 100 or -100 with a speed that is not 0.
    The fraction of the stroke is 0: the real stroke is 0, and the
    acceleration [3.0 * speed / (_timeOfStroke * _strokeFraction)] is a
    quotient by 0 (or by NaN), so that the value converted to [int] is an
    infinity or NaN, a conversion with no defined result. *)
Theorem insist_full_sensation_undefined (p : Insist.t) (s : Q) (index : Z) :
  Pattern._speed (Insist.base p) <> 0 ->
  Pattern._sensation (Insist.base p) = Fin s ->
  (Qabs s == 100)%Q ->
  (forall q, Insist._updateRealStroke p = Some q ->
     zero_or_nan (Insist._strokeFraction q) /\ Insist._realStroke q = 0) /\
  Insist.nextTarget index p = None.
Proof.
  intros Hv Hse Hs.
  destruct (fabs_Fin s) as (a & A & Ha).
  assert (F : forall t r0 f0 i0, 
             Insist._updateRealStroke
               {| Insist.base := Insist.base p; Insist._timeOfStroke := t;
                  Insist._realStroke := r0; Insist._strokeFraction := f0;
                  Insist._strokeInFront := i0 |} =
             Some {| Insist.base := Insist.base p;
                     Insist._timeOfStroke := t;
                     Insist._realStroke := 0;
                     Insist._strokeFraction :=
                       Fin ((inject_Z 100 + - a) / 100);
                     Insist._strokeInFront :=
                       if fgt (Fin s) (of_int 0) then true else false |}).
  { intros t r0 f0 i0. unfold Insist._updateRealStroke.
    cbn [Insist.base Insist._timeOfStroke]. rewrite Hse, A.
    unfold of_int. cbn [fsub fopp fadd].
    rewrite fdiv_Fin by discriminate. cbn [fmul].
    assert (E : (inject_Z (Pattern._stroke (Insist.base p))
                 * ((inject_Z 100 + - a) / 100) == inject_Z 0)%Q).
    { rewrite Ha, Hs. change (inject_Z 100) with 100%Q.
      change (inject_Z 0) with 0%Q. field. }
    rewrite to_int_Fin; rewrite (Qtrunc_comp E), Qtrunc_inject_Z;
      [reflexivity|].
    unfold in_int, INT_MIN, INT_MAX. lia. }
  assert (Z : ((inject_Z 100 + - a) / 100 == 0)%Q).
  { rewrite Ha, Hs. change (inject_Z 100) with 100%Q. field. }
  split.
  - intros q Q. destruct p as [b t r0 f0 i0]. cbn [Insist.base] in F.
    rewrite F in Q. injection Q as <-. cbn. now split.
  - apply speed_nonzero in Hv.
    unfold Insist.nextTarget. rewrite Hv. cbv zeta.
    destruct p as [b t r0 f0 i0]. unfold Insist.set_timeOfStroke.
    cbn [Insist.base Insist._timeOfStroke Insist._realStroke
         Insist._strokeFraction Insist._strokeInFront] in *.
    rewrite F. cbn [bind Insist.base Insist._timeOfStroke
                    Insist._strokeFraction].
    apply bind_None. intros i.
    assert (Zf : zero_or_nan (Fin ((inject_Z 100 + - a) / 100)))
      by exact Z.
    now rewrite (@to_int_div_zero _ _ (@zero_mul_r _ _ Zf)).
Qed.

Lemma insist_full_sensation_undefined_witness :
  let p := withSensation 100
             (Insist.upd_base (Pattern.setSpeedLimit 1000 10000 80)
                (Insist.init 400 1000 100)) in
  Insist.nextTarget 2 p = None.
Proof.
  cbv zeta.
  apply (@insist_full_sensation_undefined
           (withSensation 100
              (Insist.upd_base (Pattern.setSpeedLimit 1000 10000 80)
                 (Insist.init 400 1000 100))) 100 2).
  - discriminate.
  - reflexivity.
  - reflexivity.
Defined.

(* ================================================================== *)
(** ** The limits of the machine *)

(** Claim C1 (code bug): the command that [nextTarget(index)] returns is
    within the limits of speed and acceleration wherever every conversion
    of the call is defined, and its target is within the depth unless it is
    a skipped command; but there are valid states in which the call has no
    defined result.  TeasingPounding with a stroke of 0 and a speed that is
    not 0 has the time of stroke 0: the speed is
    [constrain(int(1.5 * 0 / 0), 0, _maxSpeed)], the conversion of NaN
    before [constrain] is applied, and the acceleration, a quotient by the
    same 0, is converted after a [constrain] that lets NaN through;
    neither has a defined result.
    With the limits 1000 and 10000, the depth 1000, the stroke 0 and the
    speed 100 no command is defined for an even or for an odd index, where
    SimplePenetration, which clamps the [double] before it converts it,
    returns a command within the limits. *)
Theorem nextTarget_limits_unclamped :
  (forall (p : pattern) (index millis : Z) (m : motionParameter)
          (p' : pattern),
     configured (base_of p) ->
     nextTarget index millis p = Some (m, p') ->
     in_limits (base_of p) m /\
     (skip m = false -> in_depth (base_of p) m) /\
     (skip m = true -> stroke m = stroke (Pattern._nextMove (base_of p)))) /\
  (forall (p : TeasingPounding.t) (index : Z),
     well_typed (TeasingPounding.base p) ->
     configured (TeasingPounding.base p) ->
     Pattern._stroke (TeasingPounding.base p) = 0 ->
     Pattern._speed (TeasingPounding.base p) <> 0 ->
     TeasingPounding.nextTarget index p = None) /\
  (let tp := TeasingPounding.upd_base
               (fun b => Pattern.setSpeed 100
                  (Pattern.setStroke 0
                     (Pattern.setDepth 1000
                        (Pattern.setSpeedLimit 1000 10000 80 b))))
               (TeasingPounding.init 0 0 0) in
   let sp := started (ASimplePenetration (SimplePenetration.init 0 0 0))
               1000 10000 1000 0 100 in
   configured (TeasingPounding.base tp) /\
   feqb (TeasingPounding._calTimeOfStroke tp) (Fin 0) = true /\
   fdiv (fmul (Fin 1.5) (of_int 0)) (Fin 0) = NaN /\
   to_int NaN = None /\
   nextTarget 0 0 (ATeasingPounding tp) = None /\
   nextTarget 1 0 (ATeasingPounding tp) = None /\
   exists m p',
     nextTarget 0 0 sp = Some (m, p') /\
     speed m = 150 /\ acceleration m = 10000 /\ stroke m = 0).
Proof.
  split; [|split].
  - intros p index millis m p' Hc E.
    exact (within_limits_when_defined _ _ _ Hc E).
  - intros p index W C Hz Hv.
    destruct (@zero_range_time (TeasingPounding.base p) 2 W
                (cfg_depth C) ltac:(lia) (or_introl Hz)) as [T2 _].
    apply speed_nonzero in Hv.
    unfold TeasingPounding.nextTarget. rewrite Hv. cbv zeta.
    set (q := TeasingPounding._updateStrokeTiming _).
    assert (Z : zero_or_nan (TeasingPounding._timeOfInStroke q) /\
                zero_or_nan (TeasingPounding._timeOfOutStroke q)).
    { unfold q, TeasingPounding._updateStrokeTiming,
        TeasingPounding._calTimeOfStroke.
      cbn [TeasingPounding._timeOfStroke TeasingPounding.set_timeOfStroke
           TeasingPounding.base].
      assert (F := @zero_div _
                     (fscale (Fin 0) (Fin 100) (Fin 1) (Fin 5)
                        (fabs (Pattern._sensation (TeasingPounding.base p))))
                     (@zero_mul_r (Fin 0.5) _ T2)).
      destruct (fgt _ _);
        cbn [TeasingPounding._timeOfInStroke
             TeasingPounding._timeOfOutStroke];
        split; try exact F; now apply zero_sub. }
    destruct Z as [Zi Zo].
    destruct (odd_stroke index);
      [rewrite (@to_int_div_zero _ _ Zo) | rewrite (@to_int_div_zero _ _ Zi)];
      reflexivity.
  - cbv zeta. split; [constructor; discriminate|].
    split; [reflexivity|]. split; [reflexivity|]. split; [reflexivity|].
    split; [reflexivity|]. split; [reflexivity|].
    do 2 eexists. split; [vm_compute; reflexivity|]. repeat split.
Qed.

(* ================================================================== *)
(** ** Tunables without effect *)

(** X10: RoboStroke computes speed and acceleration from the speed and the
    split fraction alone: the stroke and the depth, and with them the time
    of stroke it computes, have no effect on them. *)
Theorem robostroke_ignores_stroke (p : RoboStroke.t) (index d z : Z) :
  motion_of (RoboStroke.nextTarget index
               (RoboStroke.upd_base (Pattern.setStroke z)
                  (RoboStroke.upd_base (Pattern.setDepth d) p))) =
  motion_of (RoboStroke.nextTarget index p).
Proof.
  destruct p as [b t x].
  unfold motion_of, RoboStroke.nextTarget, RoboStroke._setIdleState,
    RoboStroke.upd_base, Pattern._setIdleState.
  cbn [RoboStroke.base RoboStroke._x Pattern.setStroke Pattern.setDepth
       Pattern._speed Pattern._maxSpeed Pattern._maxAcceleration
       Pattern._depth Pattern._stroke].
  destruct (Pattern._speed b =? 0); cbv zeta;
    repeat match goal with
      | |- context [bind (to_int ?e) _] =>
          destruct (to_int e); cbn [bind option_map fst]
      end; reflexivity.
Qed.

(** X11: SimplePenetration ignores the sensation altogether, and the
    stroke in its targets and its speed.  The stroke still enters the
    acceleration, through the range of stroke
    [min(abs(_depth), abs(_stroke))]: with the depth 1000 and the speed 100
    the acceleration is 45 for the stroke 1000 and 450 for the stroke 100. *)
Theorem simple_penetration_ignores :
  (forall (p : SimplePenetration.t) (index : Z) (s : float),
     option_map fst
       (SimplePenetration.nextTarget index
          (SimplePenetration.upd_base (Pattern.setSensation s) p)) =
     option_map fst (SimplePenetration.nextTarget index p)) /\
  (forall (p : SimplePenetration.t) (index z : Z) m1 m2 p1 p2,
     SimplePenetration.nextTarget index
       (SimplePenetration.upd_base (Pattern.setStroke z) p) = Some (m1, p1) ->
     SimplePenetration.nextTarget index p = Some (m2, p2) ->
     stroke m1 = stroke m2 /\ speed m1 = speed m2 /\ skip m1 = skip m2) /\
  (let p := SimplePenetration.upd_base (Pattern.setSpeedLimit 1000 10000 80)
              (SimplePenetration.init 1000 1000 100) in
   option_map (fun r => acceleration (fst r))
     (SimplePenetration.nextTarget 0 p) = Some 45 /\
   option_map (fun r => acceleration (fst r))
     (SimplePenetration.nextTarget 0
        (SimplePenetration.upd_base (Pattern.setStroke 100) p)) = Some 450).
Proof.
  split; [|split].
  - intros [b t] index s.
    unfold SimplePenetration.nextTarget, SimplePenetration._setIdleState,
      SimplePenetration.upd_base, Pattern._calTimeOfStroke,
      Pattern._calRangeOfStroke, Pattern.speedDivisor.
    cbn [SimplePenetration.base Pattern.setSensation Pattern._speed
         Pattern._maxSpeed Pattern._maxAcceleration Pattern._depth
         Pattern._stroke].
    destruct (Pattern._speed b =? 0); cbv zeta; step_binds; reflexivity.
  - intros [b t] index z m1 m2 p1 p2.
    unfold SimplePenetration.nextTarget, SimplePenetration._setIdleState,
      SimplePenetration.upd_base.
    cbn [SimplePenetration.base Pattern.setStroke Pattern._speed
         Pattern._maxSpeed Pattern._maxAcceleration Pattern._depth].
    destruct (Pattern._speed b =? 0); cbv zeta; intros E1 E2;
      inv_binds E1; inv_binds E2;
      injection E1 as <- _; injection E2 as <- _; cbn;
      repeat split; congruence.
  - split; vm_compute; reflexivity.
Qed.

(* ================================================================== *)
(** ** The series of strokes of StopNGo *)

(** What a call of [nextTarget] does to the counters of StopNGo. *)
Lemma StopNGo_counters (index millis : Z) (p : StopNGo.t)
  (m : motionParameter) (p' : StopNGo.t) :
  StopNGo.nextTarget index millis p = Some (m, p') ->
  counters p' =
    if Pattern._speed (StopNGo.base p) =? 0 then counters p
    else if Pattern._isStillDelayed millis (StopNGo.base p) then counters p
    else if odd_stroke index then
      if StopNGo._strokeIndex p >=? StopNGo._strokeSeriesIndex p
      then counters (StopNGo.endOfSeries millis p)
      else counters p
    else counters (StopNGo.incr_strokeIndex p).
Proof.
  intros E. unfold StopNGo.nextTarget, StopNGo._setIdleState in E.
  destruct (Pattern._speed (StopNGo.base p) =? 0).
  - apply bind_Some in E as ([? ?] & E0 & E); injection E as <- <-.
    unfold Pattern._setIdleState in E0. inv_binds E0.
    injection E0 as <- <-. reflexivity.
  - cbv zeta in E.
    destruct (Pattern._isStillDelayed millis (StopNGo.base p));
      cbn [negb] in E;
      [|destruct (odd_stroke index); [destruct (_ >=? _)|]];
      cbv beta iota zeta in E; inv_binds E; injection E as <- <-;
      reflexivity.
Qed.

Lemma endOfSeries_in_range (millis : Z) (p : StopNGo.t) :
  series_in_range p -> series_in_range (StopNGo.endOfSeries millis p).
Proof.
  unfold series_in_range, StopNGo.endOfSeries. intros [N S].
  cbn [StopNGo._numberOfStrokes StopNGo._strokeSeriesIndex]. rewrite N.
  split; [reflexivity|].
  destruct (StopNGo._strokeSeriesIndex p >=? 5) eqn:E1,
    (StopNGo._strokeSeriesIndex p <=? 1) eqn:E2;
    try destruct (StopNGo._countStrokesUp p);
    rewrite wrap_int_id by (unfold in_int, INT_MIN, INT_MAX; lia); lia.
Qed.

Lemma series_counters (p q : StopNGo.t) :
  counters q = counters p -> series_in_range p -> series_in_range q.
Proof.
  unfold counters, series_in_range. intros E.
  injection E as -> -> _ _ _. tauto.
Qed.

Lemma perform_in_range (c : call) (p : StopNGo.t) (p' : pattern) :
  series_in_range p ->
  perform c (AStopNGo p) = Some p' ->
  exists q, p' = AStopNGo q /\ series_in_range q.
Proof.
  intros I E. destruct c; cbn in E;
    try (injection E as <-; eexists; split; [reflexivity|exact I]).
  - apply bind_Some in E as (q & Q & E). injection E as <-.
    exists q. split; [reflexivity|].
    unfold StopNGo.setSensation in Q. inv_bind Q. injection Q as <-.
    exact I.
  - destruct (StopNGo.nextTarget index millis p) as [[m q]|] eqn:N;
      [|discriminate].
    cbn in E. injection E as <-. exists q. split; [reflexivity|].
    apply StopNGo_counters in N.
    destruct (Pattern._speed (StopNGo.base p) =? 0);
      [exact (series_counters N I)|].
    destruct (Pattern._isStillDelayed millis (StopNGo.base p));
      [exact (series_counters N I)|].
    destruct (odd_stroke index).
    + destruct (_ >=? _); [|exact (series_counters N I)].
      exact (series_counters N (endOfSeries_in_range millis I)).
    + exact (series_counters N I).
Qed.

(** X12: whatever calls are made on a StopNGo pattern after its
    construction, setters and [nextTarget] in any order, with any index and
    at any time, the number of strokes stays 5 and the length of the series
    stays between 1 and 5. *)
Theorem stopngo_series_in_range (cs : list call) (stroke0 depth0 speed0 : Z)
  (p' : pattern) :
  performAll cs (AStopNGo (StopNGo.init stroke0 depth0 speed0)) = Some p' ->
  exists q, p' = AStopNGo q /\
    StopNGo._numberOfStrokes q = 5 /\
    1 <= StopNGo._strokeSeriesIndex q <= 5.
Proof.
  assert (G : forall cs p, series_in_range p ->
                performAll cs (AStopNGo p) = Some p' ->
                exists q, p' = AStopNGo q /\ series_in_range q).
  { clear cs. induction cs as [|c cs IH]; intros p I E.
    - injection E as <-. now exists p.
    - cbn [performAll] in E. apply bind_Some in E as (q & Q & E).
      destruct (perform_in_range c I Q) as (q' & -> & I').
      exact (IH q' I' E). }
  apply G. split; [reflexivity|]. cbn. lia.
Qed.

Lemma stopngo_series_in_range_witness :
  exists q,
    performAll (SetSpeedLimit 1000 10000 80 :: SetSensation (Fin 20)
                :: NextTarget 0 6000 :: NextTarget 1 6100
                :: NextTarget 2 20000 :: nil)
               (AStopNGo (StopNGo.init 400 1000 100)) = Some (AStopNGo q) /\
    StopNGo._numberOfStrokes q = 5 /\
    1 <= StopNGo._strokeSeriesIndex q <= 5.
Proof.
  assert (E : exists p',
             performAll (SetSpeedLimit 1000 10000 80 :: SetSensation (Fin 20)
                         :: NextTarget 0 6000 :: NextTarget 1 6100
                         :: NextTarget 2 20000 :: nil)
                        (AStopNGo (StopNGo.init 400 1000 100)) = Some p')
    by (eexists; vm_compute; reflexivity).
  destruct E as (p' & E).
  destruct (stopngo_series_in_range _ _ _ _ E) as (q & -> & H).
  exists q. split; [exact E | exact H].
Defined.

Lemma isStillDelayed_spec (millis : Z) (b : Pattern.t) :
  0 <= Pattern._startDelayMillis b -> 0 <= Pattern._delayInMillis b ->
  Pattern._startDelayMillis b + Pattern._delayInMillis b <= INT_MAX ->
  Pattern._isStillDelayed millis b = true <->
  millis <= Pattern._startDelayMillis b + Pattern._delayInMillis b.
Proof.
  unfold INT_MAX, Pattern._isStillDelayed. intros H1 H2 H3.
  rewrite wrap_int_id by (unfold in_int, INT_MIN, INT_MAX; lia).
  rewrite wrap_uint_id by (unfold in_uint, UINT_MAX; lia).
  destruct (millis >? _) eqn:E; split; intros H; try discriminate; lia.
Qed.

(** X13: the pause of StopNGo lasts from its start to
    [_startDelayMillis + _delayInMillis], this millisecond included.  A
    call within it returns a command with [skip] set that repeats the
    target of the command before, and leaves the counters of the series as
    they are; a call after it returns a stroke. *)
Theorem stopngo_pause (p : StopNGo.t) (index millis : Z)
  (m : motionParameter) (p' : StopNGo.t) :
  let b := StopNGo.base p in
  let wake := Pattern._startDelayMillis b + Pattern._delayInMillis b in
  Pattern._speed b <> 0 ->
  0 <= Pattern._startDelayMillis b -> 0 <= Pattern._delayInMillis b ->
  wake <= INT_MAX ->
  StopNGo.nextTarget index millis p = Some (m, p') ->
  (skip m = true <-> millis <= wake) /\
  (millis <= wake ->
     stroke m = stroke (Pattern._nextMove b) /\ counters p' = counters p).
Proof.
  intros b wake Hv H1 H2 H3 E.
  assert (D := @isStillDelayed_spec millis b H1 H2 H3). fold wake in D.
  destruct (@StopNGo_target _ _ _ _ _ Hv E) as [S T].
  apply StopNGo_counters in E. cbv zeta in S, T. fold b in S, T, E.
  rewrite (speed_nonzero Hv) in E.
  split.
  - now rewrite S.
  - intros L. apply D in L. rewrite L in T, E. now split.
Qed.

Lemma stopngo_pause_witness :
  let p := {| StopNGo.base :=
                Pattern._updateDelay 5050
                  (Pattern._startDelay 6100
                     (Pattern.setSpeedLimit 1000 10000 80
                        (Pattern.init 400 1000 100)));
              StopNGo._timeOfStroke := Fin 4;
              StopNGo._numberOfStrokes := 5;
              StopNGo._strokeSeriesIndex := 2;
              StopNGo._strokeIndex := 0;
              StopNGo._countStrokesUp := true |} in
  exists m p',
    StopNGo.nextTarget 2 11150 p = Some (m, p') /\
    (skip m = true <-> 11150 <= 6100 + 5050) /\
    (11150 <= 6100 + 5050 ->
       stroke m = 0 /\ counters p' = counters p).
Proof.
  cbv zeta. do 2 eexists. split; [vm_compute; reflexivity|].
  apply (@stopngo_pause
           {| StopNGo.base :=
                Pattern._updateDelay 5050
                  (Pattern._startDelay 6100
                     (Pattern.setSpeedLimit 1000 10000 80
                        (Pattern.init 400 1000 100)));
              StopNGo._timeOfStroke := Fin 4;
              StopNGo._numberOfStrokes := 5;
              StopNGo._strokeSeriesIndex := 2;
              StopNGo._strokeIndex := 0;
              StopNGo._countStrokesUp := true |} 2 11150).
  - discriminate.
  - discriminate.
  - discriminate.
  - discriminate.
  - vm_compute. reflexivity.
Defined.

Lemma play_app (a b : nat) (i : Z) (millis : Z -> Z) (p : pattern)
  (ms : list motionParameter) (p' : pattern) :
  play (a + b) i millis p = Some (ms, p') ->
  exists ms1 p1 ms2,
    play a i millis p = Some (ms1, p1) /\
    play b (i + Z.of_nat a) millis p1 = Some (ms2, p') /\
    ms = ms1 ++ ms2.
Proof.
  revert i p ms. induction a as [|a IH]; intros i p ms E.
  - exists nil, p, ms. cbn [play Nat.add] in *.
    rewrite Z.add_0_r. now repeat split.
  - cbn [play Nat.add] in E.
    apply bind_Some in E as ([m q] & E1 & E).
    apply bind_Some in E as ([ms' q'] & E2 & E). injection E as <- <-.
    cbn [fst snd] in *.
    destruct (IH _ _ _ E2) as (ms1 & p1 & ms2 & F1 & F2 & ->).
    exists (m :: ms1), p1, ms2. cbn [play]. rewrite E1. cbn [bind snd fst].
    rewrite F1. cbn [bind fst snd]. repeat split.
    rewrite <- F2. f_equal. lia.
Qed.

Lemma StopNGo_kept (index millis : Z) (p : StopNGo.t) (m : motionParameter)
  (p' : StopNGo.t) :
  StopNGo.nextTarget index millis p = Some (m, p') ->
  Pattern._speed (StopNGo.base p') = Pattern._speed (StopNGo.base p) /\
  Pattern._delayInMillis (StopNGo.base p')
  = Pattern._delayInMillis (StopNGo.base p).
Proof.
  intros E. unfold StopNGo.nextTarget, StopNGo._setIdleState in E.
  destruct (Pattern._speed (StopNGo.base p) =? 0).
  - apply bind_Some in E as ([? ?] & E0 & E); injection E as <- <-.
    unfold Pattern._setIdleState in E0. inv_binds E0.
    injection E0 as <- <-. now split.
  - cbv zeta in E.
    destruct (Pattern._isStillDelayed millis (StopNGo.base p));
      cbn [negb] in E;
      [|destruct (odd_stroke index); [destruct (_ >=? _)|]];
      cbv beta iota zeta in E; inv_binds E; injection E as <- <-;
      now split.
Qed.

Lemma awake_call (d index millis later : Z) (p : StopNGo.t)
  (m : motionParameter) (p' : StopNGo.t) :
  awake d millis p -> 0 <= d -> 0 <= millis -> millis + d <= INT_MAX ->
  millis + d < later ->
  StopNGo.nextTarget index millis p = Some (m, p') ->
  skip m = false /\ awake d later p' /\
  counters p' =
    if odd_stroke index then
      if StopNGo._strokeIndex p >=? StopNGo._strokeSeriesIndex p
      then counters (StopNGo.endOfSeries millis p)
      else counters p
    else counters (StopNGo.incr_strokeIndex p).
Proof.
  intros (Hv & Hd & H0 & H1) D M MI L E.
  assert (N : Pattern._isStillDelayed millis (StopNGo.base p) = false).
  { destruct (Pattern._isStillDelayed millis (StopNGo.base p)) eqn:F;
      [|reflexivity].
    apply isStillDelayed_spec in F; rewrite ?Hd; unfold INT_MAX in *; lia. }
  destruct (@StopNGo_target _ _ _ _ _ Hv E) as [S _]. cbv zeta in S.
  destruct (@StopNGo_kept _ _ _ _ _ E) as [Kv Kd].
  apply StopNGo_counters in E.
  rewrite (speed_nonzero Hv), N in E. rewrite N in S.
  split; [exact S|]. split; [|exact E].
  unfold awake. rewrite Kv, Kd. split; [exact Hv|]. split; [exact Hd|].
  assert (C : Pattern._startDelayMillis (StopNGo.base p')
              = Pattern._startDelayMillis (StopNGo.base p) \/
              Pattern._startDelayMillis (StopNGo.base p') = millis).
  { unfold counters in E.
    destruct (odd_stroke index); [destruct (_ >=? _)|];
      injection E as _ _ _ _ ->; try (now left).
    right. cbn. apply wrap_int_id.
    unfold in_int, INT_MIN, INT_MAX in *. lia. }
  destruct C as [-> | ->]; lia.
Qed.

Lemma odd_succ (i : Z) : odd_stroke (i + 1) = negb (odd_stroke i).
Proof.
  unfold odd_stroke.
  destruct (i mod 2 =? 0) eqn:E1, ((i + 1) mod 2 =? 0) eqn:E2;
    try reflexivity; lia.
Qed.

(** A stroke in and the stroke out after it. *)
Lemma play_stroke (d i : Z) (millis : Z -> Z) (q : StopNGo.t)
  (ms : list motionParameter) (p' : pattern) :
  0 <= d -> 0 <= i -> spaced d millis (i + 2) ->
  awake d (millis i) q -> odd_stroke i = false ->
  in_int (StopNGo._strokeIndex q + 1) ->
  play 2 i millis (AStopNGo q) = Some (ms, p') ->
  exists q', p' = AStopNGo q' /\ awake d (millis (i + 2)) q' /\ no_skip ms /\
    StopNGo._numberOfStrokes q' = StopNGo._numberOfStrokes q /\
    if StopNGo._strokeIndex q + 1 >=? StopNGo._strokeSeriesIndex q then
      StopNGo._strokeIndex q' = 0 /\
      StopNGo._strokeSeriesIndex q'
      = StopNGo._strokeSeriesIndex (StopNGo.endOfSeries 0 q) /\
      StopNGo._countStrokesUp q'
      = StopNGo._countStrokesUp (StopNGo.endOfSeries 0 q) /\
      Pattern._startDelayMillis (StopNGo.base q') = millis (i + 1)
    else
      StopNGo._strokeIndex q' = StopNGo._strokeIndex q + 1 /\
      StopNGo._strokeSeriesIndex q' = StopNGo._strokeSeriesIndex q /\
      StopNGo._countStrokesUp q' = StopNGo._countStrokesUp q.
Proof.
  intros D I S A O W E.
  cbn [play nextTarget tag] in E.
  apply bind_Some in E as ([m1 r1] & E1 & E).
  apply bind_Some in E1 as ([n1 q1] & E1 & F1). injection F1 as <- <-.
  cbn [fst snd] in E.
  apply bind_Some in E as ([ms2 r2] & E2 & E). injection E as <- <-.
  apply bind_Some in E2 as ([m2 r2'] & E2 & F2).
  apply bind_Some in E2 as ([n2 q2] & E2 & G2). injection G2 as <- <-.
  injection F2 as <- <-. cbn [fst snd].
  destruct (S i ltac:(lia)) as (S1 & S2 & S3).
  destruct (S (i + 1) ltac:(lia)) as (S4 & S5 & S6).
  destruct (@awake_call _ _ _ _ _ _ _ A D S1 S2 S3 E1) as (K1 & A1 & C1).
  destruct (@awake_call _ _ _ _ _ _ _ A1 D S4 S5 S6 E2) as (K2 & A2 & C2).
  rewrite O in C1. rewrite odd_succ, O in C2. cbn [negb] in C2.
  replace (i + 1 + 1) with (i + 2) in A2 by lia.
  exists q2. split; [reflexivity|]. split; [exact A2|].
  split; [repeat constructor; assumption|].
  unfold counters in C1. cbn in C1. injection C1 as N1 X1 I1 U1 T1.
  rewrite (wrap_int_id W) in I1. rewrite I1, X1 in C2.
  destruct (_ >=? _).
  - unfold counters in C2. cbn in C2. injection C2 as N2 X2 I2 U2 T2.
    rewrite N1, X1, U1 in *. 
    rewrite wrap_int_id in T2
      by (unfold in_int, INT_MIN, INT_MAX in *; lia).
    now repeat split.
  - unfold counters in C2. injection C2 as N2 X2 I2 U2 T2.
    repeat split; congruence.
Qed.

Lemma spaced_le (d : Z) (millis : Z -> Z) (n n' : Z) :
  n' <= n -> spaced d millis n -> spaced d millis n'.
Proof. intros L S i H. apply S. lia. Qed.

Lemma no_skip_app (a b : list motionParameter) :
  no_skip a -> no_skip b -> no_skip (a ++ b).
Proof. unfold no_skip. intros. apply Forall_app. now split. Qed.

(** The strokes that are left of a series: [n] strokes in and out, the
    last of which ends the series. *)
Lemma play_series (d : Z) (millis : Z -> Z) (n : nat) :
  forall (i : Z) (q : StopNGo.t) (ms : list motionParameter) (p' : pattern),
  0 <= d -> 0 <= i -> spaced d millis (i + 2 * Z.of_nat (S n)) ->
  awake d (millis i) q -> odd_stroke i = false ->
  0 <= StopNGo._strokeIndex q ->
  StopNGo._strokeIndex q + Z.of_nat (S n) = StopNGo._strokeSeriesIndex q ->
  StopNGo._strokeSeriesIndex q <= 5 ->
  play (2 * S n) i millis (AStopNGo q) = Some (ms, p') ->
  exists q', p' = AStopNGo q' /\
    awake d (millis (i + 2 * Z.of_nat (S n))) q' /\ no_skip ms /\
    StopNGo._numberOfStrokes q' = StopNGo._numberOfStrokes q /\
    StopNGo._strokeIndex q' = 0 /\
    StopNGo._strokeSeriesIndex q'
    = StopNGo._strokeSeriesIndex (StopNGo.endOfSeries 0 q) /\
    StopNGo._countStrokesUp q'
    = StopNGo._countStrokesUp (StopNGo.endOfSeries 0 q) /\
    Pattern._startDelayMillis (StopNGo.base q')
    = millis (i + 2 * Z.of_nat (S n) - 1).
Proof.
  induction n as [|n IH]; intros i q ms p' D I Sp A O C0 C X E.
  - change (2 * 1)%nat with 2%nat in E.
    assert (W : in_int (StopNGo._strokeIndex q + 1))
      by (unfold in_int, INT_MIN, INT_MAX; lia).
    destruct (play_stroke D I Sp A O W E) as (q' & -> & A' & K & N & H).
    replace (StopNGo._strokeIndex q + 1 >=? StopNGo._strokeSeriesIndex q)
      with true in H by (symmetry; apply Z.geb_le; lia).
    destruct H as (H1 & H2 & H3 & H4).
    exists q'. change (2 * Z.of_nat 1) with 2.
    replace (i + 2 - 1) with (i + 1) by lia.
    split; [reflexivity|]. split; [exact A'|]. now repeat split.
  - replace (2 * S (S n))%nat with (2 + 2 * S n)%nat in E by lia.
    apply play_app in E as (ms1 & p1 & ms2 & E1 & E2 & ->).
    assert (W : in_int (StopNGo._strokeIndex q + 1))
      by (unfold in_int, INT_MIN, INT_MAX; lia).
    assert (S' : spaced d millis (i + 2))
      by (apply (spaced_le (n := i + 2 * Z.of_nat (S (S n)))); [lia|exact Sp]).
    destruct (play_stroke D I S' A O W E1) as (q1 & -> & A1 & K1 & N1 & H).
    replace (StopNGo._strokeIndex q + 1 >=? StopNGo._strokeSeriesIndex q)
      with false in H by (symmetry; rewrite Z.geb_leb; apply Z.leb_gt; lia).
    destruct H as (H1 & H2 & H3).
    change (Z.of_nat 2) with 2 in E2.
    assert (O2 : odd_stroke (i + 2) = false).
    { replace (i + 2) with (i + 1 + 1) by lia.
      now rewrite !odd_succ, O. }
    destruct (IH (i + 2) q1 ms2 p' D ltac:(lia)) as
      (q' & -> & A' & K' & N' & I' & X' & U' & T'); try assumption.
    + apply (spaced_le (n := i + 2 * Z.of_nat (S (S n)))); [lia|exact Sp].
    + lia.
    + lia.
    + lia.
    + exists q'. replace (i + 2 * Z.of_nat (S (S n)))
        with (i + 2 + 2 * Z.of_nat (S n)) by lia.
      split; [reflexivity|]. split; [exact A'|].
      split; [now apply no_skip_app|].
      split; [congruence|]. split; [exact I'|].
      unfold StopNGo.endOfSeries in *.
      cbn [StopNGo._strokeSeriesIndex StopNGo._countStrokesUp] in *.
      rewrite X', U', T', H2, H3, N1. repeat split.
Qed.

Lemma seriesLength_range (k : nat) : 1 <= seriesLength k <= 5.
Proof. unfold seriesLength. lia. Qed.

Lemma callsBefore_even (k : nat) :
  odd_stroke (Z.of_nat (callsBefore k)) = false.
Proof.
  induction k as [|k IH]; [reflexivity|].
  cbn [callsBefore]. unfold odd_stroke in *.
  rewrite Nat2Z.inj_add, Nat2Z.inj_mul.
  destruct (Z.of_nat (callsBefore k) mod 2 =? 0) eqn:E; [|discriminate].
  change (Z.of_nat 2) with 2.
  destruct ((_ + _) mod 2 =? 0) eqn:F; [reflexivity|]. lia.
Qed.

Lemma at_series_next (k : nat) (q q' : StopNGo.t) :
  at_series k q ->
  StopNGo._numberOfStrokes q' = StopNGo._numberOfStrokes q ->
  StopNGo._strokeIndex q' = 0 ->
  StopNGo._strokeSeriesIndex q'
  = StopNGo._strokeSeriesIndex (StopNGo.endOfSeries 0 q) ->
  StopNGo._countStrokesUp q'
  = StopNGo._countStrokesUp (StopNGo.endOfSeries 0 q) ->
  at_series (S k) q'.
Proof.
  unfold at_series, StopNGo.endOfSeries, seriesLength.
  cbn [StopNGo._strokeSeriesIndex StopNGo._countStrokesUp].
  intros (N & X & I & U1 & U2) -> -> -> ->. rewrite N, X.
  rewrite Nat2Z.inj_succ. unfold Z.succ.
  set (r := Z.of_nat k mod 8) in *.
  assert (R : 0 <= r < 8) by (apply Z.mod_pos_bound; lia).
  assert (R' : (Z.of_nat k + 1) mod 8 = if r =? 7 then 0 else r + 1).
  { unfold r. destruct (_ =? 7) eqn:E; lia. }
  rewrite R'. clear R'.
  split; [reflexivity|].
  assert (C : r = 0 \/ r = 1 \/ r = 2 \/ r = 3 \/ r = 4 \/ r = 5 \/ r = 6
              \/ r = 7) by lia.
  destruct C as [C|[C|[C|[C|[C|[C|[C|C]]]]]]]; rewrite C in *;
    cbn -[wrap_int] in *;
    rewrite ?U1, ?U2 by lia; cbn; repeat split; intros; lia.
Qed.

(** X14: the series of strokes of StopNGo.  Started with a series of one
    stroke and called with the indexes 0, 1, 2, ... at times that no call
    finds the pattern in its pause, the pattern plays series of
    1, 2, 3, 4, 5, 4, 3, 2, 1, 2, ... strokes: after the calls of the
    series before the series number [k], the strokes are counted from 0
    again, the length of the series is [5 - |4 - k mod 8|], no command was
    skipped, and the pause has been started by the last call. *)
Theorem stopngo_series_lengths (p : StopNGo.t) (millis : Z -> Z) (k : nat)
  (ms : list motionParameter) (p' : pattern) :
  let d := Pattern._delayInMillis (StopNGo.base p) in
  0 <= d -> awake d (millis 0) p ->
  spaced d millis (Z.of_nat (callsBefore k)) ->
  StopNGo._numberOfStrokes p = 5 ->
  StopNGo._strokeSeriesIndex p = 1 ->
  StopNGo._strokeIndex p = 0 ->
  play (callsBefore k) 0 millis (AStopNGo p) = Some (ms, p') ->
  exists q, p' = AStopNGo q /\
    StopNGo._strokeSeriesIndex q = seriesLength k /\
    StopNGo._strokeIndex q = 0 /\
    no_skip ms /\
    (k <> O ->
     Pattern._startDelayMillis (StopNGo.base q)
     = millis (Z.of_nat (callsBefore k) - 1)).
Proof.
  intros d D A Sp N X I E.
  enough (G : exists q, p' = AStopNGo q /\ at_series k q /\
                awake d (millis (Z.of_nat (callsBefore k))) q /\
                no_skip ms /\
                (k <> O ->
                 Pattern._startDelayMillis (StopNGo.base q)
                 = millis (Z.of_nat (callsBefore k) - 1))).
  { destruct G as (q & -> & (_ & Xq & Iq & _) & _ & K & T).
    exists q. now repeat split. }
  revert ms p' Sp E. induction k as [|k IH]; intros ms p' Sp E.
  - cbn [callsBefore play] in E. injection E as <- <-.
    exists p. split; [reflexivity|]. split.
    + unfold at_series. repeat split; try assumption;
        cbn; intros; lia.
    + split; [exact A|]. split; [constructor|]. intros F. now elim F.
  - cbn [callsBefore] in E, Sp |- *.
    assert (L := seriesLength_range k).
    destruct (Z.to_nat (seriesLength k)) as [|n] eqn:Ln; [lia|].
    apply play_app in E as (ms1 & p1 & ms2 & E1 & E2 & ->).
    rewrite Z.add_0_l in E2.
    destruct (IH ms1 p1) as (q & -> & Q & Aq & K1 & _);
      [apply (spaced_le (n := Z.of_nat (callsBefore k + 2 * S n)));
       [lia | exact Sp]
      | exact E1 |].
    destruct Q as (Nq & Xq & Iq & Uq).
    destruct (@play_series d millis n (Z.of_nat (callsBefore k)) q ms2 p')
      as (q' & -> & A' & K2 & N' & I' & X' & U' & T'); try assumption.
    + lia.
    + replace (Z.of_nat (callsBefore k) + 2 * Z.of_nat (S n))
        with (Z.of_nat (callsBefore k + 2 * S n)) by lia.
      exact Sp.
    + apply callsBefore_even.
    + lia.
    + lia.
    + lia.
    + exists q'. split; [reflexivity|].
      replace (Z.of_nat (callsBefore k + 2 * S n))
        with (Z.of_nat (callsBefore k) + 2 * Z.of_nat (S n)) by lia.
      split.
      * apply (@at_series_next k q q'); try assumption.
        now repeat split.
      * split; [exact A'|]. split; [now apply no_skip_app|].
        intros _. exact T'.
Qed.

Lemma stopngo_series_lengths_witness :
  let p := StopNGo.upd_base (Pattern.setSpeedLimit 1000 10000 80)
             (StopNGo.init 400 1000 100) in
  let millis i := 1000 * i + 1 in
  exists ms q,
    play (callsBefore 3) 0 millis (AStopNGo p) = Some (ms, AStopNGo q) /\
    StopNGo._strokeSeriesIndex q = seriesLength 3 /\
    StopNGo._strokeIndex q = 0 /\
    no_skip ms.
Proof.
  cbv zeta.
  assert (E : exists ms p',
             play (callsBefore 3) 0 (fun i => 1000 * i + 1)
                  (AStopNGo
                     (StopNGo.upd_base (Pattern.setSpeedLimit 1000 10000 80)
                        (StopNGo.init 400 1000 100))) = Some (ms, p'))
    by (do 2 eexists; vm_compute; reflexivity).
  destruct E as (ms & p' & E).
  destruct (@stopngo_series_lengths
              (StopNGo.upd_base (Pattern.setSpeedLimit 1000 10000 80)
                 (StopNGo.init 400 1000 100))
              (fun i => 1000 * i + 1) 3 ms p')
    as (q & -> & X & I & K & _).
  - discriminate.
  - repeat split; discriminate.
  - intros i Hi. change (Z.of_nat (callsBefore 3)) with 12 in Hi.
    cbn [Pattern._delayInMillis StopNGo.base StopNGo.upd_base
         Pattern.setSpeedLimit StopNGo.init Pattern.init].
    unfold INT_MAX. lia.
  - reflexivity.
  - reflexivity.
  - reflexivity.
  - exact E.
  - exists ms, q. now repeat split.
Defined.

(* ================================================================== *)
(** ** The half strokes of HalfnHalf *)

Lemma HalfnHalf_half (index : Z) (p : HalfnHalf.t) (m : motionParameter)
  (p' : HalfnHalf.t) :
  Pattern._speed (HalfnHalf.base p) <> 0 ->
  HalfnHalf.nextTarget index p = Some (m, p') ->
  HalfnHalf._half p' =
    (let h := if index =? 0 then true else HalfnHalf._half p in
     if odd_stroke index then negb h else h) /\
  Pattern._stroke (HalfnHalf.base p') = Pattern._stroke (HalfnHalf.base p) /\
  Pattern._depth (HalfnHalf.base p') = Pattern._depth (HalfnHalf.base p) /\
  Pattern._speed (HalfnHalf.base p') = Pattern._speed (HalfnHalf.base p).
Proof.
  intros Hv E. apply speed_nonzero in Hv.
  unfold HalfnHalf.nextTarget in E. rewrite Hv in E.
  cbv zeta in E. unfold HalfnHalf._updateStrokeTiming in E.
  cbn [HalfnHalf.set_timeOfStroke HalfnHalf.base] in E.
  destruct (fgt (Pattern._sensation (HalfnHalf.base p)) (Fin 0)),
    (index =? 0), (odd_stroke index);
    inv_binds E; injection E as <- <-; repeat split.
Qed.

(** X15: HalfnHalf alternates half and full strokes.  Called with the
    indexes 0, 1, 2, ... and a stroke within the depth, it moves out to
    [depth - stroke] on every odd index, in by half the stroke on the
    indexes 0, 4, 8, ..., and in to the depth on the indexes 2, 6, 10, ... *)
Theorem halfnhalf_alternation (p : HalfnHalf.t) (millis : Z -> Z) (n : nat)
  (ms : list motionParameter) (p' : pattern) :
  let d := Pattern._depth (HalfnHalf.base p) in
  let z := Pattern._stroke (HalfnHalf.base p) in
  Pattern._speed (HalfnHalf.base p) <> 0 ->
  0 <= z <= d -> d <= INT_MAX ->
  play n 0 millis (AHalfnHalf p) = Some (ms, p') ->
  forall (k : nat) (m : motionParameter),
    nth_error ms k = Some m ->
    stroke m =
      if odd_stroke (Z.of_nat k) then d - z
      else if Z.of_nat k mod 4 =? 0 then d - z + z / 2
      else d.
Proof.
  intros d z Hv Hz Hd.
  assert (G : forall n i q ms,
             0 <= i ->
             Pattern._speed (HalfnHalf.base q) <> 0 ->
             Pattern._stroke (HalfnHalf.base q) = z ->
             Pattern._depth (HalfnHalf.base q) = d ->
             (i = 0 \/ HalfnHalf._half q = (i mod 4 <? 2)) ->
             play n i millis (AHalfnHalf q) = Some (ms, p') ->
             forall k m, nth_error ms k = Some m ->
               stroke m =
                 if odd_stroke (i + Z.of_nat k) then d - z
                 else if (i + Z.of_nat k) mod 4 =? 0 then d - z + z / 2
                 else d).
  { clear n ms. induction n as [|n IH]; intros i q ms Hi Hq Zq Dq Iq E k m Hk.
    - injection E as <- _. now destruct k.
    - cbn [play nextTarget tag] in E.
      apply bind_Some in E as ([m1 r1] & E1 & E).
      apply bind_Some in E1 as ([n1 q1] & E1 & F1). injection F1 as <- <-.
      cbn [fst snd] in E.
      apply bind_Some in E as ([ms2 r2] & E2 & E). injection E as <- <-.
      cbn [fst snd] in E2.
      destruct (@HalfnHalf_half _ _ _ _ Hq E1) as (H1 & Z1 & D1 & V1).
      assert (T := @HalfnHalf_target _ _ _ _ Hq E1). cbv zeta in T, H1.
      rewrite Zq, Dq in T.
      assert (O : constrain (wrap_int (d - z)) 0 d = d - z).
      { rewrite (@out_target d z) by lia. lia. }
      destruct k as [|k].
      + cbn in Hk. injection Hk as <-. rewrite Z.add_0_r, T.
        destruct (odd_stroke i) eqn:Oi; [exact O|].
        assert (M : i mod 2 = 0)
          by (unfold odd_stroke in Oi; destruct (i mod 2 =? 0) eqn:F;
              [lia|discriminate]).
        assert (Hh : (if i =? 0 then true else HalfnHalf._half q)
                     = (i mod 4 =? 0)).
        { destruct Iq as [-> | ->]; [reflexivity|].
          destruct (i =? 0) eqn:F.
          - apply Z.eqb_eq in F. now subst i.
          - destruct (i mod 4 <? 2) eqn:F1, (i mod 4 =? 0) eqn:F2;
              try reflexivity; lia. }
        rewrite Hh. destruct (i mod 4 =? 0).
        * rewrite Z.quot_div_nonneg by lia.
          assert (Q : 0 <= z / 2 <= z) by lia.
          rewrite (@wrap_int_id (z / 2))
            by (unfold in_int, INT_MIN, INT_MAX in *; lia).
          rewrite (@wrap_int_id (d - z))
            by (unfold in_int, INT_MIN, INT_MAX in *; lia).
          rewrite wrap_int_id
            by (unfold in_int, INT_MIN, INT_MAX in *; lia).
          unfold constrain.
          destruct (_ <? 0) eqn:F1; [lia|].
          destruct (_ >? d) eqn:F2; lia.
        * rewrite (@wrap_int_id (d - z))
            by (unfold in_int, INT_MIN, INT_MAX in *; lia).
          rewrite wrap_int_id
            by (unfold in_int, INT_MIN, INT_MAX in *; lia).
          unfold constrain.
          destruct (_ <? 0) eqn:F1; [lia|].
          destruct (_ >? d) eqn:F2; lia.
      + cbn [nth_error] in Hk.
        replace (i + Z.of_nat (S k)) with (i + 1 + Z.of_nat k) by lia.
        apply (IH (i + 1) q1 ms2); try congruence; try lia.
        right. rewrite H1.
        assert (Hh : i = 0 \/ (i <> 0 /\ HalfnHalf._half q = (i mod 4 <? 2)))
          by (destruct (Z.eq_dec i 0); [now left | right; split; [assumption|]];
              now destruct Iq).
        unfold odd_stroke.
        destruct Hh as [-> | [Ni ->]]; [reflexivity|].
        replace (i =? 0) with false by (symmetry; now apply Z.eqb_neq).
        destruct (i mod 2 =? 0) eqn:F0, (i mod 4 <? 2) eqn:F1,
          ((i + 1) mod 4 <? 2) eqn:F2; cbn; try reflexivity; lia. }
  intros E k m Hk.
  exact (G n 0 p ms ltac:(lia) Hv eq_refl eq_refl (or_introl eq_refl) E k m Hk).
Qed.

Lemma halfnhalf_alternation_witness :
  let p := HalfnHalf.upd_base (Pattern.setSpeedLimit 1000 10000 80)
             (HalfnHalf.init 400 1000 100) in
  exists ms p',
    play 5 0 (fun _ => 0) (AHalfnHalf p) = Some (ms, p') /\
    forall k m, nth_error ms k = Some m ->
      stroke m =
        if odd_stroke (Z.of_nat k) then 1000 - 400
        else if Z.of_nat k mod 4 =? 0 then 1000 - 400 + 400 / 2
        else 1000.
Proof.
  cbv zeta. do 2 eexists. split; [vm_compute; reflexivity|].
  eapply (@halfnhalf_alternation
            (HalfnHalf.upd_base (Pattern.setSpeedLimit 1000 10000 80)
               (HalfnHalf.init 400 1000 100)) (fun _ => 0) 5).
  - discriminate.
  - split; discriminate.
  - discriminate.
  - vm_compute. reflexivity.
Defined.

(* ================================================================== *)
(** ** The faster stroke of TeasingPounding *)

Lemma Qclamp_mono (u v lo hi : Q) :
  (u <= v)%Q -> (lo <= hi)%Q -> (Qclamp u lo hi <= Qclamp v lo hi)%Q.
Proof.
  unfold Qclamp. intros H L.
  destruct (u ?= lo)%Q eqn:E1, (v ?= lo)%Q eqn:E2,
    (hi ?= u)%Q eqn:E3, (hi ?= v)%Q eqn:E4;
    rewrite <- ?Qlt_alt, <- ?Qgt_alt, <- ?Qeq_alt in *; lra.
Qed.

Lemma Qclamp_comp (u v lo hi : Q) :
  (u == v)%Q -> (lo <= hi)%Q -> (Qclamp u lo hi == Qclamp v lo hi)%Q.
Proof.
  intros E L. apply Qle_antisym; apply Qclamp_mono; try assumption;
    rewrite E; apply Qle_refl.
Qed.

(** The two times of a stroke: the faster one is [t / (2 c)], the slower
    one the rest of [t]. *)
Lemma stroke_times (t c : Q) :
  (0 < t)%Q -> (1 <= c)%Q ->
  (0 < 0.5 * t / c)%Q /\ (0.5 * t / c <= t + - (0.5 * t / c))%Q.
Proof.
  intros Ht Hc.
  assert (P : (0 < 0.5 * t / c)%Q).
  { apply Qlt_shift_div_l; lra. }
  split; [exact P|].
  assert (Q : (0.5 * t / c <= 0.5 * t)%Q).
  { apply Qle_shift_div_r; [lra|]. nra. }
  lra.
Qed.

(** Speed before [constrain] of a stroke of [z] steps in the time [tau],
    truncated. *)
Lemma phase_speed_mono (z : Z) (t1 t2 : Q) :
  0 <= z -> (0 < t1)%Q -> (t1 <= t2)%Q ->
  Qtrunc (1.5 * inject_Z z / t2) <= Qtrunc (1.5 * inject_Z z / t1).
Proof.
  intros Hz H1 H2. apply Qtrunc_mono.
  assert (Z0 := inject_Z_nonneg Hz).
  apply Qle_shift_div_l; [lra|].
  assert (E : (1.5 * inject_Z z / t2 * t1
               == 1.5 * inject_Z z * (t1 / t2))%Q) by (field; lra).
  rewrite E.
  assert (R : (t1 / t2 <= 1)%Q) by (apply Qle_shift_div_r; lra).
  assert (R0 : (0 <= t1 / t2)%Q) by (apply Qle_shift_div_l; lra).
  nra.
Qed.

Lemma phase_acc_mono (v1 v2 : Z) (t1 t2 : Q) :
  0 <= v2 <= v1 -> (0 < t1)%Q -> (t1 <= t2)%Q ->
  (3 * inject_Z v2 / t2 <= 3 * inject_Z v1 / t1)%Q.
Proof.
  intros Hv H1 H2.
  assert (V2 := inject_Z_nonneg (proj1 Hv)).
  assert (V : (inject_Z v2 <= inject_Z v1)%Q) by (rewrite <- Zle_Qle; lia).
  apply Qle_shift_div_l; [lra|].
  assert (E : (3 * inject_Z v2 / t2 * t1
               == 3 * inject_Z v2 * (t1 / t2))%Q) by (field; lra).
  rewrite E.
  assert (R : (t1 / t2 <= 1)%Q) by (apply Qle_shift_div_r; lra).
  assert (R0 : (0 <= t1 / t2)%Q) by (apply Qle_shift_div_l; lra).
  nra.
Qed.

Lemma to_int_quotient (a b : Q) (i : Z) :
  to_int (fdiv (Fin a) (Fin b)) = Some i ->
  ~ (b == 0)%Q /\ i = Qtrunc (a / b).
Proof.
  intros E.
  assert (N : ~ (b == 0)%Q).
  { intros B. rewrite (@to_int_div_zero (Fin a) (Fin b) B) in E.
    discriminate. }
  split; [exact N|].
  rewrite (fdiv_Fin a N) in E.
  apply to_int_Some in E as (q & Eq & -> & _). now injection Eq as <-.
Qed.

Lemma TeasingPounding_command (index : Z) (p : TeasingPounding.t) (t s : Q)
  (m : motionParameter) (p' : TeasingPounding.t) :
  let b := TeasingPounding.base p in
  Pattern._speed b <> 0 ->
  TeasingPounding._calTimeOfStroke p = Fin t ->
  Pattern._sensation b = Fin s ->
  TeasingPounding.nextTarget index p = Some (m, p') ->
  exists c,
    fscale (Fin 0) (Fin 100) (Fin 1) (Fin 5) (fabs (Fin s)) = Fin c /\
    (1 <= c <= 5)%Q /\ ((s == 0)%Q -> (c == 1)%Q) /\
    ~ (stroke_time t c s index == 0)%Q /\
    speed m =
      constrain (Qtrunc (1.5 * inject_Z (Pattern._stroke b)
                         / stroke_time t c s index))
                0 (Pattern._maxSpeed b) /\
    acceleration m =
      Qtrunc (Qclamp (3 * inject_Z (speed m) / stroke_time t c s index)
                     (inject_Z 0) (inject_Z (Pattern._maxAcceleration b))).
Proof.
  intros b Hv HT Hs E. apply speed_nonzero in Hv.
  destruct (fast_scale s) as (c & C & Bc & C0).
  exists c. split; [exact C|]. split; [exact Bc|]. split; [exact C0|].
  unfold TeasingPounding.nextTarget in E. fold b in E. rewrite Hv in E.
  cbv zeta in E. rewrite TeasingPounding_base_timing in E.
  unfold TeasingPounding._updateStrokeTiming in E.
  cbn [TeasingPounding.base TeasingPounding.set_timeOfStroke
       TeasingPounding._timeOfStroke] in E.
  fold b in E. rewrite HT, Hs, C in E. cbn [fmul] in E.
  rewrite fdiv_Fin in E by lra. cbn [fsub fopp fadd] in E.
  assert (G : fgt (Fin s) (Fin 0) = if Qlt_le_dec 0 s then true else false).
  { destruct (Qlt_le_dec 0 s) as [L|L].
    - now apply fgt_Fin_0.
    - destruct (fgt (Fin s) (Fin 0)) eqn:F; [|reflexivity].
      apply fgt_Fin_0 in F. lra. }
  rewrite G in E. unfold stroke_time, fast_stroke.
  apply bind_Some in E as (m0 & E & F). injection F as <- _.
  destruct (Qlt_le_dec 0 s);
    cbn [TeasingPounding._timeOfInStroke TeasingPounding._timeOfOutStroke]
      in E;
    destruct (odd_stroke index); cbn [negb];
    apply bind_Some in E as (i & Ei & E);
    apply bind_Some in E as (a & Ea & E); injection E as <-;
    cbn [speed acceleration];
    unfold of_int in Ei, Ea; cbn [fmul] in Ei, Ea;
    apply to_int_quotient in Ei as [N ->];
    rewrite (fdiv_Fin _ N), fconstrain_Fin in Ea;
    apply to_int_Some in Ea as (qa & Eq & -> & _); injection Eq as <-;
    now repeat split.
Qed.

Lemma TeasingPounding_time (p : TeasingPounding.t) :
  let b := TeasingPounding.base p in
  0 <= Pattern._depth b <= INT_MAX -> 0 <= Pattern._stroke b <= INT_MAX ->
  1 <= Pattern._maxSpeed b ->
  exists t, TeasingPounding._calTimeOfStroke p = Fin t /\ (0 <= t)%Q.
Proof.
  intros b Hd Hs Hm.
  assert (D : 1 <= Pattern.speedDivisor b <= Pattern._maxSpeed b)
    by (unfold Pattern.speedDivisor; now apply constrain_bounds).
  unfold TeasingPounding._calTimeOfStroke, Pattern._calRangeOfStroke, of_int.
  fold b. rewrite !abs_int_id by assumption. cbn [fmul].
  assert (N : ~ (inject_Z (Pattern.speedDivisor b) == 0)%Q).
  { change 0%Q with (inject_Z 0). rewrite inject_Z_injective. lia. }
  rewrite fdiv_Fin by exact N. eexists. split; [reflexivity|].
  assert (R : (0 <= inject_Z (Z.min (Pattern._depth b) (Pattern._stroke b)))%Q)
    by (apply inject_Z_nonneg; lia).
  assert (P : (0 < inject_Z (Pattern.speedDivisor b))%Q)
    by (change 0%Q with (inject_Z 0); rewrite <- Zlt_Qlt; lia).
  apply Qle_shift_div_l; [exact P|]. lra.
Qed.

Lemma constrain_nonneg (x high : Z) : 0 <= high -> 0 <= constrain x 0 high.
Proof. intros H. now apply constrain_bounds. Qed.

(** X16: the sign of the sensation selects the faster stroke of
    TeasingPounding.  For a positive sensation the stroke in (even index)
    is commanded with at least the speed and the acceleration of the stroke
    out (odd index), for a sensation that is not positive the stroke out
    with at least those of the stroke in, and at the sensation 0 both
    strokes have the same speed and acceleration. *)
Theorem teasing_pounding_faster_stroke (p : TeasingPounding.t) (s : Q)
  (i j : Z) (m1 m2 : motionParameter) (p1 p2 : TeasingPounding.t) :
  let b := TeasingPounding.base p in
  well_typed b -> 0 <= Pattern._depth b -> 0 <= Pattern._stroke b ->
  1 <= Pattern._maxSpeed b -> Pattern._speed b <> 0 ->
  Pattern._sensation b = Fin s ->
  odd_stroke i = true -> odd_stroke j = false ->
  TeasingPounding.nextTarget i p = Some (m1, p1) ->
  TeasingPounding.nextTarget j p = Some (m2, p2) ->
  ((0 < s)%Q ->
     speed m1 <= speed m2 /\ acceleration m1 <= acceleration m2) /\
  ((s <= 0)%Q ->
     speed m2 <= speed m1 /\ acceleration m2 <= acceleration m1) /\
  ((s == 0)%Q ->
     speed m1 = speed m2 /\ acceleration m1 = acceleration m2).
Proof.
  intros b [Ws Wd _ Wm Wa] Hd Hz Hm Hv Hs Oi Oj E1 E2.
  assert (Bd : 0 <= Pattern._depth b <= INT_MAX)
    by (unfold in_int in Wd; lia).
  assert (Bz : 0 <= Pattern._stroke b <= INT_MAX)
    by (unfold in_int in Ws; lia).
  destruct (@TeasingPounding_time p Bd Bz Hm) as (t & HT & T0).
  destruct (@TeasingPounding_command _ _ _ _ _ _ Hv HT Hs E1)
    as (c & C & Bc & C0 & N1 & V1 & A1).
  destruct (@TeasingPounding_command _ _ _ _ _ _ Hv HT Hs E2)
    as (c' & C' & _ & _ & N2 & V2 & A2).
  rewrite C in C'. injection C' as <-. fold b in V1, V2, A1, A2.
  unfold stroke_time, fast_stroke in *. rewrite Oi, Oj in *.
  assert (Tp : (0 < t)%Q).
  { destruct (Qlt_le_dec 0 t) as [L|L]; [exact L|].
    exfalso. assert (Z : (t == 0)%Q) by lra.
    destruct (Qlt_le_dec 0 s); cbn [negb] in N2; apply N2; rewrite Z.
    - field. lra.
    - field. lra. }
  destruct (@stroke_times t c Tp (proj1 Bc)) as [F S].
  assert (M0 : 0 <= Pattern._maxSpeed b) by lia.
  assert (A0 : (inject_Z 0 <= inject_Z (Pattern._maxAcceleration b))%Q)
    by (rewrite <- Zle_Qle; unfold in_uint in Wa; lia).
  assert (Slow : (0 < t + - (0.5 * t / c))%Q) by lra.
  destruct (Qlt_le_dec 0 s) as [L|L]; cbn [negb] in *.
  - (* the stroke in is the faster one *)
    assert (V : speed m1 <= speed m2).
    { rewrite V1, V2. apply constrain_mono; [|exact M0].
      now apply phase_speed_mono. }
    split; [|split]; [intros _ | intros | intros]; try lra.
    split; [exact V|]. rewrite A1, A2.
    apply Qtrunc_mono, Qclamp_mono; [|exact A0].
    apply phase_acc_mono; try assumption.
    split; [|exact V]. rewrite V1. now apply constrain_nonneg.
  - (* the stroke out is the faster one *)
    assert (V : speed m2 <= speed m1).
    { rewrite V1, V2. apply constrain_mono; [|exact M0].
      now apply phase_speed_mono. }
    assert (A : acceleration m2 <= acceleration m1).
    { rewrite A1, A2.
      apply Qtrunc_mono, Qclamp_mono; [|exact A0].
      apply phase_acc_mono; try assumption.
      split; [|exact V]. rewrite V2. now apply constrain_nonneg. }
    split; [|split]; [intros | intros _ | intros Z]; try lra.
    + now split.
    + assert (Q : (t + - (0.5 * t / c) == 0.5 * t / c)%Q).
      { rewrite (C0 Z). field. }
      assert (V' : speed m1 = speed m2).
      { rewrite V1, V2. f_equal. apply Qtrunc_comp. now rewrite Q. }
      split; [exact V'|].
      rewrite A1, A2, V'. apply Qtrunc_comp.
      apply Qclamp_comp; [|exact A0]. now rewrite Q.
Qed.

Lemma teasing_pounding_faster_stroke_witness :
  let p := TeasingPounding.upd_base (Pattern.setSensation (Fin 50))
             (TeasingPounding.upd_base (Pattern.setSpeedLimit 1000 10000 80)
                (TeasingPounding.init 400 1000 100)) in
  exists m1 p1 m2 p2,
    TeasingPounding.nextTarget 1 p = Some (m1, p1) /\
    TeasingPounding.nextTarget 2 p = Some (m2, p2) /\
    ((0 < 50)%Q ->
       speed m1 <= speed m2 /\ acceleration m1 <= acceleration m2).
Proof.
  cbv zeta. do 4 eexists.
  split; [vm_compute; reflexivity|]. split; [vm_compute; reflexivity|].
  eapply (@teasing_pounding_faster_stroke
            (TeasingPounding.upd_base (Pattern.setSensation (Fin 50))
               (TeasingPounding.upd_base
                  (Pattern.setSpeedLimit 1000 10000 80)
                  (TeasingPounding.init 400 1000 100))) 50 1 2).
  - constructor; split; discriminate.
  - discriminate.
  - discriminate.
  - discriminate.
  - discriminate.
  - reflexivity.
  - reflexivity.
  - reflexivity.
  - vm_compute. reflexivity.
  - vm_compute. reflexivity.
Defined.

(* ================================================================== *)
(** ** Operational configurations *)

Lemma to_int_bounded (q : Q) (B : Z) :
  (0 <= q)%Q -> (q <= inject_Z B)%Q -> B <= INT_MAX ->
  exists i, to_int (Fin q) = Some i /\ i = Qtrunc q /\ 0 <= i <= B.
Proof.
  intros H0 H1 HB.
  assert (L : 0 <= Qtrunc q) by now apply Qtrunc_nonneg.
  assert (U : Qtrunc q <= B).
  { rewrite <- (Qtrunc_inject_Z B). now apply Qtrunc_mono. }
  exists (Qtrunc q). split; [|split; [reflexivity|lia]].
  apply to_int_Fin. unfold in_int, INT_MIN, INT_MAX in *. lia.
Qed.

Lemma to_int_clamped (e : float) (B : Z) :
  0 <= B <= INT_MAX -> e <> NaN ->
  exists i, to_int (fconstrain e (of_int 0) (of_int B)) = Some i /\
            0 <= i <= B.
Proof.
  intros HB N.
  assert (G : exists q, fconstrain e (of_int 0) (of_int B) = Fin q /\
                        (inject_Z 0 <= q <= inject_Z B)%Q).
  { assert (L : (inject_Z 0 <= inject_Z B)%Q) by (rewrite <- Zle_Qle; lia).
    destruct e as [q| | |]; unfold of_int.
    - rewrite fconstrain_Fin. eexists. split; [reflexivity|].
      now apply Qclamp_bounds.
    - cbn. exists (inject_Z B). split; [reflexivity|]. split; [exact L|lra].
    - cbn. exists (inject_Z 0). split; [reflexivity|]. split; [lra|exact L].
    - now elim N. }
  destruct G as (q & -> & L & U).
  destruct (@to_int_bounded q B L U (proj2 HB)) as (i & E & _ & I).
  now exists i.
Qed.

Lemma operational_time (b : Pattern.t) :
  operational b ->
  let z := inject_Z (Pattern._stroke b) in
  let v := inject_Z (Pattern._speed b) in
  let M := inject_Z (Pattern._maxSpeed b) in
  Pattern._calRangeOfStroke b = Fin z /\
  Pattern.speedDivisor b = Pattern._speed b /\
  Pattern._calTimeOfStroke b = Fin (z / v) /\
  (1 <= z)%Q /\ (1 <= v)%Q /\ (v <= M)%Q /\
  (20 * M <= inject_Z INT_MAX)%Q /\
  (300 * (M * M) <= inject_Z INT_MAX * z)%Q.
Proof.
  intros [[Ws Wd Wv Wm Wa] Hz Hd Hv Hm Hq Ha] z v M.
  assert (R : Pattern._calRangeOfStroke b = Fin z).
  { unfold Pattern._calRangeOfStroke, of_int.
    rewrite !abs_int_id by (unfold in_int, INT_MAX in *; lia).
    unfold z. do 2 f_equal. lia. }
  assert (D : Pattern.speedDivisor b = Pattern._speed b).
  { unfold Pattern.speedDivisor, constrain.
    destruct (_ <? 1) eqn:E1; [lia|]. destruct (_ >? _) eqn:E2; lia. }
  assert (V1 : (1 <= v)%Q)
    by (unfold v; change 1%Q with (inject_Z 1); rewrite <- Zle_Qle; lia).
  split; [exact R|]. split; [exact D|]. split.
  - unfold Pattern._calTimeOfStroke. rewrite R, D. apply fdiv_Fin.
    fold v. lra.
  - split; [unfold z; change 1%Q with (inject_Z 1); rewrite <- Zle_Qle; lia|].
    split; [exact V1|].
    split; [unfold v, M; rewrite <- Zle_Qle; lia|].
    split.
    + unfold M. change 20%Q with (inject_Z 20).
      rewrite <- inject_Z_mult, <- Zle_Qle. lia.
    + unfold M, z. change 300%Q with (inject_Z 300).
      rewrite <- !inject_Z_mult, <- Zle_Qle.
      assert (0 <= Pattern._maxSpeed b * Pattern._maxSpeed b) by nia.
      unfold INT_MAX in *. lia.
Qed.

Lemma SimplePenetration_defined (index : Z) (p : SimplePenetration.t) :
  operational (SimplePenetration.base p) ->
  exists m p', SimplePenetration.nextTarget index p = Some (m, p').
Proof.
  intros Op.
  destruct (operational_time Op) as (R & D & T & Z1 & V1 & VM & M20 & Q).
  destruct Op as [[Ws Wd Wv Wm Wa] Hz Hd Hv Hm Hq Ha].
  unfold SimplePenetration.nextTarget.
  rewrite speed_nonzero by lia. cbv zeta.
  destruct (@to_int_clamped
              (fmul (Fin 1.5)
                 (of_int (Pattern._speed (SimplePenetration.base p))))
              (Pattern._maxSpeed (SimplePenetration.base p)))
    as (v & -> & Bv); [unfold INT_MAX in *; lia | discriminate |].
  cbn [bind].
  destruct (@to_int_clamped
              (fdiv (fmul (Fin 3) (of_int v))
                 (Pattern._calTimeOfStroke (SimplePenetration.base p)))
              (Pattern._maxAcceleration (SimplePenetration.base p)))
    as (a & -> & Ba).
  - unfold in_uint in Wa. lia.
  - rewrite T. unfold of_int. cbn [fmul]. rewrite fdiv_Fin; [discriminate|].
    intros E.
    assert (P : (0 < inject_Z (Pattern._stroke (SimplePenetration.base p))
                     / inject_Z (Pattern._speed (SimplePenetration.base p))
                )%Q)
      by (apply Qlt_shift_div_l; lra).
    lra.
  - cbn [bind]. eauto.
Qed.

Lemma quotient_in_int (a tau : Q) :
  (0 <= a)%Q -> (0 < tau)%Q -> (a <= inject_Z INT_MAX * tau)%Q ->
  exists i, to_int (fdiv (Fin a) (Fin tau)) = Some i /\ 0 <= i.
Proof.
  intros Ha Ht H.
  rewrite fdiv_Fin by lra.
  destruct (@to_int_bounded (a / tau) INT_MAX) as (i & E & _ & I).
  - apply Qle_shift_div_l; lra.
  - apply Qle_shift_div_r; lra.
  - lia.
  - exists i. split; [exact E|lia].
Qed.

(** The times of the two strokes of TeasingPounding and HalfnHalf are at
    least a tenth of the time of stroke [2 z / v]. *)
Lemma stroke_time_bound (z v c s : Q) (index : Z) :
  (1 <= z)%Q -> (1 <= v)%Q -> (1 <= c <= 5)%Q ->
  let tau := stroke_time (2 * z / v) c s index in
  (0 < tau)%Q /\ (z <= 5 * v * tau)%Q.
Proof.
  intros Hz Hv Hc tau.
  assert (T : (0 < 2 * z / v)%Q) by (apply Qlt_shift_div_l; lra).
  destruct (@stroke_times (2 * z / v) c T (proj1 Hc)) as [F S].
  assert (E : (5 * v * (0.5 * (2 * z / v) / c) == 5 * z / c)%Q)
    by (field; split; lra).
  assert (G : (z <= 5 * z / c)%Q) by (apply Qle_shift_div_l; nra).
  unfold tau, stroke_time.
  destruct (fast_stroke s index).
  - split; [exact F|]. rewrite E. exact G.
  - split; [lra|]. 
    assert (H : (5 * v * (0.5 * (2 * z / v) / c)
                 <= 5 * v * (2 * z / v + - (0.5 * (2 * z / v) / c)))%Q)
      by nra.
    rewrite E in H. lra.
Qed.

Lemma fgt_Fin_dec (s : Q) :
  fgt (Fin s) (Fin 0) = if Qlt_le_dec 0 s then true else false.
Proof.
  destruct (Qlt_le_dec 0 s) as [L|L].
  - now apply fgt_Fin_0.
  - destruct (fgt (Fin s) (Fin 0)) eqn:F; [|reflexivity].
    apply fgt_Fin_0 in F. lra.
Qed.

Lemma TeasingPounding_times (p : TeasingPounding.t) (t s : Q) :
  TeasingPounding._timeOfStroke p = Fin t ->
  Pattern._sensation (TeasingPounding.base p) = Fin s ->
  exists c, (1 <= c <= 5)%Q /\
    TeasingPounding._timeOfInStroke (TeasingPounding._updateStrokeTiming p)
    = Fin (stroke_time t c s 0) /\
    TeasingPounding._timeOfOutStroke (TeasingPounding._updateStrokeTiming p)
    = Fin (stroke_time t c s 1).
Proof.
  intros HT Hs. destruct (fast_scale s) as (c & C & Bc & _).
  exists c. split; [exact Bc|].
  unfold TeasingPounding._updateStrokeTiming, stroke_time, fast_stroke.
  rewrite HT, Hs, C, fgt_Fin_dec. cbn [fmul].
  rewrite fdiv_Fin by lra. cbn [fsub fopp fadd].
  change (odd_stroke 0) with false. change (odd_stroke 1) with true.
  now destruct (Qlt_le_dec 0 s).
Qed.

Lemma HalfnHalf_times (p : HalfnHalf.t) (t s : Q) :
  HalfnHalf._timeOfStroke p = Fin t ->
  Pattern._sensation (HalfnHalf.base p) = Fin s ->
  exists c, (1 <= c <= 5)%Q /\
    HalfnHalf._timeOfInStroke (HalfnHalf._updateStrokeTiming p)
    = Fin (stroke_time t c s 0) /\
    HalfnHalf._timeOfOutStroke (HalfnHalf._updateStrokeTiming p)
    = Fin (stroke_time t c s 1).
Proof.
  intros HT Hs. destruct (fast_scale s) as (c & C & Bc & _).
  exists c. split; [exact Bc|].
  unfold HalfnHalf._updateStrokeTiming, stroke_time, fast_stroke.
  rewrite HT, Hs, C, fgt_Fin_dec. cbn [fmul].
  rewrite fdiv_Fin by lra. cbn [fsub fopp fadd].
  change (odd_stroke 0) with false. change (odd_stroke 1) with true.
  now destruct (Qlt_le_dec 0 s).
Qed.

Lemma speed_quotient (z v M tau : Q) :
  (1 <= z)%Q -> (1 <= v)%Q -> (v <= M)%Q ->
  (20 * M <= inject_Z INT_MAX)%Q ->
  (0 < tau)%Q -> (z <= 5 * v * tau)%Q ->
  (1.5 * z <= inject_Z INT_MAX * tau)%Q.
Proof. intros. nra. Qed.

Lemma acceleration_quotient (z v M tau a k : Q) :
  (1 <= z)%Q -> (1 <= v)%Q -> (v <= M)%Q ->
  (300 * (M * M) <= inject_Z INT_MAX * z)%Q ->
  (0 < tau)%Q -> (z <= k * v * tau)%Q -> (0 < k <= 100)%Q ->
  (0 <= a <= M)%Q ->
  (3 * a <= inject_Z INT_MAX * tau)%Q.
Proof.
  intros Hz Hv HM HQ Ht Hk Kk Ha.
  assert (I0 : (0 <= inject_Z INT_MAX)%Q) by (now apply inject_Z_nonneg).
  assert (P1 : (inject_Z INT_MAX * z <= inject_Z INT_MAX * (k * v * tau))%Q)
    by nra.
  assert (M1 : (1 <= M)%Q) by lra.
  assert (Q1 : (k * v <= 100 * v)%Q) by nra.
  assert (Q2 : (100 * v <= 100 * M)%Q) by lra.
  assert (Q3 : (M * (k * v) <= M * (100 * M))%Q) by nra.
  assert (P2 : (3 * M * (k * v) <= 300 * (M * M))%Q) by lra.
  assert (P3 : (3 * M * (k * v) <= inject_Z INT_MAX * tau * (k * v))%Q)
    by lra.
  assert (P4 : (0 < k * v)%Q) by nra.
  assert (P5 : (3 * M <= inject_Z INT_MAX * tau)%Q)
    by (apply (Qmult_le_r _ _ (k * v) P4); lra).
  lra.
Qed.

Lemma TeasingPounding_defined (index : Z) (p : TeasingPounding.t) (s : Q) :
  operational (TeasingPounding.base p) ->
  Pattern._sensation (TeasingPounding.base p) = Fin s ->
  exists m p', TeasingPounding.nextTarget index p = Some (m, p').
Proof.
  intros Op Hs.
  destruct (operational_time Op) as (R & D & T & Z1 & V1 & VM & M20 & Q).
  destruct Op as [[Ws Wd Wv Wm Wa] Hz Hd Hv Hm Hq Ha].
  unfold TeasingPounding.nextTarget.
  rewrite speed_nonzero by lia. cbv zeta.
  rewrite TeasingPounding_base_timing.
  cbn [TeasingPounding.base TeasingPounding.set_timeOfStroke].
  set (b := TeasingPounding.base p) in *.
  assert (HT : TeasingPounding._timeOfStroke
                 (TeasingPounding.set_timeOfStroke
                    (TeasingPounding._calTimeOfStroke p) p)
               = Fin (2 * inject_Z (Pattern._stroke b)
                      / inject_Z (Pattern._speed b))).
  { unfold TeasingPounding._calTimeOfStroke. fold b. rewrite R, D.
    cbn [TeasingPounding._timeOfStroke TeasingPounding.set_timeOfStroke fmul].
    apply fdiv_Fin. lra. }
  destruct (@TeasingPounding_times _ _ s HT Hs) as (c & Bc & Ti & To).
  rewrite Ti, To.
  assert (S : forall k,
    let tau := stroke_time (2 * inject_Z (Pattern._stroke b)
                            / inject_Z (Pattern._speed b)) c s k in
    (exists i, to_int (fdiv (fmul (Fin 1.5) (of_int (Pattern._stroke b)))
                            (Fin tau)) = Some i) /\
    (forall v, exists a,
       to_int (fconstrain (fdiv (fmul (Fin 3) (of_int v)) (Fin tau))
                          (of_int 0) (of_int (Pattern._maxAcceleration b)))
       = Some a)).
  { intros k tau.
    destruct (@stroke_time_bound _ _ c s k Z1 V1 Bc) as [P B]. fold tau in P, B.
    split.
    - unfold of_int. cbn [fmul].
      destruct (@quotient_in_int (1.5 * inject_Z (Pattern._stroke b)) tau)
        as (i & E & _); [lra | exact P | | eauto].
      now apply (@speed_quotient _ (inject_Z (Pattern._speed b))
                   (inject_Z (Pattern._maxSpeed b))).
    - intros v. unfold of_int at 1. cbn [fmul].
      rewrite fdiv_Fin by lra.
      destruct (@to_int_clamped (Fin (3 * inject_Z v / tau))
                  (Pattern._maxAcceleration b)) as (a & E & _);
        [unfold in_uint in Wa; lia | discriminate | eauto]. }
  destruct (odd_stroke index).
  - destruct (S 1) as [(i & ->) A]. cbn [bind].
    destruct (A (constrain i 0 (Pattern._maxSpeed b))) as (a & ->).
    cbn [bind]. eauto.
  - destruct (S 0) as [(i & ->) A]. cbn [bind].
    destruct (A (constrain i 0 (Pattern._maxSpeed b))) as (a & ->).
    cbn [bind]. eauto.
Qed.

Lemma constrained_speed (i M : Z) :
  0 <= M ->
  (0 <= inject_Z (constrain i 0 M) <= inject_Z M)%Q.
Proof.
  intros H. assert (B := @constrain_bounds i 0 M H).
  split; [apply inject_Z_nonneg | rewrite <- Zle_Qle]; lia.
Qed.

Lemma HalfnHalf_defined (index : Z) (p : HalfnHalf.t) (s : Q) :
  operational (HalfnHalf.base p) ->
  Pattern._sensation (HalfnHalf.base p) = Fin s ->
  exists m p', HalfnHalf.nextTarget index p = Some (m, p').
Proof.
  intros Op Hs.
  destruct (operational_time Op) as (R & D & T & Z1 & V1 & VM & M20 & Q).
  destruct Op as [[Ws Wd Wv Wm Wa] Hz Hd Hv Hm Hq Ha].
  unfold HalfnHalf.nextTarget.
  rewrite speed_nonzero by lia. cbv zeta.
  set (b := HalfnHalf.base p) in *.
  set (q := HalfnHalf._updateStrokeTiming _).
  assert (HT : HalfnHalf._timeOfStroke
                 (HalfnHalf.set_timeOfStroke (HalfnHalf._calTimeOfStroke p) p)
               = Fin (2 * inject_Z (Pattern._stroke b)
                      / inject_Z (Pattern._speed b))).
  { unfold HalfnHalf._calTimeOfStroke. fold b. rewrite R, D.
    cbn [HalfnHalf._timeOfStroke HalfnHalf.set_timeOfStroke fmul].
    apply fdiv_Fin. lra. }
  destruct (@HalfnHalf_times _ _ s HT Hs) as (c & Bc & Ti & To).
  fold q in Ti, To.
  assert (Bq : HalfnHalf.base q = b)
    by (unfold q; now rewrite HalfnHalf_base_timing).
  set (q' := if index =? 0 then HalfnHalf.set_half true q else q).
  assert (Bq' : HalfnHalf.base q' = b /\
                HalfnHalf._timeOfInStroke q' = HalfnHalf._timeOfInStroke q /\
                HalfnHalf._timeOfOutStroke q' = HalfnHalf._timeOfOutStroke q)
    by (unfold q'; destruct (index =? 0); now repeat split).
  destruct Bq' as (B' & Ti' & To'). rewrite B', Ti', To', Ti, To.
  assert (M0 : 0 <= Pattern._maxSpeed b) by lia.
  assert (S : forall k,
    let tau := stroke_time (2 * inject_Z (Pattern._stroke b)
                            / inject_Z (Pattern._speed b)) c s k in
    (exists i, to_int (fdiv (fmul (Fin 1.5) (of_int (Pattern._stroke b)))
                            (Fin tau)) = Some i) /\
    (forall i, exists a,
       to_int (fdiv (fmul (Fin 3)
                       (of_int (constrain i 0 (Pattern._maxSpeed b))))
                    (Fin tau)) = Some a)).
  { intros k tau.
    destruct (@stroke_time_bound _ _ c s k Z1 V1 Bc) as [P B]. fold tau in P, B.
    split.
    - unfold of_int. cbn [fmul].
      destruct (@quotient_in_int (1.5 * inject_Z (Pattern._stroke b)) tau)
        as (i & E & _); [lra | exact P | | eauto].
      now apply (@speed_quotient _ (inject_Z (Pattern._speed b))
                   (inject_Z (Pattern._maxSpeed b))).
    - intros i. unfold of_int. cbn [fmul].
      destruct (constrained_speed i M0) as [C0 C1].
      destruct (@quotient_in_int
                  (3 * inject_Z (constrain i 0 (Pattern._maxSpeed b))) tau)
        as (a & E & _); [lra | exact P | | eauto].
      apply (@acceleration_quotient (inject_Z (Pattern._stroke b))
               (inject_Z (Pattern._speed b))
               (inject_Z (Pattern._maxSpeed b)) tau _ 5);
        try assumption; try lra; now split. }
  destruct (odd_stroke index).
  - destruct (S 1) as [(i & ->) A]. cbn [bind].
    destruct (A i) as (a & ->). cbn [bind]. eauto.
  - destruct (S 0) as [(i & ->) A]. cbn [bind].
    destruct (A i) as (a & ->). cbn [bind]. eauto.
Qed.

Lemma RoboStroke_defined (index : Z) (p : RoboStroke.t) (x : Q) :
  operational (RoboStroke.base p) ->
  RoboStroke._x p = Fin x -> (0.05 <= x <= 0.5)%Q ->
  exists m p', RoboStroke.nextTarget index p = Some (m, p').
Proof.
  intros Op Hx Bx.
  destruct (operational_time Op) as (R & D & T & Z1 & V1 & VM & M20 & Q).
  destruct Op as [[Ws Wd Wv Wm Wa] Hz Hd Hv Hm Hq Ha].
  unfold RoboStroke.nextTarget.
  rewrite speed_nonzero by lia. cbv zeta.
  rewrite Hx. unfold of_int. cbn [fsub fopp fadd].
  destruct (@quotient_in_int
              (inject_Z (Pattern._speed (RoboStroke.base p)))
              (inject_Z 1 + - x)) as (i & -> & _);
    [lra | change (inject_Z 1) with 1%Q; lra
     | change (inject_Z 1) with 1%Q; nra |].
  cbn [bind].
  destruct (@quotient_in_int
              (inject_Z (Pattern._speed (RoboStroke.base p))) x)
    as (j & -> & _); [lra | lra | nra |].
  cbn [bind]. eauto.
Qed.

Lemma base_quotients (b : Pattern.t) :
  operational b ->
  (forall amp, 0 <= amp <= Pattern._stroke b ->
     exists i, to_int (fdiv (fmul (Fin 1.5) (of_int amp))
                            (Pattern._calTimeOfStroke b)) = Some i) /\
  (exists i, to_int (fmul (Fin 1.5) (of_int (Pattern._speed b))) = Some i) /\
  (forall i, exists a,
     to_int (fdiv (fmul (Fin 3)
                     (of_int (constrain i 0 (Pattern._maxSpeed b))))
                  (Pattern._calTimeOfStroke b)) = Some a).
Proof.
  intros Op.
  destruct (operational_time Op) as (R & D & T & Z1 & V1 & VM & M20 & Q).
  destruct Op as [[Ws Wd Wv Wm Wa] Hz Hd Hv Hm Hq Ha].
  assert (P : (0 < inject_Z (Pattern._stroke b)
                   / inject_Z (Pattern._speed b))%Q)
    by (apply Qlt_shift_div_l; lra).
  assert (E : (inject_Z (Pattern._speed b)
               * (inject_Z (Pattern._stroke b) / inject_Z (Pattern._speed b))
               == inject_Z (Pattern._stroke b))%Q) by (field; lra).
  rewrite T. unfold of_int. cbn [fmul]. split; [|split].
  - intros amp Ba.
    assert (A0 : (0 <= inject_Z amp)%Q) by (apply inject_Z_nonneg; lia).
    assert (A1 : (inject_Z amp <= inject_Z (Pattern._stroke b))%Q)
      by (rewrite <- Zle_Qle; lia).
    destruct (@quotient_in_int (1.5 * inject_Z amp)
                (inject_Z (Pattern._stroke b) / inject_Z (Pattern._speed b)))
      as (i & Ei & _); [lra | exact P | | eauto].
    apply (Qmult_le_r _ _ (inject_Z (Pattern._speed b))); [lra|].
    assert (F : (inject_Z INT_MAX
                 * (inject_Z (Pattern._stroke b)
                    / inject_Z (Pattern._speed b))
                 * inject_Z (Pattern._speed b)
                 == inject_Z INT_MAX * inject_Z (Pattern._stroke b))%Q)
      by (field; lra).
    rewrite F.
    assert (I0 : (0 <= inject_Z INT_MAX)%Q) by now apply inject_Z_nonneg.
    nra.
  - destruct (@to_int_bounded (1.5 * inject_Z (Pattern._speed b)) INT_MAX)
      as (i & Ei & _); [lra | lra | lia | eauto].
  - intros i.
    assert (M0 : 0 <= Pattern._maxSpeed b) by lia.
    destruct (constrained_speed i M0) as [C0 C1].
    destruct (@quotient_in_int
                (3 * inject_Z (constrain i 0 (Pattern._maxSpeed b)))
                (inject_Z (Pattern._stroke b) / inject_Z (Pattern._speed b)))
      as (a & Ea & _); [lra | exact P | | eauto].
    apply (@acceleration_quotient (inject_Z (Pattern._stroke b))
             (inject_Z (Pattern._speed b))
             (inject_Z (Pattern._maxSpeed b)) _ _ 1);
      try assumption; try lra; now split.
Qed.

Lemma Deeper_defined (index : Z) (p : Deeper.t) (s : Q) :
  operational (Deeper.base p) ->
  Pattern._sensation (Deeper.base p) = Fin s -> (-100 <= s <= 100)%Q ->
  exists m p', Deeper.nextTarget index p = Some (m, p').
Proof.
  intros Op Hs Bs.
  destruct (base_quotients Op) as (Qi & _ & Qa).
  destruct Op as [[Ws Wd Wv Wm Wa] Hz Hd Hv Hm Hq Ha].
  unfold Deeper.nextTarget.
  rewrite speed_nonzero by lia. cbv zeta. rewrite Hs.
  destruct (countStrokesForRamp_Fin Bs) as (r & R & _).
  assert (Br := ramp_bounds Bs R). rewrite R. cbn [bind].
  replace (r =? 0) with false by (symmetry; apply Z.eqb_neq; lia).
  assert (C : 1 <= Deeper.cycleIndex index r <= r)
    by (apply cycleIndex_bounds; unfold INT_MAX; lia).
  destruct (@amplitude_bounds (Pattern._stroke (Deeper.base p)) r
              (Deeper.cycleIndex index r)) as [A1 A2];
    [unfold in_int, INT_MAX in *; lia | unfold INT_MAX; lia | exact C |].
  rewrite A1.
  destruct (Qi _ A2) as (i & ->). cbn [bind].
  destruct (Qa i) as (a & ->). cbn [bind]. eauto.
Qed.

Lemma StopNGo_defined (index millis : Z) (p : StopNGo.t) :
  operational (StopNGo.base p) ->
  exists m p', StopNGo.nextTarget index millis p = Some (m, p').
Proof.
  intros Op.
  destruct (base_quotients Op) as (_ & (i & Qi) & Qa).
  destruct Op as [[Ws Wd Wv Wm Wa] Hz Hd Hv Hm Hq Ha].
  unfold StopNGo.nextTarget.
  rewrite speed_nonzero by lia. cbv zeta.
  destruct (Qa i) as (a & Ea).
  destruct (negb _); [destruct (odd_stroke index)|];
    cbv beta iota zeta; rewrite Qi; cbn [bind]; rewrite Ea; cbn [bind];
    eauto.
Qed.

Lemma Insist_defined (index : Z) (p : Insist.t) (s : Q) :
  operational (Insist.base p) ->
  Pattern._sensation (Insist.base p) = Fin s -> (-99 <= s <= 99)%Q ->
  exists m p', Insist.nextTarget index p = Some (m, p').
Proof.
  intros Op Hs Bs.
  destruct (operational_time Op) as (R & D & T & Z1 & V1 & VM & M20 & Q).
  destruct (base_quotients Op) as (_ & (i & Qi) & _).
  destruct Op as [[Ws Wd Wv Wm Wa] Hz Hd Hv Hm Hq Ha].
  unfold Insist.nextTarget.
  rewrite speed_nonzero by lia. cbv zeta.
  destruct (fabs_Fin s) as (a & A & Ea).
  assert (Ba : (0 <= a <= 99)%Q).
  { rewrite Ea. split; [apply Qabs_nonneg|].
    apply Qabs_Qle_condition. exact Bs. }
  set (f := ((inject_Z 100 + - a) / 100)%Q).
  assert (Bf : (0.01 <= f <= 1)%Q).
  { unfold f. change (inject_Z 100) with 100%Q. split.
    - apply Qle_shift_div_l; lra.
    - apply Qle_shift_div_r; lra. }
  destruct (@to_int_bounded
              (inject_Z (Pattern._stroke (Insist.base p)) * f)
              (Pattern._stroke (Insist.base p))) as (r & Er & _);
    [nra | nra | unfold in_int, INT_MAX in *; lia |].
  assert (U : forall t,
             Insist._updateRealStroke (Insist.set_timeOfStroke t p) =
             Some {| Insist.base := Insist.base p;
                     Insist._timeOfStroke := t;
                     Insist._realStroke := r;
                     Insist._strokeFraction := Fin f;
                     Insist._strokeInFront :=
                       if fgt (Fin s) (of_int 0) then true else false |}).
  { intros t. unfold Insist._updateRealStroke.
    cbn [Insist.base Insist.set_timeOfStroke Insist._timeOfStroke].
    rewrite Hs, A. unfold of_int. cbn [fsub fopp fadd].
    rewrite fdiv_Fin by discriminate. fold f. cbn [fmul].
    rewrite Er. reflexivity. }
  rewrite U. cbn [bind Insist.base Insist._timeOfStroke
                  Insist._strokeFraction].
  rewrite Qi. cbn [bind]. rewrite T. unfold of_int. cbn [fmul].
  set (z := inject_Z (Pattern._stroke (Insist.base p))) in *.
  set (v := inject_Z (Pattern._speed (Insist.base p))) in *.
  assert (P : (0 < z / v)%Q) by (apply Qlt_shift_div_l; lra).
  assert (M0 : 0 <= Pattern._maxSpeed (Insist.base p)) by lia.
  destruct (constrained_speed i M0) as [C0 C1].
  destruct (@quotient_in_int
              (3 * inject_Z (constrain i 0
                               (Pattern._maxSpeed (Insist.base p))))
              (z / v * f)) as (j & -> & _).
  - lra.
  - nra.
  - apply (@acceleration_quotient z v
             (inject_Z (Pattern._maxSpeed (Insist.base p))) _ _ 100);
      try assumption; try lra; try (now split).
    + nra.
    + assert (E : (100 * v * (z / v * f) == z * (100 * f))%Q)
        by (field; lra).
      rewrite E. nra.
  - cbn [bind]. eauto.
Qed.

(** X17: in an operational configuration (a stroke of at least one step
    within a depth of at most [2 ^ 24] steps, a speed between 1 and the
    limit of speed, limits with [40 * maxSpeed <= INT_MAX] and
    [600 * maxSpeed^2 <= INT_MAX * stroke]) and with a sensation within
    [-100, 100] (within [-99, 99] for Insist; a split fraction within
    [0.05, 0.5] for RoboStroke) no conversion of [nextTarget] is undefined:
    every pattern returns a command, for every index and at every time.
    The two limits are twice as strict as exact arithmetic requires
    (lemma [operational_time]) and the range and the speed stay below
    [2 ^ 24], which leaves room for the roundings of binary32. *)
Theorem nextTarget_defined (p : pattern) (s : Q) (index millis : Z) :
  operational (base_of p) ->
  Pattern._sensation (base_of p) = Fin s -> (-100 <= s <= 100)%Q ->
  match p with
  | AInsist _ => (-99 <= s <= 99)%Q
  | ARoboStroke r =>
      exists x, RoboStroke._x r = Fin x /\ (0.05 <= x <= 0.5)%Q
  | _ => True
  end ->
  exists m p', nextTarget index millis p = Some (m, p').
Proof.
  intros Op Hs Bs Hp.
  assert (G : forall A (c : A -> pattern) (r : option (motionParameter * A)),
             (exists m q, r = Some (m, q)) ->
             exists m p', tag c r = Some (m, p')).
  { intros A c r (m & q & ->). cbn. eauto. }
  destruct p as [p|p|p|p|p|p|p]; cbn [nextTarget base_of] in *; apply G.
  - now apply SimplePenetration_defined.
  - now apply (@TeasingPounding_defined index p s).
  - destruct Hp as (x & Hx & Bx).
    now apply (@RoboStroke_defined index p x).
  - now apply (@HalfnHalf_defined index p s).
  - now apply (@Deeper_defined index p s).
  - now apply StopNGo_defined.
  - now apply (@Insist_defined index p s).
Qed.

Lemma nextTarget_defined_witness :
  let p := upd_base (Pattern.setSensation (Fin 40))
             (started (AInsist (Insist.init 0 0 0)) 1000 10000 1000 400 100) in
  exists m p', nextTarget 3 0 p = Some (m, p').
Proof.
  cbv zeta.
  apply (@nextTarget_defined
           (upd_base (Pattern.setSensation (Fin 40))
              (started (AInsist (Insist.init 0 0 0))
                 1000 10000 1000 400 100)) 40 3 0).
  - constructor; try (constructor; split; discriminate);
      try (split; discriminate); discriminate.
  - reflexivity.
  - split; discriminate.
  - split; discriminate.
Defined.

(* ================================================================== *)
(** ** Insist in an operational configuration, in binary32 *)

(** A value of the normal range of binary32 loses at most [2 ^ -24] of
    itself when it is rounded. *)
Lemma r32_lower (q : Q) :
  (2 ^ (-126) <= q)%Q -> ((1 - 2 ^ (-24)) * q <= r32 q)%Q.
Proof.
  intros H.
  pose proof (@rnd_err_normal 24 (-149) q H) as E.
  change (rnd 24 (-149) q) with (r32 q) in E.
  apply Qabs_Qle_condition in E. change (- (24)) with (-24) in E. lra.
Qed.

Lemma insist_quotient (z v m v' t f tf im : Q) :
  (0 < z)%Q -> (1 <= v <= m)%Q -> (0 <= v' <= m)%Q ->
  (600 * (m * m) <= im * z)%Q -> (0 <= im)%Q ->
  ((1 - 2 ^ (-24)) * (z / v) <= t)%Q -> (2 ^ (-7) <= f)%Q ->
  ((1 - 2 ^ (-24)) * (t * f) <= tf)%Q ->
  (0 < tf)%Q /\ (3 * v' <= im * tf)%Q.
Proof.
  intros Hz Hv Hv' Hq Him Ht Hf Htf.
  set (u := (z / v)%Q) in *.
  assert (Eu : (u * v == z)%Q) by (unfold u; field; lra).
  assert (Pu : (0 < u)%Q) by (unfold u; apply Qlt_shift_div_l; lra).
  assert (T1 : ((9 # 10) * u <= t)%Q) by lra.
  assert (T2 : ((1 # 128) <= f)%Q) by lra.
  assert (T3 : ((9 # 10) * (1 # 128) * u <= t * f)%Q) by nra.
  assert (T4 : ((9 # 10) * (t * f) <= tf)%Q).
  { assert (0 <= t * f)%Q by nra. lra. }
  assert (T5 : ((81 # 12800) * u <= tf)%Q) by lra.
  split; [lra|].
  assert (A : (3 * v' * v <= im * tf * v)%Q).
  { assert (A1 : (v' * v <= m * m)%Q) by nra.
    assert (A2 : ((81 # 12800) * (im * z) <= im * tf * v)%Q).
    { rewrite <- Eu.
      assert (A3 : (0 <= im * v)%Q) by nra.
      assert (A4 : ((81 # 12800) * u * (im * v) <= tf * (im * v))%Q).
      { apply Qmult_le_compat_r; assumption. }
      lra. }
    assert (A5 : (0 <= m * m)%Q) by nra.
    lra. }
  apply Qmult_lt_0_le_reg_r with (z := v); [lra | exact A].
Qed.

Lemma of_int32_Fin (n : Z) :
  0 <= n <= 2 ^ 24 ->
  exists q, of_int32 n = Fin q /\ (q == inject_Z n)%Q.
Proof.
  intros H. unfold of_int32, of_int.
  assert (H0 : (0 <= inject_Z n)%Q) by (apply inject_Z_nonneg; lia).
  assert (H1 : (inject_Z n <= 2 ^ 127)%Q).
  { apply Qle_trans with (y := inject_Z (2 ^ 24)).
    - rewrite <- Zle_Qle. lia.
    - apply Qle_bool_iff. vm_compute. reflexivity. }
  rewrite (round32_Fin H0 H1).
  exists (r32 (inject_Z n)). split; [reflexivity | now apply r32_Z].
Qed.

(** The limit of speed of an operational configuration is below
    [2 ^ 24]. *)
Lemma operational_maxSpeed (b : Pattern.t) :
  operational b -> Pattern._maxSpeed b <= 2 ^ 24.
Proof.
  intros [_ Hz Hd _ _ Hq _].
  unfold INT_MAX in Hq. change (2 ^ 24) with 16777216 in *.
  change (2 ^ 31 - 1) with 2147483647 in Hq.
  nia.
Qed.

(** The time of stroke of the base class in binary32, in an operational
    configuration: the quotient of the stroke by the speed, short of it by
    at most [2 ^ -24] of it. *)
Lemma Pattern_calTimeOfStroke_Fin (b : Pattern.t) :
  operational b ->
  exists t,
    Binary32.Pattern_calTimeOfStroke b = Fin t /\
    ((1 - 2 ^ (-24))
     * (inject_Z (Pattern._stroke b) / inject_Z (Pattern._speed b)) <= t)%Q /\
    (t <= 2 ^ 24)%Q.
Proof.
  intros Op.
  pose proof (operational_maxSpeed Op) as HM.
  destruct (operational_time Op) as (_ & D & _ & Z1 & V1 & VM & _ & _).
  destruct Op as [[Ws Wd Wv Wm Wa] Hz Hd Hv Hm Hq Ha].
  unfold Binary32.Pattern_calTimeOfStroke, Binary32.Pattern_calRangeOfStroke.
  rewrite D.
  rewrite !abs_int_id
    by (unfold INT_MAX; change (2 ^ 24) with 16777216 in *; lia).
  rewrite Z.min_r by lia.
  destruct (@of_int32_Fin (Pattern._stroke b)) as (a & -> & Ea); [lia|].
  destruct (@of_int32_Fin (Pattern._speed b)) as (c & -> & Ec); [lia|].
  set (z := inject_Z (Pattern._stroke b)) in *.
  set (v := inject_Z (Pattern._speed b)) in *.
  assert (Z24 : (z <= 2 ^ 24)%Q).
  { unfold z. rewrite p2_24, <- Zle_Qle. lia. }
  assert (V24 : (v <= 2 ^ 24)%Q).
  { unfold v. rewrite p2_24, <- Zle_Qle. lia. }
  unfold fdiv32. rewrite fdiv_Fin by lra.
  assert (E : (a / c == z / v)%Q) by (rewrite Ea, Ec; reflexivity).
  assert (L : (2 ^ (-24) <= z / v)%Q).
  { apply Qle_shift_div_l; [lra|].
    assert (2 ^ (-24) * 2 ^ 24 == 1)%Q by reflexivity. nra. }
  assert (U : (z / v <= 2 ^ 24)%Q).
  { apply Qle_shift_div_r; [lra|]. nra. }
  rewrite round32_Fin by (rewrite E; lra).
  exists (r32 (a / c)). split; [reflexivity|]. split.
  - rewrite <- E. apply r32_lower. rewrite E. lra.
  - rewrite <- (@r32_p2 24) by discriminate.
    apply r32_mono; rewrite E; lra.
Qed.

(** The stroke fraction of Insist in binary32 is at least [2 ^ -7] for a
    sensation within [-99, 99]. *)
Lemma strokeFraction_lower (s f : Q) :
  (Qabs s <= 99)%Q -> (f == r32 (r32 (100 - Qabs s) / 100))%Q ->
  (2 ^ (-7) <= f)%Q.
Proof.
  intros Hs Ef. rewrite Ef.
  assert (A : (1 <= r32 (100 - Qabs s))%Q).
  { apply Qle_trans with (y := r32 (inject_Z 1)).
    - rewrite r32_Z by (split; discriminate). apply Qle_refl.
    - apply r32_mono; [discriminate|]. change (inject_Z 1) with 1%Q. lra. }
  rewrite <- (@r32_p2 (-7)) by discriminate.
  apply r32_mono; [discriminate|].
  apply Qle_shift_div_l; [reflexivity|].
  assert (2 ^ (-7) * 100 <= 1)%Q by discriminate. lra.
Qed.

(** At the end of the range of an [int] the roundings decide: with a depth
    and a stroke of 1396983863 steps, the speed and its limit [10 ^ 8] and
    the sensation 99, the quotient of the acceleration is 2147483646 in
    exact arithmetic and above [INT_MAX] in binary32, where its conversion
    has no defined result. *)
Lemma insist_quotient_overflows :
  let p := Insist.upd_base (Pattern.setSensation (Fin 99))
             (Insist.upd_base
                (Pattern.setSpeedLimit 100000000 4000000000 80)
                (Insist.init 1396983863 1396983863 100000000)) in
  Binary32.Insist_nextTarget 1 p = None /\
  exists m p',
    Insist.nextTarget 1 p = Some (m, p') /\ acceleration m = 2147483646.
Proof.
  cbv zeta. split; [vm_compute; reflexivity|].
  do 2 eexists. split; [vm_compute; reflexivity | reflexivity].
Qed.

(** X19: Insist in binary32 and binary64.  In an operational configuration
    and with a sensation within [-99, 99], every conversion of
    [nextTarget] is defined with the roundings of the code: a command is
    returned for every index, within the limits of speed and acceleration
    and with a target within the depth. *)
Theorem insist_defined_in_binary32 (p : Insist.t) (s : Q) (index : Z) :
  operational (Insist.base p) ->
  Pattern._sensation (Insist.base p) = Fin s -> (-99 <= s <= 99)%Q ->
  exists m p',
    Binary32.Insist_nextTarget index p = Some (m, p') /\
    in_limits (Insist.base p) m /\ in_depth (Insist.base p) m /\
    skip m = false.
Proof.
  intros Op Hs Bs.
  pose proof (operational_maxSpeed Op) as HM.
  destruct (Pattern_calTimeOfStroke_Fin Op) as (t & T & Lt & Ut).
  destruct (operational_time Op) as (_ & _ & _ & Z1 & V1 & VM & _ & Q6).
  assert (Q : (600 * (inject_Z (Pattern._maxSpeed (Insist.base p))
                      * inject_Z (Pattern._maxSpeed (Insist.base p)))
               <= inject_Z INT_MAX * inject_Z (Pattern._stroke (Insist.base p))
              )%Q).
  { destruct Op as [_ _ _ _ _ Hq _].
    change 600%Q with (inject_Z 600).
    rewrite <- !inject_Z_mult, <- Zle_Qle. exact Hq. }
  destruct Op as [[Ws Wd Wv Wm Wa] Hz Hd Hv Hm Hq Ha].
  unfold Binary32.Insist_nextTarget.
  rewrite speed_nonzero by lia. cbv zeta. rewrite T.
  assert (As : (Qabs s <= 99)%Q) by (apply Qabs_Qle_condition; exact Bs).
  destruct (@Insist_updateRealStroke_Fin
              (Insist.set_timeOfStroke (Fin t) p) s)
    as (f & g & -> & Ef & Eg & Bf & Bg);
    [cbn [Insist.set_timeOfStroke Insist.base]; lia | exact Hs | lra |].
  cbn [bind Insist.base Insist.set_timeOfStroke Insist._timeOfStroke
       Insist._strokeFraction Insist._strokeInFront Insist._realStroke].
  set (b := Insist.base p) in *.
  set (z := inject_Z (Pattern._stroke b)) in *.
  set (v := inject_Z (Pattern._speed b)) in *.
  set (M := inject_Z (Pattern._maxSpeed b)) in *.
  pose proof (@strokeFraction_lower s f As Ef) as Lf.
  (* the speed *)
  assert (M24 : (M <= 2 ^ 24)%Q).
  { unfold M. rewrite p2_24, <- Zle_Qle. exact HM. }
  unfold fmul64 at 1. unfold of_int at 1. cbn [fmul]. fold v.
  assert (S0 : (0 <= 1.5 * v)%Q) by lra.
  assert (S1 : (1.5 * v <= inject_Z (2 ^ 25))%Q).
  { assert (inject_Z (2 ^ 25) == 2 * 2 ^ 24)%Q by reflexivity. lra. }
  rewrite round64_Fin;
    [|exact S0
     |apply Qle_trans with (1 := S1); apply Qle_bool_iff; vm_compute;
      reflexivity].
  destruct (@to_int_bounded (r64 (1.5 * v)) (2 ^ 25)) as (i & -> & _).
  { now apply r64_nonneg. }
  { rewrite <- (@r64_Z (2 ^ 25)) by (split; discriminate).
    now apply r64_mono. }
  { discriminate. }
  cbn [bind].
  assert (M0 : 0 <= Pattern._maxSpeed b) by lia.
  destruct (constrained_speed i M0) as [C0 C1].
  pose proof (@constrain_bounds i 0 (Pattern._maxSpeed b) M0) as Ci.
  set (v' := constrain i 0 (Pattern._maxSpeed b)) in *.
  (* the acceleration *)
  unfold fmul64, fmul32, fdiv64, of_int. cbn [fmul].
  assert (N3 : (3 * inject_Z v' == inject_Z (3 * v'))%Q).
  { rewrite inject_Z_mult. reflexivity. }
  assert (B3 : 0 <= 3 * v' <= 2 ^ 53).
  { change (2 ^ 24) with 16777216 in HM.
    change (2 ^ 53) with 9007199254740992. lia. }
  assert (R3 : (r64 (3 * inject_Z v') == 3 * inject_Z v')%Q).
  { rewrite (r64_comp (x:=3 * inject_Z v') (y:=inject_Z (3 * v')));
      [|lra|exact N3].
    rewrite r64_Z by exact B3. symmetry. exact N3. }
  rewrite (@round64_Fin (3 * inject_Z v'));
    [|lra
     |apply Qle_trans with (y := inject_Z (2 ^ 53));
      [rewrite N3, <- Zle_Qle; lia
      |apply Qle_bool_iff; vm_compute; reflexivity]].
  (* the product of the time of stroke and the fraction *)
  assert (Pz : (0 < z)%Q) by lra.
  assert (Pu : (0 < z / v)%Q) by (apply Qlt_shift_div_l; lra).
  assert (Pt : (2 ^ (-25) <= t)%Q).
  { assert (L : (2 ^ (-24) <= z / v)%Q).
    { apply Qle_shift_div_l; [lra|].
      assert (2 ^ (-24) * 2 ^ 24 == 1)%Q by reflexivity. nra. }
    assert ((1 - 2 ^ (-24)) * 2 ^ (-24) <= (1 - 2 ^ (-24)) * (z / v))%Q
      by (apply Qmult_le_l; [reflexivity | exact L]).
    assert (2 ^ (-25) <= (1 - 2 ^ (-24)) * 2 ^ (-24))%Q by discriminate.
    lra. }
  assert (Ptf : (2 ^ (-32) <= t * f)%Q).
  { assert (2 ^ (-32) == 2 ^ (-25) * 2 ^ (-7))%Q by reflexivity. nra. }
  assert (Utf : (t * f <= 2 ^ 24)%Q) by nra.
  rewrite (@round32_Fin (t * f)) by lra.
  pose proof (@r32_lower (t * f) ltac:(lra)) as Ltf.
  destruct (@insist_quotient z v M (inject_Z v') t f (r32 (t * f))
              (inject_Z INT_MAX))
    as [Tf0 Tq]; try assumption; try lra; try (now split).
  { apply inject_Z_nonneg. discriminate. }
  rewrite fdiv_Fin by lra.
  assert (A0 : (0 <= r64 (3 * inject_Z v') / r32 (t * f))%Q).
  { apply Qle_shift_div_l; [exact Tf0|]. rewrite R3. lra. }
  assert (A1 : (r64 (3 * inject_Z v') / r32 (t * f) <= inject_Z INT_MAX)%Q).
  { apply Qle_shift_div_r; [exact Tf0|]. rewrite R3. exact Tq. }
  rewrite round64_Fin;
    [|exact A0
     |apply Qle_trans with (1 := A1); apply Qle_bool_iff; vm_compute;
      reflexivity].
  destruct (@to_int_bounded
              (r64 (r64 (3 * inject_Z v') / r32 (t * f))) INT_MAX)
    as (j & -> & _).
  { now apply r64_nonneg. }
  { rewrite <- (@r64_Z INT_MAX) by (split; discriminate).
    now apply r64_mono. }
  { lia. }
  cbn [bind]. do 2 eexists. split; [reflexivity|].
  assert (Ca : 0 <= constrain j 0 (Pattern._maxAcceleration b)
               <= Pattern._maxAcceleration b)
    by (apply constrain_bounds; unfold in_uint in Wa; lia).
  assert (D0 : 0 <= Pattern._depth b) by lia.
  split; [split; cbn [speed acceleration]; [exact Ci | exact Ca]|].
  split; [|reflexivity].
  unfold in_depth. cbn [stroke].
  destruct (if fgt (Fin s) (Fin 0) then true else false);
    destruct (odd_stroke index);
    try (apply constrain_bounds; exact D0); lia.
Qed.

Lemma insist_defined_in_binary32_witness :
  let p := Insist.upd_base (Pattern.setSensation (Fin 40))
             (Insist.upd_base (Pattern.setSpeedLimit 1000 10000 80)
                (Insist.init 400 1000 100)) in
  exists m p',
    Binary32.Insist_nextTarget 3 p = Some (m, p') /\
    in_limits (Insist.base p) m /\ in_depth (Insist.base p) m /\
    skip m = false.
Proof.
  cbv zeta.
  apply (@insist_defined_in_binary32
           (Insist.upd_base (Pattern.setSensation (Fin 40))
              (Insist.upd_base (Pattern.setSpeedLimit 1000 10000 80)
                 (Insist.init 400 1000 100))) 40 3).
  - constructor; try (constructor; split; discriminate);
      try (split; discriminate); discriminate.
  - reflexivity.
  - split; discriminate.
Defined.
